(** * Genomic interval engine (ATAC): shallow embedding and verified properties

    Embeds the interval primitives, the two-pointer overlap sweep, the union
    peak builder and the feature annotator of [src/ATAC] and proves the
    properties listed for them.

    Conventions of the embedding:
    - Python integers are unbounded: [Z].
    - Tuples are products; [(start, end)] is [Z * Z].
    - A Python [dict] is insertion ordered: an association list with unique
      keys, new keys appended at the end ([Dict] below).
    - [list.sort(key=...)] and [sorted(..., key=...)] are stable: a stable
      insertion sort ([stable_sort]); the result of a stable sort is unique,
      so it is the list Python produces.
    - A function that mutates an argument returns the argument's final value
      next to its result. *)

From Stdlib Require Import ZArith List String Bool Lia Arith Permutation Sorted.
From Stdlib Require Import Structures.OrderedTypeEx.
Import ListNotations.
Open Scope Z_scope.

(* ================================================================== *)
(** * Part I: the program *)
(* ================================================================== *)

(** ** Stable sorting *)

Section StableSort.
Context {A : Type}.
Variable le : A -> A -> bool.

(** [x] comes from an earlier position than everything in [l]: it goes in
    front of the first element that is not smaller. *)
Fixpoint insert_sorted (x : A) (l : list A) : list A :=
  match l with
  | [] => [x]
  | y :: l' => if le x y then x :: l else y :: insert_sorted x l'
  end.

Definition stable_sort (l : list A) : list A :=
  fold_right insert_sorted [] l.
End StableSort.

(** [sorted(l, key=key)] for an integer key. *)
Definition sort_by_key {A : Type} (key : A -> Z) : list A -> list A :=
  stable_sort (fun x y => key x <=? key y).

(** [sorted(l)] for strings (code point order). *)
Definition sort_strings : list string -> list string :=
  stable_sort String.leb.

(** ** Insertion-ordered dictionaries *)

Module Dict.
Abbreviation t K V := (list (K * V)).

Section Dict.
Context {K V : Type}.
Variable eqb : K -> K -> bool.

Fixpoint get (k : K) (d : t K V) : option V :=
  match d with
  | [] => None
  | (k', v) :: d' => if eqb k k' then Some v else get k d'
  end.

(** [d[k] = v] *)
Fixpoint set (k : K) (v : V) (d : t K V) : t K V :=
  match d with
  | [] => [(k, v)]
  | (k', v') :: d' =>
      if eqb k k' then (k', v) :: d' else (k', v') :: set k v d'
  end.

Definition keys (d : t K V) : list K := map fst d.

(** [k in d] *)
Definition mem (k : K) (d : t K V) : bool :=
  match get k d with Some _ => true | None => false end.

(** [d.get(k, dflt)] *)
Definition get_or (dflt : V) (k : K) (d : t K V) : V :=
  match get k d with Some v => v | None => dflt end.
End Dict.

Section DictOfLists.
Context {K V : Type}.
Variable eqb : K -> K -> bool.

(** [d.setdefault(k, []).append(x)], and [d[k].append(x)] on a
    [defaultdict(list)]. *)
Definition append (k : K) (x : V) (d : t K (list V)) : t K (list V) :=
  set eqb k (get_or eqb [] k d ++ [x]) d.

(** [for k in d: d[k] = f(d[k])] *)
Definition map_values {W : Type} (f : list V -> W) (d : t K (list V))
  : t K W :=
  map (fun kv => (fst kv, f (snd kv))) d.
End DictOfLists.
End Dict.

(** Keys that are in both dictionaries ([a.keys() & b.keys()]).  Python
    iterates this set in an unspecified order; the embedding takes the
    order of [a]'s keys.  What [annotate_overlaps] stores does not depend on
    the order ([annotate_overlaps_any_order]); the order in which
    [find_overlaps_genomic] lists the pairs of different chromosomes does. *)
Definition common_keys {V W : Type} (a : Dict.t string V)
    (b : Dict.t string W) : list string :=
  filter (fun c => Dict.mem String.eqb c b) (Dict.keys a).

(** ** Interval primitives *)

Abbreviation Interval := (Z * Z)%type.
Abbreviation GenomicInterval := (string * Z * Z)%type.

Definition g_chrom (g : GenomicInterval) : string := fst (fst g).
Definition g_start (g : GenomicInterval) : Z := snd (fst g).
Definition g_end (g : GenomicInterval) : Z := snd g.

(** interval_overlap.py: [intervals_overlap] (the same test is written
    inline in [find_overlaps_genomic], as [overlaps] in [union_peaks] and
    with four arguments in peak_annotation.py). *)
Definition intervals_overlap (a b : Interval) : bool :=
  let '(a_start, a_end) := a in
  let '(b_start, b_end) := b in
  (a_start <? b_end) && (b_start <? a_end).

(** ** interval_merge.py *)

(** One iteration of the fold: [merged[-1]] is read and either replaced or
    a new interval is appended.  [merged] is never empty here. *)
Definition merge_step (merged : list Interval) (cur : Interval)
  : list Interval :=
  let '(cur_start, cur_end) := cur in
  let '(last_start, last_end) := last merged (0, 0) in
  if cur_start <=? last_end
  then removelast merged ++ [(last_start, Z.max last_end cur_end)]
  else merged ++ [(cur_start, cur_end)].

(** [merge_intervals(intervals)]: the first component is the caller's list
    after the call ([intervals.sort] sorts it in place), the second the
    returned list. *)
Definition merge_intervals (intervals : list Interval)
  : list Interval * list Interval :=
  match intervals with
  | [] => (intervals, [])
  | _ :: _ =>
      let intervals' := sort_by_key fst intervals in
      match intervals' with
      | first :: rest => (intervals', fold_left merge_step rest [first])
      | [] => (intervals', [])
      end
  end.

(** union_peak.py carries its own copy, [merge_intervals_1d]. *)
Definition merge_intervals_1d (intervals : list Interval)
  : list Interval * list Interval :=
  match intervals with
  | [] => (intervals, [])
  | _ :: _ =>
      let intervals' := sort_by_key fst intervals in
      match intervals' with
      | first :: rest =>
          (intervals',
           fold_left
             (fun merged '(s, e) =>
                let '(last_s, last_e) := last merged (0, 0) in
                if s <=? last_e
                then removelast merged ++ [(last_s, Z.max last_e e)]
                else merged ++ [(s, e)])
             rest [first])
      | [] => (intervals', [])
      end
  end.

(** The value returned by the merge (the spec's [merge_1d]). *)
Definition merge_1d (intervals : list Interval) : list Interval :=
  snd (merge_intervals intervals).

(** [enumerate(l)] *)
Definition enumerate {A : Type} (l : list A) : list (nat * A) :=
  combine (seq 0 (List.length l)) l.

(** ** interval_overlap.py *)

(** The [while] loop of [find_overlaps_1d].  The two arguments [a] and [b]
    are the parts of the lists still ahead of the pointers, [a[i:]] and
    [b[j:]], so that [a[i]] and [b[j]] are their heads; the loop stops when
    one of them is empty. *)
Fixpoint sweep_1d (a : list Interval) (i : nat)
  : list Interval -> nat -> list (nat * nat) -> list (nat * nat) :=
  fix over_b (b : list Interval) (j : nat) (result : list (nat * nat)) :=
    match a, b with
    | a_int :: a', b_int :: b' =>
        let result :=
          if intervals_overlap a_int b_int then result ++ [(i, j)]
          else result in
        if snd a_int <=? snd b_int
        then sweep_1d a' (S i) b j result
        else over_b b' (S j) result
    | _, _ => result
    end.

Definition find_overlaps_1d (intervals_a intervals_b : list Interval)
  : list (nat * nat) :=
  let a := sort_by_key fst intervals_a in
  let b := sort_by_key fst intervals_b in
  sweep_1d a 0 b 0 [].

(** An interval of one chromosome with its position in the input:
    [(start, end, original_index)]. *)
Abbreviation Indexed := (Z * Z * nat)%type.
Definition ix_start (x : Indexed) : Z := fst (fst x).
Definition ix_end (x : Indexed) : Z := snd (fst x).
Definition ix_idx (x : Indexed) : nat := snd x.

(** [grouped.setdefault(chrom, []).append((start, end, idx))] over
    [enumerate(intervals)], then every group sorted by start. *)
Definition group_indexed (intervals : list GenomicInterval)
  : Dict.t string (list Indexed) :=
  Dict.map_values (sort_by_key ix_start)
    (fold_left
       (fun grouped '(idx, (chrom, start, end_)) =>
          Dict.append String.eqb chrom (start, end_, idx) grouped)
       (enumerate intervals) []).

(** The per-chromosome [while] loop of [find_overlaps_genomic]. *)
Fixpoint sweep_genomic (list_a : list Indexed)
  : list Indexed -> list (nat * nat) -> list (nat * nat) :=
  fix over_b (list_b : list Indexed) (overlaps : list (nat * nat)) :=
    match list_a, list_b with
    | (a_start, a_end, a_idx) :: list_a', (b_start, b_end, b_idx) :: list_b' =>
        let overlaps :=
          if (a_start <? b_end) && (b_start <? a_end)
          then overlaps ++ [(a_idx, b_idx)] else overlaps in
        if a_end <=? b_end
        then sweep_genomic list_a' list_b overlaps
        else over_b list_b' overlaps
    | _, _ => overlaps
    end.

Definition find_overlaps_genomic (intervals_a intervals_b : list GenomicInterval)
  : list (nat * nat) :=
  let grouped_a := group_indexed intervals_a in
  let grouped_b := group_indexed intervals_b in
  fold_left
    (fun overlaps chrom =>
       sweep_genomic (Dict.get_or String.eqb [] chrom grouped_a)
         (Dict.get_or String.eqb [] chrom grouped_b) overlaps)
    (common_keys grouped_a grouped_b) [].

(** [group_by_chrom(intervals)] of interval_overlap.py: chromosome to its
    [(start, end)] pairs, each list sorted by start. *)
Definition group_by_chrom (intervals : list GenomicInterval)
  : Dict.t string (list Interval) :=
  Dict.map_values (sort_by_key fst)
    (fold_left
       (fun grouped '(chrom, start, end_) =>
          Dict.append String.eqb chrom (start, end_) grouped)
       intervals []).

(** ** union_peak.py *)

Definition genomic_eqb (p q : GenomicInterval) : bool :=
  String.eqb (g_chrom p) (g_chrom q) && (g_start p =? g_start q)
  && (g_end p =? g_end q).

(** [membership[k].append(x)] on a plain dict: [None] is the [KeyError]
    raised when [k] is missing. *)
Definition append_at (k : GenomicInterval) (x : string)
    (membership : Dict.t GenomicInterval (list string))
  : option (Dict.t GenomicInterval (list string)) :=
  match Dict.get genomic_eqb k membership with
  | Some l => Some (Dict.set genomic_eqb k (l ++ [x]) membership)
  | None => None
  end.

(** State of the collection loop: [chrom_to_all_intervals] and
    [chrom_to_sample_intervals]. *)
Definition Collected : Type :=
  Dict.t string (list Interval) * Dict.t string (Dict.t string (list Interval)).

Definition collect_peak (return_membership : bool) (sample : string)
    (st : Collected) (p : GenomicInterval) : Collected :=
  let '(chrom, start, end_) := p in
  let '(chrom_to_all_intervals, chrom_to_sample_intervals) := st in
  (Dict.append String.eqb chrom (start, end_) chrom_to_all_intervals,
   if return_membership
   then Dict.set String.eqb chrom
          (Dict.append String.eqb sample (start, end_)
             (Dict.get_or String.eqb [] chrom chrom_to_sample_intervals))
          chrom_to_sample_intervals
   else chrom_to_sample_intervals).

Definition collect_peaks (return_membership : bool)
    (peaks_by_sample : Dict.t string (list GenomicInterval)) : Collected :=
  fold_left
    (fun st '(sample, peaks) =>
       fold_left (collect_peak return_membership sample) peaks st)
    peaks_by_sample ([], []).

(** Step 2.  [merge_intervals_1d] sorts [chrom_to_all_intervals[chrom]] in
    place; that list is not read again, so only the returned list is kept. *)
Definition build_union_list (chrom_to_all_intervals : Dict.t string (list Interval))
  : list GenomicInterval :=
  flat_map
    (fun chrom =>
       map (fun '(s, e) => (chrom, s, e))
         (snd (merge_intervals_1d
                 (Dict.get_or String.eqb [] chrom chrom_to_all_intervals))))
    (sort_strings (Dict.keys chrom_to_all_intervals)).

(** An entry of [union_by_chrom]: [(s, e, (chrom, s, e))]. *)
Abbreviation UnionEntry := (Z * Z * GenomicInterval)%type.

Definition build_union_by_chrom (union_list : list GenomicInterval)
  : Dict.t string (list UnionEntry) :=
  Dict.map_values (sort_by_key (fun x : UnionEntry => fst (fst x)))
    (fold_left
       (fun d '(chrom, s, e) =>
          Dict.append String.eqb chrom (s, e, (chrom, s, e)) d)
       union_list []).

(** The [while] loop of step 3, on [ints[i:]] and [union_chr[j:]]. *)
Fixpoint sweep_membership (sample : string) (ints : list Interval)
  : list UnionEntry -> Dict.t GenomicInterval (list string)
    -> option (Dict.t GenomicInterval (list string)) :=
  fix over_union (union_chr : list UnionEntry)
      (membership : Dict.t GenomicInterval (list string)) :=
    match ints, union_chr with
    | s_int :: ints', (u_s, u_e, u_key) :: union_chr' =>
        match (if intervals_overlap s_int (u_s, u_e)
               then append_at u_key sample membership
               else Some membership) with
        | Some membership =>
            if snd s_int <=? u_e
            then sweep_membership sample ints' union_chr membership
            else over_union union_chr' membership
        | None => None
        end
    | _, _ => Some membership
    end.

(** A loop whose body may raise. *)
Fixpoint fold_option {S X : Type} (f : S -> X -> option S) (l : list X) (s : S)
  : option S :=
  match l with
  | [] => Some s
  | x :: l' => match f s x with Some s' => fold_option f l' s' | None => None end
  end.

Definition build_membership (union_list : list GenomicInterval)
    (chrom_to_sample_intervals : Dict.t string (Dict.t string (list Interval)))
  : option (Dict.t GenomicInterval (list string)) :=
  let membership :=
    fold_left (fun m p => Dict.set genomic_eqb p [] m) union_list [] in
  let union_by_chrom := build_union_by_chrom union_list in
  fold_option
    (fun membership '(chrom, sample_map) =>
       match Dict.get_or String.eqb [] chrom union_by_chrom with
       | [] => Some membership
       | union_chr =>
           fold_option
             (fun membership '(sample, ints) =>
                sweep_membership sample (sort_by_key fst ints) union_chr
                  membership)
             sample_map membership
       end)
    chrom_to_sample_intervals membership.

(** [sorted(set(l))]: the set's iteration order is unspecified, the sorted
    list of its elements is not. *)
Definition sorted_set (l : list string) : list string :=
  sort_strings (nodup string_dec l).

(** [union_peaks(peaks_by_sample, return_membership)]; [None] stands for an
    exception. *)
Definition union_peaks (peaks_by_sample : Dict.t string (list GenomicInterval))
    (return_membership : bool)
  : option (list GenomicInterval
            * option (Dict.t GenomicInterval (list string))) :=
  let '(chrom_to_all_intervals, chrom_to_sample_intervals) :=
    collect_peaks return_membership peaks_by_sample in
  let union_list := build_union_list chrom_to_all_intervals in
  if negb return_membership then Some (union_list, None)
  else
    match build_membership union_list chrom_to_sample_intervals with
    | Some membership =>
        Some (union_list, Some (Dict.map_values sorted_set membership))
    | None => None
    end.

(** ** peak_annotation.py *)

Record GeneRecord : Type := mkGene {
  gr_chrom : string;
  gr_start : Z;
  gr_end : Z;
  gr_strand : string;
  gr_gene_id : string;
  gr_gene_name : string;
  gr_tss : Z
}.

Record FeatureInterval : Type := mkFeature {
  fi_chrom : string;
  fi_start : Z;
  fi_end : Z;
  fi_gene_name : string;
  fi_tss : Z
}.

Definition build_promoters (genes : list GeneRecord) (upstream downstream : Z)
  : list FeatureInterval :=
  fold_left
    (fun feats g =>
       let '(p_start, p_end) :=
         if String.eqb (gr_strand g) "+"
         then (Z.max 0 (gr_tss g - upstream), gr_tss g + downstream)
         else (Z.max 0 (gr_tss g - downstream), gr_tss g + upstream) in
       if p_end >? p_start
       then feats ++ [mkFeature (gr_chrom g) p_start p_end (gr_gene_name g)
                        (gr_tss g)]
       else feats)
    genes [].

Definition group_by_chrom_intervals (intervals : list FeatureInterval)
  : Dict.t string (list FeatureInterval) :=
  Dict.map_values (sort_by_key fi_start)
    (fold_left (fun grouped it => Dict.append String.eqb (fi_chrom it) it grouped)
       intervals []).

Definition group_by_chrom_peaks (peaks : list GenomicInterval)
  : Dict.t string (list Indexed) :=
  group_indexed peaks.

(** The four-argument [intervals_overlap] of this file. *)
Definition intervals_overlap4 (a_start a_end b_start b_end : Z) : bool :=
  (a_start <? b_end) && (b_start <? a_end).

(** The sentinel [10**18] that both selection loops start from. *)
Definition NO_DIST : Z := 10 ^ 18.

Definition assign_best_gene_by_tss_distance (peak_center : Z)
    (candidates : list FeatureInterval) : string * Z :=
  let '(best_gene, _, best_signed) :=
    fold_left
      (fun '(best_gene, best_dist, best_signed) c =>
         let signed := peak_center - fi_tss c in
         let dist := Z.abs signed in
         if dist <? best_dist then (fi_gene_name c, dist, signed)
         else (best_gene, best_dist, best_signed))
      candidates (EmptyString, NO_DIST, 0) in
  (best_gene, best_signed).

(** [while j < len(f_list) and f_list[j].end <= pstart: j += 1], on
    [f_list[j:]]. *)
Fixpoint advance_features (f_list : list FeatureInterval) (pstart : Z)
  : list FeatureInterval :=
  match f_list with
  | f :: rest =>
      if fi_end f <=? pstart then advance_features rest pstart else f_list
  | [] => []
  end.

(** [while k < len(f_list) and f_list[k].start < pend: ...; k += 1], on
    [f_list[k:]]. *)
Fixpoint scan_features (f_list : list FeatureInterval) (pstart pend : Z)
    (cand : list FeatureInterval) : list FeatureInterval :=
  match f_list with
  | f :: rest =>
      if fi_start f <? pend
      then scan_features rest pstart pend
             (if intervals_overlap4 pstart pend (fi_start f) (fi_end f)
              then cand ++ [f] else cand)
      else cand
  | [] => cand
  end.

Definition Hits : Type := Dict.t nat (list FeatureInterval).

(** One peak of the sweep: state is the shared pointer (as [f_list[j:]])
    and [hits]. *)
Definition overlaps_of_peak (st : list FeatureInterval * Hits) (p : Indexed)
  : list FeatureInterval * Hits :=
  let '(f_rest, hits) := st in
  let '(pstart, pend, pidx) := p in
  let f_rest := advance_features f_rest pstart in
  let cand := scan_features f_rest pstart pend [] in
  (f_rest,
   match cand with
   | [] => hits
   | _ :: _ =>
       Dict.set Nat.eqb pidx (Dict.get_or Nat.eqb [] pidx hits ++ cand) hits
   end).

Definition annotate_overlaps (peaks : list GenomicInterval)
    (feature_grouped : Dict.t string (list FeatureInterval)) : Hits :=
  let peak_grouped := group_by_chrom_peaks peaks in
  fold_left
    (fun hits chrom =>
       let p_list := Dict.get_or String.eqb [] chrom peak_grouped in
       let f_list := Dict.get_or String.eqb [] chrom feature_grouped in
       snd (fold_left overlaps_of_peak p_list (f_list, hits)))
    (common_keys peak_grouped feature_grouped) [].

Definition build_tss_index (genes : list GeneRecord)
  : Dict.t string (list Z * list string) :=
  Dict.map_values
    (fun arr =>
       let arr := sort_by_key (fun x : Z * string => fst x) arr in
       (map fst arr, map snd arr))
    (fold_left
       (fun per_chrom g =>
          Dict.append String.eqb (gr_chrom g) (gr_tss g, gr_gene_name g)
            per_chrom)
       genes []).

(** [bisect.bisect_left(a, x)] of the Python standard library: the binary
    search loop on [lo, hi).  Each iteration shrinks [hi - lo], so
    [hi - lo] iterations are enough. *)
Fixpoint bisect_loop (fuel : nat) (a : list Z) (x : Z) (lo hi : nat) : nat :=
  match fuel with
  | O => lo
  | S fuel' =>
      if (lo <? hi)%nat then
        let mid := ((lo + hi) / 2)%nat in
        if nth mid a 0 <? x then bisect_loop fuel' a x (S mid) hi
        else bisect_loop fuel' a x lo mid
      else lo
  end.

Definition bisect_left (a : list Z) (x : Z) : nat :=
  bisect_loop (List.length a) a x 0 (List.length a).

Definition nearest_tss (tss_list : list Z) (name_list : list string) (pos : Z)
  : string * Z :=
  match tss_list with
  | [] => (EmptyString, 0)
  | _ :: _ =>
      let k := Z.of_nat (bisect_left tss_list pos) in
      let '(best_idx, _, best_signed) :=
        fold_left
          (fun '(best_idx, best_dist, best_signed) cand =>
             if (0 <=? cand) && (cand <? Z.of_nat (List.length tss_list)) then
               let signed := pos - nth (Z.to_nat cand) tss_list 0 in
               let dist := Z.abs signed in
               if dist <? best_dist then (Some cand, dist, signed)
               else (best_idx, best_dist, best_signed)
             else (best_idx, best_dist, best_signed))
          [k - 1; k] (None, NO_DIST, 0) in
      match best_idx with
      | None => (EmptyString, 0)
      | Some i => (nth (Z.to_nat i) name_list EmptyString, best_signed)
      end
  end.

Inductive Annotation : Type := promoter | gene_body | intergenic.

(** One output row.  [ar_idx] is the number in ["peak_<idx>"]; the integer
    columns are kept as integers ([str] is applied when the row is built
    for printing). *)
Record AnnotationRecord : Type := mkRow {
  ar_idx : nat;
  ar_chrom : string;
  ar_start : Z;
  ar_end : Z;
  ar_annotation : Annotation;
  ar_gene : string;
  ar_distance_to_TSS : Z
}.

Definition gene_body_feature (g : GeneRecord) : FeatureInterval :=
  mkFeature (gr_chrom g) (gr_start g) (gr_end g) (gr_gene_name g) (gr_tss g).

Definition annotate_peak (promoter_hits gene_hits : Hits)
    (tss_index : Dict.t string (list Z * list string))
    (ip : nat * GenomicInterval) : AnnotationRecord :=
  let '(idx, (chrom, start, end_)) := ip in
  let center := (start + end_) / 2 in
  let '(annotation, (gene, dist)) :=
    match Dict.get Nat.eqb idx promoter_hits with
    | Some cands => (promoter, assign_best_gene_by_tss_distance center cands)
    | None =>
        match Dict.get Nat.eqb idx gene_hits with
        | Some cands =>
            (gene_body, assign_best_gene_by_tss_distance center cands)
        | None =>
            (intergenic,
             match Dict.get String.eqb chrom tss_index with
             | Some (tss_list, name_list) =>
                 nearest_tss tss_list name_list center
             | None => (EmptyString, 0)
             end)
        end
    end in
  mkRow idx chrom start end_ annotation gene dist.

Definition annotate_peaks (peaks : list GenomicInterval)
    (genes : list GeneRecord) (promoter_upstream promoter_downstream : Z)
  : list AnnotationRecord :=
  let promoters := build_promoters genes promoter_upstream promoter_downstream in
  let promoter_grouped := group_by_chrom_intervals promoters in
  let gene_bodies := map gene_body_feature genes in
  let gene_grouped := group_by_chrom_intervals gene_bodies in
  let promoter_hits := annotate_overlaps peaks promoter_grouped in
  let gene_hits := annotate_overlaps peaks gene_grouped in
  let tss_index := build_tss_index genes in
  map (annotate_peak promoter_hits gene_hits tss_index) (enumerate peaks).

(* ================================================================== *)
(** * Part II: specification vocabulary *)
(* ================================================================== *)

(** The fold of the merge, started on [cur] over a start-sorted [rest]. *)
Fixpoint merge_run (cur : Interval) (rest : list Interval) : list Interval :=
  match rest with
  | [] => [cur]
  | (s, e) :: rest' =>
      if s <=? snd cur
      then merge_run (fst cur, Z.max (snd cur) e) rest'
      else cur :: merge_run (s, e) rest'
  end.

(** The step of every grouping loop:
    [d.setdefault(key(x), []).append(value(x))]. *)
Definition group_step {K V X : Type} (eqb : K -> K -> bool) (kf : X -> K)
    (vf : X -> V) (d : Dict.t K (list V)) (x : X) : Dict.t K (list V) :=
  Dict.append eqb (kf x) (vf x) d.

Definition well_formed (a : Interval) : Prop := fst a < snd a.
Definition start_le (a b : Interval) : Prop := fst a <= fst b.
(** [a] ends strictly before [b] starts: disjoint and not adjacent. *)
Definition apart (a b : Interval) : Prop := snd a < fst b.
Definition covers (a : Interval) (x : Z) : Prop := fst a <= x < snd a.
Definition contains (u a : Interval) : Prop := fst u <= fst a /\ snd a <= snd u.

(** The tuple [(start, end, idx)] built from an enumerated interval. *)
Definition indexed_of (x : nat * GenomicInterval) : Indexed :=
  (g_start (snd x), g_end (snd x), fst x).

(** Strict overlap of the peak [[pstart, pend)] with a feature. *)
Definition overlaps_feature (pstart pend : Z) (f : FeatureInterval) : bool :=
  intervals_overlap4 pstart pend (fi_start f) (fi_end f).

Definition features_by_start (fl : list FeatureInterval) : Prop :=
  StronglySorted (fun f g => fi_start f <= fi_start g) fl.

(** What one peak contributes to [hits] when its candidates are computed
    without the shared pointer. *)
Definition record_hits (f_list : list FeatureInterval) (hits : Hits)
    (p : Indexed) : Hits :=
  let cand := filter (overlaps_feature (ix_start p) (ix_end p)) f_list in
  match cand with
  | [] => hits
  | _ :: _ =>
      Dict.set Nat.eqb (ix_idx p)
        (Dict.get_or Nat.eqb [] (ix_idx p) hits ++ cand) hits
  end.

(** The body of the loop over chromosomes in [annotate_overlaps]. *)
Definition annotate_chrom (peaks : list GenomicInterval)
    (feature_grouped : Dict.t string (list FeatureInterval)) (hits : Hits)
    (chrom : string) : Hits :=
  snd (fold_left overlaps_of_peak
         (Dict.get_or String.eqb [] chrom (group_by_chrom_peaks peaks))
         (Dict.get_or String.eqb [] chrom feature_grouped, hits)).

(** The entry of [hits] that a candidate list gives rise to. *)
Definition hits_entry (cand : list FeatureInterval)
  : option (list FeatureInterval) :=
  match cand with [] => None | _ :: _ => Some cand end.

(** The features of [feats] on [chrom] that strictly overlap [[s, e)], in
    the order in which the sweep meets them: the order of the
    chromosome's start-sorted feature list. *)
Definition candidates_on (chrom : string) (s e : Z)
    (feats : list FeatureInterval) : list FeatureInterval :=
  filter (overlaps_feature s e)
    (sort_by_key fi_start
       (filter (fun f => String.eqb chrom (fi_chrom f)) feats)).


(** The annotation and the gene assignment of one peak, from the
    candidate lists. *)
Definition classify (center : Z) (prom_cands gene_cands : list FeatureInterval)
    (tss_entry : option (list Z * list string)) : Annotation * (string * Z) :=
  match hits_entry prom_cands with
  | Some cands => (promoter, assign_best_gene_by_tss_distance center cands)
  | None =>
      match hits_entry gene_cands with
      | Some cands => (gene_body, assign_best_gene_by_tss_distance center cands)
      | None =>
          (intergenic,
           match tss_entry with
           | Some (tss_list, name_list) => nearest_tss tss_list name_list center
           | None => (EmptyString, 0)
           end)
      end
  end.

(** The row that [annotate_peaks] builds for the peak [(chrom, s, e)] at
    position [idx], written with [classify]. *)
Definition row_of (genes : list GeneRecord) (upstream downstream : Z)
    (idx : nat) (chrom : string) (s e : Z) : AnnotationRecord :=
  let '(annotation, (gene, dist)) :=
    classify ((s + e) / 2)
      (candidates_on chrom s e (build_promoters genes upstream downstream))
      (candidates_on chrom s e (map gene_body_feature genes))
      (Dict.get String.eqb chrom (build_tss_index genes)) in
  mkRow idx chrom s e annotation gene dist.

(** Distance of a feature's TSS from the peak center. *)
Definition tss_dist (center : Z) (c : FeatureInterval) : Z :=
  Z.abs (center - fi_tss c).

(** [gene] and [dist] are those of the candidate whose TSS is closest to
    [center], the first such candidate of the list on ties. *)
Definition picks_first_closest (center : Z) (cands : list FeatureInterval)
    (gene : string) (dist : Z) : Prop :=
  exists m c,
    nth_error cands m = Some c
    /\ gene = fi_gene_name c
    /\ dist = center - fi_tss c
    /\ (forall c', In c' cands -> tss_dist center c <= tss_dist center c')
    /\ (forall m' c', (m' < m)%nat -> nth_error cands m' = Some c' ->
                       tss_dist center c < tss_dist center c').

(** The step of the selection loop of [assign_best_gene_by_tss_distance]. *)
Definition best_step (peak_center : Z) (st : string * Z * Z)
    (c : FeatureInterval) : string * Z * Z :=
  let '(best_gene, best_dist, best_signed) := st in
  let signed := peak_center - fi_tss c in
  let dist := Z.abs signed in
  if dist <? best_dist then (fi_gene_name c, dist, signed)
  else (best_gene, best_dist, best_signed).

(** Loop invariant of the selection: after the candidates [seen], either
    nothing has been selected, every candidate seen being [NO_DIST] or more
    away, or the state holds the first closest candidate seen. *)
Definition best_so_far (center : Z) (seen : list FeatureInterval)
    (st : string * Z * Z) : Prop :=
  let '(best_gene, best_dist, best_signed) := st in
  (st = (EmptyString, NO_DIST, 0)
   /\ forall c, In c seen -> NO_DIST <= tss_dist center c)
  \/ (exists m c,
        nth_error seen m = Some c
        /\ best_gene = fi_gene_name c
        /\ best_dist = tss_dist center c
        /\ best_signed = center - fi_tss c
        /\ best_dist < NO_DIST
        /\ (forall c', In c' seen -> best_dist <= tss_dist center c')
        /\ (forall m' c', (m' < m)%nat -> nth_error seen m' = Some c' ->
                           best_dist < tss_dist center c')).

(** C8 as it is stated, for the peak at position [idx]. *)
Definition closest_candidate_claim (peaks : list GenomicInterval)
    (genes : list GeneRecord) (upstream downstream : Z) : Prop :=
  forall idx chrom s e row,
    nth_error peaks idx = Some (chrom, s, e) ->
    nth_error (annotate_peaks peaks genes upstream downstream) idx = Some row ->
    (ar_annotation row = promoter ->
     picks_first_closest ((s + e) / 2)
       (candidates_on chrom s e (build_promoters genes upstream downstream))
       (ar_gene row) (ar_distance_to_TSS row))
    /\ (ar_annotation row = gene_body ->
        picks_first_closest ((s + e) / 2)
          (candidates_on chrom s e (map gene_body_feature genes))
          (ar_gene row) (ar_distance_to_TSS row)).

(** Distance of a gene's TSS from the peak center. *)
Definition gene_dist (center : Z) (g : GeneRecord) : Z :=
  Z.abs (center - gr_tss g).

(** The genes of one chromosome, in input order. *)
Definition genes_on (chrom : string) (genes : list GeneRecord)
  : list GeneRecord :=
  filter (fun g => String.eqb chrom (gr_chrom g)) genes.

(** [gene] and [dist] are those of a gene of [gs] whose TSS is nearest to
    [center], one with the smallest TSS coordinate on ties. *)
Definition picks_nearest_gene (center : Z) (gs : list GeneRecord)
    (gene : string) (dist : Z) : Prop :=
  exists g,
    In g gs
    /\ gene = gr_gene_name g
    /\ dist = center - gr_tss g
    /\ (forall g', In g' gs -> gene_dist center g <= gene_dist center g')
    /\ (forall g', In g' gs -> gene_dist center g' = gene_dist center g ->
                    gr_tss g <= gr_tss g').

(** C9 as it is stated. *)
Definition nearest_gene_claim (peaks : list GenomicInterval)
    (genes : list GeneRecord) (upstream downstream : Z) : Prop :=
  forall idx chrom s e row,
    nth_error peaks idx = Some (chrom, s, e) ->
    nth_error (annotate_peaks peaks genes upstream downstream) idx = Some row ->
    ar_annotation row = intergenic ->
    (genes_on chrom genes <> [] ->
     picks_nearest_gene ((s + e) / 2) (genes_on chrom genes)
       (ar_gene row) (ar_distance_to_TSS row))
    /\ (genes_on chrom genes = [] ->
        ar_gene row = EmptyString /\ ar_distance_to_TSS row = 0).

(** The [(tss, gene_name)] pair that [build_tss_index] stores for a gene. *)
Definition tss_entry (g : GeneRecord) : Z * string :=
  (gr_tss g, gr_gene_name g).

(** The step of the loop over [(k - 1, k)] in [nearest_tss]. *)
Definition nearest_step (tss_list : list Z) (pos : Z)
    (st : option Z * Z * Z) (cand : Z) : option Z * Z * Z :=
  let '(best_idx, best_dist, best_signed) := st in
  if (0 <=? cand) && (cand <? Z.of_nat (List.length tss_list)) then
    let signed := pos - nth (Z.to_nat cand) tss_list 0 in
    let dist := Z.abs signed in
    if dist <? best_dist then (Some cand, dist, signed)
    else (best_idx, best_dist, best_signed)
  else (best_idx, best_dist, best_signed).

(** [(start, end)] of a genomic interval. *)
Definition interval_of (p : GenomicInterval) : Z * Z := (g_start p, g_end p).

(** [(chrom, s, e)] from a chromosome and an interval. *)
Definition on_chrom (chrom : string) (a : Z * Z) : GenomicInterval :=
  (chrom, fst a, snd a).

(** Every interval of the input, over all samples, in iteration order. *)
Definition all_peaks (peaks_by_sample : Dict.t string (list GenomicInterval))
  : list GenomicInterval :=
  flat_map snd peaks_by_sample.

(** The intervals of all samples on one chromosome. *)
Definition pooled (peaks_by_sample : Dict.t string (list GenomicInterval))
    (chrom : string) : list (Z * Z) :=
  map interval_of
    (filter (fun p => String.eqb chrom (g_chrom p)) (all_peaks peaks_by_sample)).

(** The intervals that [sample] contributes on one chromosome. *)
Definition sample_intervals
    (peaks_by_sample : Dict.t string (list GenomicInterval))
    (chrom sample : string) : list (Z * Z) :=
  map interval_of
    (filter (fun p => String.eqb chrom (g_chrom p))
       (flat_map snd
          (filter (fun kv => String.eqb sample (fst kv)) peaks_by_sample))).

Definition genomic_well_formed (p : GenomicInterval) : Prop :=
  g_start p < g_end p.

(** Ascending code point order without repetition. *)
Definition strictly_ascending (l : list string) : Prop :=
  StronglySorted (fun a b => String.ltb a b = true) l.

Abbreviation Membership := (Dict.t (string * Z * Z) (list string)).

(** [x] is listed under the union peak [k]. *)
Definition has (m : Membership) (k : GenomicInterval) (x : string) : Prop :=
  exists l, Dict.get genomic_eqb k m = Some l /\ In x l.

(** Some interval of [ints] strictly overlaps an entry of [union_chr] whose
    key is [k]. *)
Definition sweep_hit (ints : list (Z * Z)) (union_chr : list UnionEntry)
    (k : GenomicInterval) : Prop :=
  exists iv en,
    In iv ints /\ In en union_chr /\ snd en = k
    /\ intervals_overlap iv (fst en) = true.

(** The entries of [union_chr] follow one another without overlap. *)
Definition entries_in_order (union_chr : list UnionEntry) : Prop :=
  StronglySorted (fun a b : UnionEntry => snd (fst a) <= fst (fst b)) union_chr.

(** [chrom_to_sample_intervals[chrom][sample]], empty when missing. *)
Definition lookup2 (per : Dict.t string (Dict.t string (list (Z * Z))))
    (chrom sample : string) : list (Z * Z) :=
  Dict.get_or String.eqb [] sample (Dict.get_or String.eqb [] chrom per).

(** The entry of [union_by_chrom] for a merged interval. *)
Definition union_entry (chrom : string) (a : Z * Z) : UnionEntry :=
  (fst a, snd a, on_chrom chrom a).

(** The initial [membership]: [{p: [] for p in union_list}]. *)
Definition empty_membership (union_list : list GenomicInterval) : Membership :=
  fold_left (fun m p => Dict.set genomic_eqb p [] m) union_list [].

(** Every inner dictionary of [per] has distinct keys, as [per] itself. *)
Definition nested_keys_distinct
    (per : Dict.t string (Dict.t string (list (Z * Z)))) : Prop :=
  NoDup (Dict.keys per)
  /\ forall c sm, In (c, sm) per -> NoDup (Dict.keys sm).

(** What one peak of [sample] does to [chrom_to_sample_intervals]. *)
Definition per_step (sample : string)
    (per : Dict.t string (Dict.t string (list (Z * Z)))) (p : GenomicInterval)
  : Dict.t string (Dict.t string (list (Z * Z))) :=
  Dict.set String.eqb (g_chrom p)
    (Dict.append String.eqb sample (interval_of p)
       (Dict.get_or String.eqb [] (g_chrom p) per))
    per.

(** What one sample does to [chrom_to_sample_intervals]. *)
Definition per_sample (per : Dict.t string (Dict.t string (list (Z * Z))))
    (entry : string * list GenomicInterval)
  : Dict.t string (Dict.t string (list (Z * Z))) :=
  fold_left (per_step (fst entry)) (snd entry) per.

(** Each interval ends at or before the start of every later one: the list
    is in ascending order and no two of its intervals overlap. *)
Definition in_order (l : list Interval) : Prop :=
  StronglySorted (fun a b => snd a <= fst b) l.

(** Some interval of [l] covers the point [x]. *)
Definition covered (l : list Interval) (x : Z) : Prop :=
  exists a, In a l /\ covers a x.

(** What one gene contributes to [build_promoters]: its window, unless the
    window is empty. *)
Definition promoter_of (upstream downstream : Z) (g : GeneRecord)
  : list FeatureInterval :=
  let '(p_start, p_end) :=
    if String.eqb (gr_strand g) "+"
    then (Z.max 0 (gr_tss g - upstream), gr_tss g + downstream)
    else (Z.max 0 (gr_tss g - downstream), gr_tss g + upstream) in
  if p_end >? p_start
  then [mkFeature (gr_chrom g) p_start p_end (gr_gene_name g) (gr_tss g)]
  else [].

(** Every entry of [hits] is a non-empty list of features of the peak's
    chromosome that strictly overlap the peak at that position. *)
Definition hits_sound (peaks : list GenomicInterval)
    (feature_grouped : Dict.t string (list FeatureInterval)) (hits : Hits)
  : Prop :=
  forall idx l,
    Dict.get Nat.eqb idx hits = Some l ->
    l <> []
    /\ exists chrom s e,
         nth_error peaks idx = Some (chrom, s, e)
         /\ forall f, In f l ->
              In f (Dict.get_or String.eqb [] chrom feature_grouped)
              /\ overlaps_feature s e f = true.

(** Every interval has [start < end], and two intervals at different
    positions of the list that lie on the same chromosome do not overlap. *)
Definition chrom_disjoint (l : list GenomicInterval) : Prop :=
  (forall x, In x l -> g_start x < g_end x)
  /\ forall p q x y,
       p <> q -> nth_error l p = Some x -> nth_error l q = Some y ->
       g_chrom x = g_chrom y ->
       g_end x <= g_start y \/ g_end y <= g_start x.

(** [in_order] for intervals that carry their original index. *)
Definition ix_in_order (l : list Indexed) : Prop :=
  StronglySorted (fun x y => ix_end x <= ix_start y) l.

(** The two inputs give every sample the same set of peaks: they may differ
    in the order of the samples and in the order and repetition of the peaks
    of a sample. *)
Definition same_peaks (a b : Dict.t string (list GenomicInterval)) : Prop :=
  forall s p,
    (exists peaks, In (s, peaks) a /\ In p peaks)
    <-> (exists peaks, In (s, peaks) b /\ In p peaks).

(** Ascending start, and ascending original index among equal starts. *)
Definition by_start_then_index (x y : Indexed) : Prop :=
  ix_start x < ix_start y
  \/ (ix_start x = ix_start y /\ (ix_idx x < ix_idx y)%nat).

(* ================================================================== *)
(** * Part III: proofs *)
(* ================================================================== *)

(** ** Stable sort *)

Section StableSortFacts.
Context {A : Type}.
Variable le : A -> A -> bool.
Let R (x y : A) : Prop := le x y = true.

Lemma insert_sorted_perm x l : Permutation (insert_sorted le x l) (x :: l).
Proof.
  induction l as [|y l IH]; simpl; [reflexivity|].
  destruct (le x y); [reflexivity|].
  rewrite IH. apply perm_swap.
Qed.

Lemma stable_sort_perm l : Permutation (stable_sort le l) l.
Proof.
  induction l as [|x l IH]; simpl; [constructor|].
  rewrite insert_sorted_perm. now constructor.
Qed.

Lemma stable_sort_in x l : In x (stable_sort le l) <-> In x l.
Proof.
  split; apply Permutation_in;
    [apply stable_sort_perm | symmetry; apply stable_sort_perm].
Qed.

Lemma stable_sort_length l : List.length (stable_sort le l) = List.length l.
Proof. apply Permutation_length, stable_sort_perm. Qed.

(** An already sorted list is left as it is. *)
Lemma stable_sort_sorted_id l : Sorted R l -> stable_sort le l = l.
Proof.
  induction 1 as [|x l Hs IH Hhd]; simpl; [reflexivity|].
  rewrite IH. destruct Hhd as [|y l Hxy]; simpl; [reflexivity|].
  unfold R in Hxy. now rewrite Hxy.
Qed.

Hypothesis le_total : forall x y, le x y = false -> le y x = true.
Hypothesis le_trans : forall x y z, R x y -> R y z -> R x z.

Lemma insert_sorted_sorted x l :
  StronglySorted R l -> StronglySorted R (insert_sorted le x l).
Proof.
  induction 1 as [|y l Hs IH Hall]; simpl.
  - repeat constructor.
  - destruct (le x y) eqn:E.
    + constructor; [now constructor|].
      constructor; [exact E|].
      eapply Forall_impl; [|exact Hall]. intros z Hz. now apply le_trans with y.
    + constructor; [exact IH|].
      rewrite Forall_forall. intros z Hz.
      apply (Permutation_in _ (insert_sorted_perm x l)) in Hz.
      destruct Hz as [<-|Hz]; [now apply le_total|].
      rewrite Forall_forall in Hall. now apply Hall.
Qed.

Lemma stable_sort_sorted l : StronglySorted R (stable_sort le l).
Proof.
  induction l; simpl; [constructor|]. now apply insert_sorted_sorted.
Qed.
End StableSortFacts.

Lemma StronglySorted_weaken {A} (P Q : A -> A -> Prop) l :
  (forall x y, P x y -> Q x y) -> StronglySorted P l -> StronglySorted Q l.
Proof.
  intros HPQ. induction 1 as [|x l Hs IH Hall]; constructor; [exact IH|].
  eapply Forall_impl; [|exact Hall]. auto.
Qed.

Lemma StronglySorted_nth {A} (R : A -> A -> Prop) l :
  StronglySorted R l ->
  forall i j x y, (i < j)%nat -> nth_error l i = Some x ->
    nth_error l j = Some y -> R x y.
Proof.
  induction 1 as [|a l Hs IH Hall]; intros i j x y Hij Hi Hj.
  - destruct i; discriminate.
  - destruct j as [|j]; [lia|]. simpl in Hj.
    destruct i as [|i]; simpl in Hi.
    + injection Hi as <-. rewrite Forall_forall in Hall.
      apply Hall. eapply nth_error_In; eauto.
    + apply (IH i j); auto. lia.
Qed.

Lemma sort_by_key_sorted {A} (key : A -> Z) l :
  StronglySorted (fun x y => key x <= key y) (sort_by_key key l).
Proof.
  apply StronglySorted_weaken with (P := fun x y => (key x <=? key y) = true).
  - intros x y. apply Z.leb_le.
  - apply stable_sort_sorted.
    + intros x y. rewrite Z.leb_gt, Z.leb_le. lia.
    + intros x y z. rewrite !Z.leb_le. lia.
Qed.

Lemma sort_by_key_id {A} (key : A -> Z) l :
  StronglySorted (fun x y => key x <= key y) l -> sort_by_key key l = l.
Proof.
  intros H. apply stable_sort_sorted_id, StronglySorted_Sorted.
  eapply StronglySorted_weaken; [|exact H]. intros x y. apply Z.leb_le.
Qed.

Lemma sort_by_key_in {A} (key : A -> Z) x l :
  In x (sort_by_key key l) <-> In x l.
Proof. apply stable_sort_in. Qed.

Lemma sort_by_key_perm {A} (key : A -> Z) l :
  Permutation (sort_by_key key l) l.
Proof. apply stable_sort_perm. Qed.

(** ** Merge *)

(** The two copies of the merge are the same function. *)
Lemma merge_intervals_1d_eq l : merge_intervals_1d l = merge_intervals l.
Proof. reflexivity. Qed.

Lemma merge_step_snoc pre ls le s e :
  merge_step (pre ++ [(ls, le)]) (s, e)
  = if s <=? le then pre ++ [(ls, Z.max le e)]
    else (pre ++ [(ls, le)]) ++ [(s, e)].
Proof. unfold merge_step. now rewrite last_last, removelast_last. Qed.

Lemma fold_merge_step rest : forall pre cur,
  fold_left merge_step rest (pre ++ [cur]) = pre ++ merge_run cur rest.
Proof.
  induction rest as [|[s e] rest IH]; intros pre [ls le];
    cbn [fold_left merge_run fst snd]; [reflexivity|].
  rewrite merge_step_snoc.
  destruct (s <=? le).
  - apply IH.
  - rewrite IH. now rewrite <- app_assoc.
Qed.

Lemma merge_1d_run l :
  merge_1d l =
  match sort_by_key fst l with
  | [] => []
  | first :: rest => merge_run first rest
  end.
Proof.
  unfold merge_1d, merge_intervals.
  destruct l as [|x l]; [reflexivity|].
  destruct (sort_by_key fst (x :: l)) as [|first rest] eqn:E; [reflexivity|].
  simpl. apply (fold_merge_step rest [] first).
Qed.

Lemma merge_run_lower rest : forall cur lo,
  lo <= fst cur -> Forall (fun x => lo <= fst x) rest ->
  Forall (fun u => lo <= fst u) (merge_run cur rest).
Proof.
  induction rest as [|[s e] rest IH]; intros cur lo Hc Hall; simpl.
  - now constructor.
  - inversion Hall as [|? ? Hs Hrest]; subst. simpl in Hs.
    destruct (s <=? snd cur).
    + apply IH; auto.
    + constructor; [exact Hc|]. apply IH; auto.
Qed.

Lemma merge_run_apart rest : forall cur,
  StronglySorted start_le (cur :: rest) ->
  StronglySorted apart (merge_run cur rest).
Proof.
  induction rest as [|[s e] rest IH]; intros cur Hs; simpl.
  - repeat constructor.
  - apply StronglySorted_inv in Hs. destruct Hs as [Hs Hall].
    apply StronglySorted_inv in Hs as Hs'. destruct Hs' as [Hs' Hall'].
    inversion Hall as [|? ? Hcs Hcrest]; subst.
    destruct (s <=? snd cur) eqn:E.
    + apply IH. constructor; [exact Hs'|]. exact Hcrest.
    + apply Z.leb_gt in E. constructor.
      * apply IH. exact Hs.
      * eapply Forall_impl; [|apply (merge_run_lower rest (s, e) s)].
        -- intros u Hu. unfold apart. cbv beta in Hu. lia.
        -- simpl. lia.
        -- exact Hall'.
Qed.

Lemma merge_run_start_sorted rest : forall cur,
  StronglySorted start_le (cur :: rest) ->
  StronglySorted start_le (merge_run cur rest).
Proof.
  induction rest as [|[s e] rest IH]; intros cur Hs; simpl.
  - repeat constructor.
  - apply StronglySorted_inv in Hs. destruct Hs as [Hs Hall].
    apply StronglySorted_inv in Hs as Hs'. destruct Hs' as [Hs' Hall'].
    inversion Hall as [|? ? Hcs Hcrest]; subst.
    destruct (s <=? snd cur) eqn:E.
    + apply IH. constructor; [exact Hs'|]. exact Hcrest.
    + constructor; [apply IH; exact Hs|].
      apply (merge_run_lower rest (s, e) (fst cur)); [exact Hcs|exact Hcrest].
Qed.

(** Merging a list whose members are already apart changes nothing. *)
Lemma merge_run_fixed rest : forall cur,
  StronglySorted apart (cur :: rest) -> merge_run cur rest = cur :: rest.
Proof.
  induction rest as [|[s e] rest IH]; intros cur Hs; simpl; [reflexivity|].
  apply StronglySorted_inv in Hs. destruct Hs as [Hs Hall].
  inversion Hall as [|? ? Hcs Hcrest]; subst. unfold apart in Hcs. simpl in Hcs.
  destruct (s <=? snd cur) eqn:E; [apply Z.leb_le in E; lia|].
  f_equal. now apply IH.
Qed.

Lemma merge_1d_apart l : StronglySorted apart (merge_1d l).
Proof.
  rewrite merge_1d_run.
  pose proof (sort_by_key_sorted fst l) as Hs.
  destruct (sort_by_key fst l) as [|first rest]; [constructor|].
  now apply merge_run_apart.
Qed.

Lemma merge_1d_start_sorted l : StronglySorted start_le (merge_1d l).
Proof.
  rewrite merge_1d_run.
  pose proof (sort_by_key_sorted fst l) as Hs.
  destruct (sort_by_key fst l) as [|first rest]; [constructor|].
  now apply merge_run_start_sorted.
Qed.

(** C5.  The output of [merge_1d] is pairwise disjoint and non-adjacent, in
    ascending order: for all positions [i < j] of the output,
    [output[i].end < output[j].start].  It holds for every input sequence,
    so in particular for every sequence of well-formed intervals. *)
Theorem merge_1d_output_apart (intervals : list Interval) (i j : nat)
    (a b : Interval) :
  (i < j)%nat ->
  nth_error (merge_1d intervals) i = Some a ->
  nth_error (merge_1d intervals) j = Some b ->
  snd a < fst b.
Proof.
  intros Hij Hi Hj.
  exact (StronglySorted_nth apart _ (merge_1d_apart intervals) i j a b Hij Hi Hj).
Qed.

Lemma merge_1d_output_apart_witness :
  nth_error (merge_1d [(300, 330); (100, 180); (150, 220); (320, 350)]) 0
    = Some (100, 220)
  /\ nth_error (merge_1d [(300, 330); (100, 180); (150, 220); (320, 350)]) 1
    = Some (300, 350)
  /\ snd (100, 220) < fst (300, 350).
Proof.
  split; [reflexivity|]. split; [reflexivity|].
  apply (merge_1d_output_apart
           [(300, 330); (100, 180); (150, 220); (320, 350)] 0 1);
    [lia | reflexivity | reflexivity].
Defined.

(** C6.  [merge_1d] is idempotent: merging a merged list gives it back.  It
    holds for every input sequence, so in particular for every sequence of
    well-formed intervals. *)
Theorem merge_1d_idempotent (X : list Interval) :
  merge_1d (merge_1d X) = merge_1d X.
Proof.
  rewrite (merge_1d_run (merge_1d X)).
  rewrite (sort_by_key_id fst (merge_1d X)) by apply merge_1d_start_sorted.
  pose proof (merge_1d_apart X) as Hap.
  destruct (merge_1d X) as [|first rest]; [reflexivity|].
  now apply merge_run_fixed.
Qed.

(** ** Dictionaries *)

Lemma fold_left_ext {S X} (f g : S -> X -> S) l :
  (forall s x, f s x = g s x) -> forall s, fold_left f l s = fold_left g l s.
Proof.
  intros Hfg. induction l as [|x l IH]; intros s; simpl; [reflexivity|].
  now rewrite Hfg, IH.
Qed.

Section DictFacts.
Context {K V : Type}.
Variable eqb : K -> K -> bool.
Hypothesis eqb_spec : forall x y, eqb x y = true <-> x = y.

Lemma eqb_refl_key k : eqb k k = true.
Proof. now apply eqb_spec. Qed.

Lemma eqb_neq_key k k' : k <> k' -> eqb k k' = false.
Proof.
  intros Hne. destruct (eqb k k') eqn:E; [|reflexivity].
  now apply eqb_spec in E.
Qed.

Lemma get_set_eq k (v : V) d : Dict.get eqb k (Dict.set eqb k v d) = Some v.
Proof.
  induction d as [|[k' v'] d IH]; simpl.
  - now rewrite eqb_refl_key.
  - destruct (eqb k k') eqn:E; simpl; rewrite E; auto.
Qed.

Lemma get_set_neq k k' (v : V) d :
  k <> k' -> Dict.get eqb k' (Dict.set eqb k v d) = Dict.get eqb k' d.
Proof.
  intros Hne. induction d as [|[k0 v0] d IH]; simpl.
  - rewrite eqb_neq_key; auto.
  - destruct (eqb k k0) eqn:E; simpl.
    + apply eqb_spec in E. subst k0.
      rewrite (eqb_neq_key k' k) by congruence. reflexivity.
    + now rewrite IH.
Qed.

Lemma get_none_iff k (d : Dict.t K V) :
  Dict.get eqb k d = None <-> ~ In k (Dict.keys d).
Proof.
  induction d as [|[k' v'] d IH]; simpl; [tauto|].
  destruct (eqb k k') eqn:E.
  - apply eqb_spec in E. subst. split; [discriminate|tauto].
  - rewrite IH. split; [|tauto].
    intros Hn [Heq|Hin]; [|tauto]. subst. now rewrite eqb_refl_key in E.
Qed.

Lemma get_some_in_keys k (v : V) d :
  Dict.get eqb k d = Some v -> In k (Dict.keys d).
Proof.
  induction d as [|[k' v'] d IH]; simpl; [discriminate|].
  destruct (eqb k k') eqn:E; [|auto].
  apply eqb_spec in E. auto.
Qed.

Lemma mem_iff k (d : Dict.t K V) :
  Dict.mem eqb k d = true <-> In k (Dict.keys d).
Proof.
  unfold Dict.mem. destruct (Dict.get eqb k d) eqn:E.
  - split; [intros _; eapply get_some_in_keys; eauto|reflexivity].
  - split; [discriminate|]. now apply get_none_iff in E.
Qed.

Lemma get_in k (v : V) d : Dict.get eqb k d = Some v -> In (k, v) d.
Proof.
  induction d as [|[k' v'] d IH]; simpl; [discriminate|].
  destruct (eqb k k') eqn:E.
  - apply eqb_spec in E. subst. intros [= ->]. now left.
  - auto.
Qed.

Lemma in_get k (v : V) d :
  NoDup (Dict.keys d) -> In (k, v) d -> Dict.get eqb k d = Some v.
Proof.
  induction d as [|[k' v'] d IH]; simpl; [tauto|].
  intros Hnd [Heq|Hin].
  - injection Heq as -> ->. now rewrite eqb_refl_key.
  - inversion Hnd as [|? ? Hnin Hnd']; subst.
    destruct (eqb k k') eqn:E; [|auto].
    apply eqb_spec in E. subst. exfalso. apply Hnin.
    change k' with (fst (k', v)). now apply in_map.
Qed.

Lemma set_keys k (v : V) d :
  Dict.keys (Dict.set eqb k v d)
  = if Dict.mem eqb k d then Dict.keys d else Dict.keys d ++ [k].
Proof.
  unfold Dict.mem. induction d as [|[k' v'] d IH]; simpl; [reflexivity|].
  destruct (eqb k k') eqn:E; simpl; [reflexivity|].
  rewrite IH. now destruct (Dict.get eqb k d).
Qed.

Lemma set_keys_in k k' (v : V) d :
  In k' (Dict.keys (Dict.set eqb k v d)) <-> k' = k \/ In k' (Dict.keys d).
Proof.
  rewrite set_keys. destruct (Dict.mem eqb k d) eqn:E.
  - apply mem_iff in E. split; [tauto|]. intros [->|H]; auto.
  - rewrite in_app_iff. simpl. intuition.
Qed.

Lemma set_keys_NoDup k (v : V) d :
  NoDup (Dict.keys d) -> NoDup (Dict.keys (Dict.set eqb k v d)).
Proof.
  intros Hnd. rewrite set_keys. destruct (Dict.mem eqb k d) eqn:E; [exact Hnd|].
  assert (Hn : ~ In k (Dict.keys d)).
  { intros Hin. apply mem_iff in Hin. congruence. }
  apply (Permutation_NoDup (Permutation_cons_append (Dict.keys d) k)).
  now constructor.
Qed.

Lemma get_or_set_eq dflt k (v : V) d :
  Dict.get_or eqb dflt k (Dict.set eqb k v d) = v.
Proof. unfold Dict.get_or. now rewrite get_set_eq. Qed.

Lemma get_or_set_neq dflt k k' (v : V) d :
  k <> k' ->
  Dict.get_or eqb dflt k' (Dict.set eqb k v d) = Dict.get_or eqb dflt k' d.
Proof. intros. unfold Dict.get_or. now rewrite get_set_neq. Qed.
End DictFacts.

Section DictOfListsFacts.
Context {K V : Type}.
Variable eqb : K -> K -> bool.
Hypothesis eqb_spec : forall x y, eqb x y = true <-> x = y.

Lemma get_map_values {W} (f : list V -> W) k d :
  Dict.get eqb k (Dict.map_values f d) = option_map f (Dict.get eqb k d).
Proof.
  induction d as [|[k' v'] d IH]; simpl; [reflexivity|].
  now destruct (eqb k k').
Qed.

Lemma keys_map_values {W} (f : list V -> W) (d : Dict.t K (list V)) :
  Dict.keys (Dict.map_values f d) = Dict.keys d.
Proof. unfold Dict.keys, Dict.map_values. rewrite map_map. reflexivity. Qed.

Lemma get_or_append k k' (x : V) d :
  Dict.get_or eqb [] k' (Dict.append eqb k x d)
  = if eqb k' k then Dict.get_or eqb [] k d ++ [x]
    else Dict.get_or eqb [] k' d.
Proof.
  unfold Dict.append. destruct (eqb k' k) eqn:E.
  - apply eqb_spec in E. subst. now apply get_or_set_eq.
  - apply get_or_set_neq; auto. intros ->.
    now rewrite (eqb_refl_key eqb eqb_spec) in E.
Qed.

Section Grouping.
Context {X : Type}.
Variable kf : X -> K.
Variable vf : X -> V.

Lemma group_fold_get_or items : forall d k,
  Dict.get_or eqb [] k (fold_left (group_step eqb kf vf) items d)
  = Dict.get_or eqb [] k d
    ++ map vf (filter (fun x => eqb k (kf x)) items).
Proof.
  induction items as [|x items IH]; intros d k; cbn [fold_left filter].
  - simpl. now rewrite app_nil_r.
  - rewrite IH. unfold group_step. rewrite get_or_append.
    destruct (eqb k (kf x)) eqn:E; simpl; [|reflexivity].
    apply eqb_spec in E. subst. now rewrite <- app_assoc.
Qed.

Lemma group_fold_keys items : forall d k,
  In k (Dict.keys (fold_left (group_step eqb kf vf) items d))
  <-> In k (Dict.keys d) \/ exists x, In x items /\ kf x = k.
Proof.
  induction items as [|x items IH]; intros d k; cbn [fold_left].
  - split; [tauto|]. intros [H|[x [[] _]]]. exact H.
  - rewrite IH. unfold group_step, Dict.append.
    rewrite (set_keys_in eqb eqb_spec). simpl. split.
    + intros [[->|H]|[y [Hy Hk]]]; eauto.
    + intros [H|[y [[->|Hy] Hk]]]; eauto.
Qed.

Lemma group_fold_NoDup items : forall d,
  NoDup (Dict.keys d) ->
  NoDup (Dict.keys (fold_left (group_step eqb kf vf) items d)).
Proof.
  induction items as [|x items IH]; intros d Hnd; cbn [fold_left];
    [exact Hnd|].
  apply IH. unfold group_step, Dict.append. now apply set_keys_NoDup.
Qed.
End Grouping.
End DictOfListsFacts.

Lemma string_eqb_spec x y : String.eqb x y = true <-> x = y.
Proof. apply String.eqb_eq. Qed.

Lemma nat_eqb_spec x y : Nat.eqb x y = true <-> x = y.
Proof. apply Nat.eqb_eq. Qed.

Lemma genomic_eqb_spec p q : genomic_eqb p q = true <-> p = q.
Proof.
  destruct p as [[c s] e], q as [[c' s'] e'].
  unfold genomic_eqb, g_chrom, g_start, g_end. simpl.
  rewrite !andb_true_iff, String.eqb_eq, !Z.eqb_eq.
  split; [intros [[-> ->] ->]; reflexivity | intros [= -> -> ->]; auto].
Qed.

(** ** Enumeration and grouping by chromosome *)

Lemma in_combine_seq {A} (l : list A) : forall n i x,
  In (i, x) (combine (seq n (List.length l)) l)
  <-> (n <= i)%nat /\ nth_error l (i - n) = Some x.
Proof.
  induction l as [|y l IH]; intros n i x; simpl.
  - split; [tauto|]. intros [_ H]. destruct (i - n)%nat; discriminate.
  - rewrite IH. split.
    + intros [[= <- <-]|[Hle Hn]].
      * rewrite Nat.sub_diag. auto.
      * split; [lia|]. replace (i - n)%nat with (S (i - S n)) by lia. exact Hn.
    + intros [Hle Hn]. destruct (Nat.eq_dec i n) as [->|Hne].
      * rewrite Nat.sub_diag in Hn. simpl in Hn. left. congruence.
      * right. split; [lia|].
        replace (i - n)%nat with (S (i - S n)) in Hn by lia. exact Hn.
Qed.

Lemma in_enumerate {A} (l : list A) i x :
  In (i, x) (enumerate l) <-> nth_error l i = Some x.
Proof.
  unfold enumerate. rewrite in_combine_seq, Nat.sub_0_r.
  split; [tauto|]. intros H. split; [lia|exact H].
Qed.

Lemma enumerate_fst {A} (l : list A) :
  map fst (enumerate l) = seq 0 (List.length l).
Proof.
  unfold enumerate. generalize 0%nat.
  induction l as [|x l IH]; intros n; simpl; [reflexivity|]. now rewrite IH.
Qed.

Lemma NoDup_map_filter {A B} (f : A -> B) (P : A -> bool) l :
  NoDup (map f l) -> NoDup (map f (filter P l)).
Proof.
  induction l as [|x l IH]; simpl; [auto|].
  intros Hnd. inversion Hnd as [|? ? Hnin Hnd']; subst.
  destruct (P x); simpl; [|auto].
  constructor; [|auto]. rewrite in_map_iff in *.
  intros [y [Hy Hin]]. apply Hnin. exists y. split; [exact Hy|].
  now apply filter_In in Hin.
Qed.

Lemma get_or_map_values_sort {V} (key : V -> Z) c (d : Dict.t string (list V)) :
  Dict.get_or String.eqb [] c (Dict.map_values (sort_by_key key) d)
  = sort_by_key key (Dict.get_or String.eqb [] c d).
Proof.
  unfold Dict.get_or. rewrite get_map_values.
  now destruct (Dict.get String.eqb c d).
Qed.

Lemma group_indexed_get peaks c :
  Dict.get_or String.eqb [] c (group_indexed peaks)
  = sort_by_key ix_start
      (map indexed_of
         (filter (fun x => String.eqb c (g_chrom (snd x))) (enumerate peaks))).
Proof.
  unfold group_indexed. rewrite get_or_map_values_sort. f_equal.
  rewrite fold_left_ext
    with (g := group_step String.eqb (fun x => g_chrom (snd x)) indexed_of).
  - now rewrite (group_fold_get_or String.eqb string_eqb_spec).
  - intros d [i [[ch st] en]]. reflexivity.
Qed.

Lemma group_indexed_in peaks c s e i :
  In (s, e, i) (Dict.get_or String.eqb [] c (group_indexed peaks))
  <-> nth_error peaks i = Some (c, s, e).
Proof.
  rewrite group_indexed_get, sort_by_key_in, in_map_iff. split.
  - intros [[i' [[c' s'] e']] [Heq Hin]]. apply filter_In in Hin.
    destruct Hin as [Hin Hc]. apply in_enumerate in Hin.
    unfold indexed_of, g_start, g_end, g_chrom in *. cbn [fst snd] in *.
    apply String.eqb_eq in Hc. injection Heq as <- <- <-. now subst c'.
  - intros Hn. exists (i, (c, s, e)). split; [reflexivity|].
    apply filter_In. split; [now apply in_enumerate|].
    apply String.eqb_refl.
Qed.

Lemma group_indexed_idx_NoDup peaks c :
  NoDup (map ix_idx (Dict.get_or String.eqb [] c (group_indexed peaks))).
Proof.
  rewrite group_indexed_get.
  eapply Permutation_NoDup.
  - apply Permutation_map. symmetry. apply sort_by_key_perm.
  - rewrite map_map. unfold indexed_of, ix_idx. simpl.
    apply NoDup_map_filter. rewrite enumerate_fst. apply seq_NoDup.
Qed.

Lemma group_indexed_sorted peaks c :
  StronglySorted (fun p q => ix_start p <= ix_start q)
    (Dict.get_or String.eqb [] c (group_indexed peaks)).
Proof. rewrite group_indexed_get. apply sort_by_key_sorted. Qed.

Lemma group_indexed_keys_NoDup peaks : NoDup (Dict.keys (group_indexed peaks)).
Proof.
  unfold group_indexed. rewrite keys_map_values.
  rewrite fold_left_ext
    with (g := group_step String.eqb (fun x => g_chrom (snd x)) indexed_of).
  - apply (group_fold_NoDup String.eqb string_eqb_spec). constructor.
  - intros d [i [[ch st] en]]. reflexivity.
Qed.

Lemma group_indexed_keys peaks c :
  In c (Dict.keys (group_indexed peaks))
  <-> exists i s e, nth_error peaks i = Some (c, s, e).
Proof.
  unfold group_indexed. rewrite keys_map_values.
  rewrite fold_left_ext
    with (g := group_step String.eqb (fun x => g_chrom (snd x)) indexed_of).
  - rewrite (group_fold_keys String.eqb string_eqb_spec). simpl. split.
    + intros [[]|[[i [[c' s] e]] [Hin Hc]]]. apply in_enumerate in Hin.
      unfold g_chrom in Hc. simpl in Hc. subst. eauto.
    + intros [i [s [e Hn]]]. right. exists (i, (c, s, e)).
      split; [now apply in_enumerate|reflexivity].
  - intros d [i [[ch st] en]]. reflexivity.
Qed.

(** ** The forward sweep of [annotate_overlaps] *)

Lemma filter_none {A} (P : A -> bool) l :
  Forall (fun x => P x = false) l -> filter P l = [].
Proof.
  induction 1 as [|x l Hx Hl IH]; simpl; [reflexivity|]. now rewrite Hx.
Qed.

(** The scan stops at the first feature that starts at or after the peak's
    end; sortedness puts every overlapping feature before it. *)
Lemma scan_features_filter fs pstart pend :
  features_by_start fs ->
  forall cand,
    scan_features fs pstart pend cand
    = cand ++ filter (overlaps_feature pstart pend) fs.
Proof.
  induction 1 as [|f fs Hs IH Hall]; intros cand;
    cbn [scan_features filter].
  - now rewrite app_nil_r.
  - fold (overlaps_feature pstart pend f).
    destruct (fi_start f <? pend) eqn:E.
    + rewrite IH.
      destruct (overlaps_feature pstart pend f);
        [now rewrite <- app_assoc | reflexivity].
    + assert (Hf : overlaps_feature pstart pend f = false).
      { unfold overlaps_feature, intervals_overlap4. rewrite E.
        apply andb_false_r. }
      rewrite Hf, filter_none; [now rewrite app_nil_r|].
      apply Z.ltb_ge in E. eapply Forall_impl; [|exact Hall].
      intros g Hg. cbv beta in Hg. unfold overlaps_feature, intervals_overlap4.
      apply andb_false_iff. right. apply Z.ltb_ge. lia.
Qed.

Lemma advance_features_sorted fs pstart :
  features_by_start fs -> features_by_start (advance_features fs pstart).
Proof.
  induction 1 as [|f fs Hs IH Hall]; simpl; [constructor|].
  destruct (fi_end f <=? pstart); [exact IH|]. now constructor.
Qed.

(** A feature the pointer has passed ends at or before [pstart]: it overlaps
    no peak that starts at [pstart] or later. *)
Lemma advance_features_filter fs pstart ps pe :
  pstart <= ps ->
  filter (overlaps_feature ps pe) (advance_features fs pstart)
  = filter (overlaps_feature ps pe) fs.
Proof.
  intros Hle. induction fs as [|f fs IH]; simpl; [reflexivity|].
  destruct (fi_end f <=? pstart) eqn:E; [|reflexivity].
  rewrite IH. apply Z.leb_le in E.
  replace (overlaps_feature ps pe f) with false; [reflexivity|].
  symmetry. unfold overlaps_feature, intervals_overlap4.
  apply andb_false_iff. left. apply Z.ltb_ge. lia.
Qed.

Lemma overlaps_of_peak_eq fs hits ps pe pidx :
  overlaps_of_peak (fs, hits) (ps, pe, pidx)
  = (advance_features fs ps,
     let cand := scan_features (advance_features fs ps) ps pe [] in
     match cand with
     | [] => hits
     | _ :: _ =>
         Dict.set Nat.eqb pidx (Dict.get_or Nat.eqb [] pidx hits ++ cand) hits
     end).
Proof. reflexivity. Qed.

Lemma fold_overlaps_of_peak f_list p_list : forall fs hits lo,
  StronglySorted (fun p q => ix_start p <= ix_start q) p_list ->
  Forall (fun p => lo <= ix_start p) p_list ->
  features_by_start fs ->
  (forall ps pe, lo <= ps ->
     filter (overlaps_feature ps pe) fs
     = filter (overlaps_feature ps pe) f_list) ->
  snd (fold_left overlaps_of_peak p_list (fs, hits))
  = fold_left (record_hits f_list) p_list hits.
Proof.
  induction p_list as [|[[ps pe] pidx] p_list IH];
    intros fs hits lo Hsorted Hlo Hfs Hinv; [reflexivity|].
  apply StronglySorted_inv in Hsorted. destruct Hsorted as [Hsorted Hall].
  inversion Hlo as [|? ? Hps Hlo']; subst.
  unfold ix_start in Hps. simpl in Hps.
  cbn [fold_left]. rewrite overlaps_of_peak_eq.
  rewrite scan_features_filter by now apply advance_features_sorted.
  rewrite app_nil_l, advance_features_filter by lia.
  rewrite Hinv by exact Hps.
  rewrite (IH _ _ ps); auto.
  - apply advance_features_sorted; assumption.
  - intros ps' pe' Hle. rewrite advance_features_filter by exact Hle.
    apply Hinv. lia.
Qed.

Lemma record_hits_get f_list p hits idx :
  Dict.get Nat.eqb idx (record_hits f_list hits p)
  = if Nat.eqb idx (ix_idx p)
    then let cand :=
           filter (overlaps_feature (ix_start p) (ix_end p)) f_list in
         match cand with
         | [] => Dict.get Nat.eqb idx hits
         | _ :: _ => Some (Dict.get_or Nat.eqb [] idx hits ++ cand)
         end
    else Dict.get Nat.eqb idx hits.
Proof.
  unfold record_hits. cbv zeta.
  destruct (filter (overlaps_feature (ix_start p) (ix_end p)) f_list)
    as [|f cand].
  - now destruct (Nat.eqb idx (ix_idx p)).
  - destruct (Nat.eqb idx (ix_idx p)) eqn:E.
    + apply Nat.eqb_eq in E. subst.
      now rewrite (get_set_eq Nat.eqb nat_eqb_spec).
    + apply Nat.eqb_neq in E.
      rewrite (get_set_neq Nat.eqb nat_eqb_spec); auto.
Qed.

Lemma record_fold_untouched f_list p_list idx : forall hits,
  ~ In idx (map ix_idx p_list) ->
  Dict.get Nat.eqb idx (fold_left (record_hits f_list) p_list hits)
  = Dict.get Nat.eqb idx hits.
Proof.
  induction p_list as [|p p_list IH]; intros hits Hn; [reflexivity|].
  cbn [fold_left]. rewrite IH by (simpl in Hn; tauto).
  rewrite record_hits_get.
  destruct (Nat.eqb idx (ix_idx p)) eqn:E; [|reflexivity].
  apply Nat.eqb_eq in E. simpl in Hn. exfalso. apply Hn. now left.
Qed.

Lemma record_fold_touched f_list p_list s e idx : forall hits,
  NoDup (map ix_idx p_list) ->
  In (s, e, idx) p_list ->
  Dict.get Nat.eqb idx hits = None ->
  Dict.get Nat.eqb idx (fold_left (record_hits f_list) p_list hits)
  = hits_entry (filter (overlaps_feature s e) f_list).
Proof.
  induction p_list as [|p p_list IH]; intros hits Hnd Hin Hnone; [destruct Hin|].
  inversion Hnd as [|? ? Hnin Hnd']; subst. cbn [fold_left].
  destruct Hin as [->|Hin].
  - rewrite record_fold_untouched by exact Hnin.
    rewrite record_hits_get. unfold ix_idx, ix_start, ix_end. cbn [fst snd].
    rewrite Nat.eqb_refl. unfold Dict.get_or. rewrite Hnone.
    now destruct (filter (overlaps_feature s e) f_list).
  - apply IH; auto. rewrite record_hits_get.
    destruct (Nat.eqb idx (ix_idx p)) eqn:E; [|exact Hnone].
    apply Nat.eqb_eq in E. exfalso. apply Hnin. rewrite <- E.
    change idx with (ix_idx (s, e, idx)). now apply in_map.
Qed.

(** The per-chromosome step of [annotate_overlaps], without the pointer. *)
Lemma annotate_chrom_record peaks feature_grouped chrom hits :
  features_by_start (Dict.get_or String.eqb [] chrom feature_grouped) ->
  snd (fold_left overlaps_of_peak
         (Dict.get_or String.eqb [] chrom (group_by_chrom_peaks peaks))
         (Dict.get_or String.eqb [] chrom feature_grouped, hits))
  = fold_left (record_hits (Dict.get_or String.eqb [] chrom feature_grouped))
      (Dict.get_or String.eqb [] chrom (group_by_chrom_peaks peaks)) hits.
Proof.
  intros Hfs. unfold group_by_chrom_peaks.
  pose proof (group_indexed_sorted peaks chrom) as Hs.
  destruct (Dict.get_or String.eqb [] chrom (group_indexed peaks))
    as [|p0 p_list] eqn:E; [reflexivity|].
  apply fold_overlaps_of_peak with (lo := ix_start p0); auto.
  apply StronglySorted_inv in Hs. destruct Hs as [_ Hall].
  constructor; [lia|exact Hall].
Qed.

Lemma annotate_chrom_untouched peaks feature_grouped idx chrom s e :
  (forall c, features_by_start (Dict.get_or String.eqb [] c feature_grouped)) ->
  nth_error peaks idx = Some (chrom, s, e) ->
  forall cs hits,
    ~ In chrom cs ->
    Dict.get Nat.eqb idx
      (fold_left (annotate_chrom peaks feature_grouped) cs hits)
    = Dict.get Nat.eqb idx hits.
Proof.
  intros Hsorted Hpeak.
  induction cs as [|c cs IH]; intros hits Hn; [reflexivity|].
  cbn [fold_left]. rewrite IH by (simpl in Hn; tauto).
  unfold annotate_chrom. rewrite annotate_chrom_record by apply Hsorted.
  apply record_fold_untouched.
  rewrite in_map_iff. intros [[[s' e'] i'] [Hi Hin]].
  unfold ix_idx in Hi. simpl in Hi. subst i'.
  apply group_indexed_in in Hin.
  pose proof (eq_trans (eq_sym Hin) Hpeak) as Heq.
  injection Heq as -> _ _. apply Hn. now left.
Qed.

Lemma annotate_chrom_touched peaks feature_grouped idx chrom s e :
  (forall c, features_by_start (Dict.get_or String.eqb [] c feature_grouped)) ->
  nth_error peaks idx = Some (chrom, s, e) ->
  forall cs hits,
    NoDup cs -> In chrom cs ->
    Dict.get Nat.eqb idx hits = None ->
    Dict.get Nat.eqb idx
      (fold_left (annotate_chrom peaks feature_grouped) cs hits)
    = hits_entry
        (filter (overlaps_feature s e)
           (Dict.get_or String.eqb [] chrom feature_grouped)).
Proof.
  intros Hsorted Hpeak.
  induction cs as [|c cs IH]; intros hits Hnd Hin Hnone; [destruct Hin|].
  inversion Hnd as [|? ? Hnin Hnd']; subst. cbn [fold_left].
  destruct (string_dec c chrom) as [->|Hne].
  - rewrite (annotate_chrom_untouched _ _ _ _ _ _ Hsorted Hpeak) by exact Hnin.
    unfold annotate_chrom. rewrite annotate_chrom_record by apply Hsorted.
    apply record_fold_touched; auto.
    + apply group_indexed_idx_NoDup.
    + now apply group_indexed_in.
  - apply IH; auto.
    + destruct Hin as [->|Hin]; [now elim Hne|exact Hin].
    + rewrite <- Hnone.
      apply (annotate_chrom_untouched _ _ _ _ _ _ Hsorted Hpeak [c] hits).
      simpl. intros [->|[]]. now apply Hne.
Qed.

Lemma common_keys_NoDup {V W} (a : Dict.t string V) (b : Dict.t string W) :
  NoDup (Dict.keys a) -> NoDup (common_keys a b).
Proof. intros H. unfold common_keys. now apply NoDup_filter. Qed.

Lemma common_keys_in {V W} (a : Dict.t string V) (b : Dict.t string W) c :
  In c (common_keys a b)
  <-> In c (Dict.keys a) /\ Dict.mem String.eqb c b = true.
Proof. unfold common_keys. apply filter_In. Qed.

(** What the loop over chromosomes stores for a peak, whatever the order in
    which the common chromosomes are visited. *)
Lemma annotate_overlaps_any_order (peaks : list GenomicInterval)
    (feature_grouped : Dict.t string (list FeatureInterval))
    (idx : nat) (chrom : string) (s e : Z) (cs : list string) :
  (forall c, features_by_start (Dict.get_or String.eqb [] c feature_grouped)) ->
  nth_error peaks idx = Some (chrom, s, e) ->
  Permutation cs (common_keys (group_by_chrom_peaks peaks) feature_grouped) ->
  Dict.get Nat.eqb idx
    (fold_left (annotate_chrom peaks feature_grouped) cs [])
  = hits_entry
      (filter (overlaps_feature s e)
         (Dict.get_or String.eqb [] chrom feature_grouped)).
Proof.
  intros Hs Hpeak Hperm.
  assert (Hnd : NoDup cs).
  { eapply Permutation_NoDup; [symmetry; exact Hperm|].
    apply common_keys_NoDup, group_indexed_keys_NoDup. }
  assert (Hin : In chrom cs
                <-> Dict.mem String.eqb chrom feature_grouped = true).
  { split.
    - intros H. apply (Permutation_in _ Hperm), common_keys_in in H. tauto.
    - intros H. apply (Permutation_in _ (Permutation_sym Hperm)).
      apply common_keys_in. split; [|exact H].
      apply group_indexed_keys. eauto. }
  destruct (Dict.mem String.eqb chrom feature_grouped) eqn:Em.
  - apply annotate_chrom_touched; auto. now apply Hin.
  - rewrite (annotate_chrom_untouched _ _ _ _ _ _ Hs Hpeak).
    + unfold Dict.mem in Em. unfold Dict.get_or.
      destruct (Dict.get String.eqb chrom feature_grouped); [discriminate|].
      reflexivity.
    + intros H. apply Hin in H. discriminate.
Qed.

(** What [annotate_overlaps] stores for a peak. *)
Lemma annotate_overlaps_get (peaks : list GenomicInterval)
    (feature_grouped : Dict.t string (list FeatureInterval))
    (idx : nat) (chrom : string) (s e : Z) :
  (forall c, features_by_start (Dict.get_or String.eqb [] c feature_grouped)) ->
  nth_error peaks idx = Some (chrom, s, e) ->
  Dict.get Nat.eqb idx (annotate_overlaps peaks feature_grouped)
  = hits_entry
      (filter (overlaps_feature s e)
         (Dict.get_or String.eqb [] chrom feature_grouped)).
Proof.
  intros Hs Hpeak.
  change (annotate_overlaps peaks feature_grouped)
    with (fold_left (annotate_chrom peaks feature_grouped)
            (common_keys (group_by_chrom_peaks peaks) feature_grouped) []).
  now apply annotate_overlaps_any_order.
Qed.

(** C10.  For every list of peaks and every chromosome-grouped feature
    dictionary whose lists are sorted by start, [annotate_overlaps] gives each
    peak index exactly the features of the peak's chromosome that strictly
    overlap the peak (in feature order), and no entry when there is none: the
    shared pointer never skips an overlapping feature and the forward scan
    collects no other one. *)
Theorem annotate_overlaps_exact (peaks : list GenomicInterval)
    (feature_grouped : Dict.t string (list FeatureInterval))
    (idx : nat) (chrom : string) (s e : Z) :
  (forall c fl, Dict.get String.eqb c feature_grouped = Some fl ->
                features_by_start fl) ->
  nth_error peaks idx = Some (chrom, s, e) ->
  Dict.get Nat.eqb idx (annotate_overlaps peaks feature_grouped)
  = hits_entry
      (filter (overlaps_feature s e)
         (Dict.get_or String.eqb [] chrom feature_grouped)).
Proof.
  intros Hsorted Hpeak. apply annotate_overlaps_get; [|exact Hpeak].
  intros c. unfold Dict.get_or.
  destruct (Dict.get String.eqb c feature_grouped) as [fl|] eqn:E.
  - exact (Hsorted c fl E).
  - constructor.
Qed.

Lemma annotate_overlaps_exact_witness :
  Dict.get Nat.eqb 1%nat
    (annotate_overlaps
       [("chr1", 300, 330); ("chr1", 100, 180)]%string
       [("chr1", [mkFeature "chr1" 0 120 "A" 50;
                  mkFeature "chr1" 90 400 "B" 95;
                  mkFeature "chr1" 180 200 "C" 190])]%string)
  = Some [mkFeature "chr1" 0 120 "A" 50; mkFeature "chr1" 90 400 "B" 95]%string.
Proof.
  apply (annotate_overlaps_exact
           [("chr1", 300, 330); ("chr1", 100, 180)]%string
           [("chr1", [mkFeature "chr1" 0 120 "A" 50;
                      mkFeature "chr1" 90 400 "B" 95;
                      mkFeature "chr1" 180 200 "C" 190])]%string
           1%nat "chr1"%string 100 180).
  - intros c fl H. simpl in H.
    destruct (String.eqb c "chr1"); [|discriminate].
    injection H as <-. unfold features_by_start.
    repeat constructor; simpl; lia.
  - reflexivity.
Defined.

(** ** Candidates of a peak in [annotate_peaks] *)

Lemma group_by_chrom_intervals_get feats c :
  Dict.get_or String.eqb [] c (group_by_chrom_intervals feats)
  = sort_by_key fi_start (filter (fun f => String.eqb c (fi_chrom f)) feats).
Proof.
  unfold group_by_chrom_intervals. rewrite get_or_map_values_sort. f_equal.
  change (fun grouped it => Dict.append String.eqb (fi_chrom it) it grouped)
    with (group_step String.eqb fi_chrom (fun f : FeatureInterval => f)).
  rewrite (group_fold_get_or String.eqb string_eqb_spec). simpl.
  now rewrite map_id.
Qed.

Lemma group_by_chrom_intervals_sorted feats c :
  features_by_start
    (Dict.get_or String.eqb [] c (group_by_chrom_intervals feats)).
Proof. rewrite group_by_chrom_intervals_get. apply sort_by_key_sorted. Qed.

Lemma hits_of_features peaks feats idx chrom s e :
  nth_error peaks idx = Some (chrom, s, e) ->
  Dict.get Nat.eqb idx
    (annotate_overlaps peaks (group_by_chrom_intervals feats))
  = hits_entry (candidates_on chrom s e feats).
Proof.
  intros Hpeak.
  rewrite (annotate_overlaps_get _ _ _ _ _ _
             (group_by_chrom_intervals_sorted feats) Hpeak).
  now rewrite group_by_chrom_intervals_get.
Qed.

Lemma nth_error_combine_seq {A} (l : list A) : forall n i,
  nth_error (combine (seq n (List.length l)) l) i
  = option_map (pair (n + i)%nat) (nth_error l i).
Proof.
  induction l as [|x l IH]; intros n i; simpl.
  - now destruct i.
  - destruct i as [|i]; simpl.
    + now rewrite Nat.add_0_r.
    + rewrite IH. now rewrite Nat.add_succ_r.
Qed.

Lemma nth_error_enumerate {A} (l : list A) i :
  nth_error (enumerate l) i = option_map (pair i) (nth_error l i).
Proof. unfold enumerate. now rewrite nth_error_combine_seq. Qed.

Lemma annotate_peaks_row peaks genes up down idx chrom s e :
  nth_error peaks idx = Some (chrom, s, e) ->
  nth_error (annotate_peaks peaks genes up down) idx
  = Some (row_of genes up down idx chrom s e).
Proof.
  intros Hpeak. unfold annotate_peaks.
  rewrite nth_error_map, nth_error_enumerate, Hpeak. simpl. f_equal.
  rewrite !(hits_of_features _ _ _ _ _ _ Hpeak).
  reflexivity.
Qed.

Lemma candidates_on_in chrom s e feats f :
  In f (candidates_on chrom s e feats)
  <-> In f feats /\ fi_chrom f = chrom /\ overlaps_feature s e f = true.
Proof.
  unfold candidates_on.
  rewrite filter_In, sort_by_key_in, filter_In, String.eqb_eq.
  intuition.
Qed.




(** ** Selection of the closest candidate *)

Lemma assign_best_fold center cands :
  assign_best_gene_by_tss_distance center cands
  = (fst (fst (fold_left (best_step center) cands (EmptyString, NO_DIST, 0))),
     snd (fold_left (best_step center) cands (EmptyString, NO_DIST, 0))).
Proof.
  unfold assign_best_gene_by_tss_distance.
  rewrite fold_left_ext with (g := best_step center)
    by (intros [[g d] sg] c; reflexivity).
  destruct (fold_left (best_step center) cands (EmptyString, NO_DIST, 0))
    as [[g d] sg]. reflexivity.
Qed.

Lemma nth_error_snoc_lt {A} (l : list A) x m y :
  (m < List.length l)%nat ->
  nth_error (l ++ [x]) m = Some y -> nth_error l m = Some y.
Proof. intros Hm. now rewrite nth_error_app1. Qed.

Lemma best_step_invariant center seen st c :
  best_so_far center seen st ->
  best_so_far center (seen ++ [c]) (best_step center st c).
Proof.
  destruct st as [[g d] sg]. unfold best_step, best_so_far.
  assert (Hnew : forall bound,
             (forall c', In c' seen -> bound <= tss_dist center c') ->
             tss_dist center c < bound -> bound <= NO_DIST ->
             exists m b,
               nth_error (seen ++ [c]) m = Some b
               /\ fi_gene_name c = fi_gene_name b
               /\ tss_dist center c = tss_dist center b
               /\ center - fi_tss c = center - fi_tss b
               /\ tss_dist center c < NO_DIST
               /\ (forall c', In c' (seen ++ [c]) ->
                              tss_dist center c <= tss_dist center c')
               /\ (forall m' c', (m' < m)%nat ->
                     nth_error (seen ++ [c]) m' = Some c' ->
                     tss_dist center c < tss_dist center c')).
  { intros bound Hb Hlt Hle. exists (List.length seen), c. repeat split.
    - rewrite nth_error_app2, Nat.sub_diag; auto.
    - lia.
    - intros c' Hin. apply in_app_iff in Hin.
      destruct Hin as [Hin|[<-|[]]]; [|lia]. specialize (Hb _ Hin). lia.
    - intros m' c' Hm' Hn. apply nth_error_snoc_lt in Hn; [|exact Hm'].
      apply nth_error_In in Hn. specialize (Hb _ Hn). lia. }
  fold (tss_dist center c).
  intros [[Hst Hfar]|[m [b [Hnth [Hg [Hd [Hsg [Hlt [Hmin Hfirst]]]]]]]]].
  - (* nothing selected so far *)
    injection Hst as -> -> ->.
    destruct (tss_dist center c <? NO_DIST) eqn:E.
    + apply Z.ltb_lt in E. right. apply (Hnew NO_DIST); auto. lia.
    + apply Z.ltb_ge in E. left. split; [reflexivity|].
      intros c' Hin. apply in_app_iff in Hin.
      destruct Hin as [Hin|[<-|[]]]; [auto|exact E].
  - destruct (tss_dist center c <? d) eqn:E.
    + (* strictly closer than everything seen: [c] is selected *)
      apply Z.ltb_lt in E. right. apply (Hnew d); auto. lia.
    + (* not strictly closer: the earlier selection stays *)
      apply Z.ltb_ge in E. right. exists m, b.
      assert (Hm : (m < List.length seen)%nat).
      { apply nth_error_Some. congruence. }
      repeat split; auto.
      * now rewrite nth_error_app1.
      * intros c' Hin. apply in_app_iff in Hin.
        destruct Hin as [Hin|[<-|[]]]; [auto|exact E].
      * intros m' c' Hm' Hn. apply nth_error_snoc_lt in Hn; [|lia].
        eapply Hfirst; eauto.
Qed.

Lemma best_fold_invariant center cands : forall seen st,
  best_so_far center seen st ->
  best_so_far center (seen ++ cands) (fold_left (best_step center) cands st).
Proof.
  induction cands as [|c cands IH]; intros seen st Hinv; cbn [fold_left].
  - now rewrite app_nil_r.
  - replace (seen ++ c :: cands) with ((seen ++ [c]) ++ cands)
      by now rewrite <- app_assoc.
    apply IH. now apply best_step_invariant.
Qed.

(** What [assign_best_gene_by_tss_distance] returns: the first closest
    candidate when one is nearer than [NO_DIST], and [("", 0)] when none
    is. *)
Lemma assign_best_spec center cands :
  ((exists c, In c cands /\ tss_dist center c < NO_DIST) ->
   picks_first_closest center cands
     (fst (assign_best_gene_by_tss_distance center cands))
     (snd (assign_best_gene_by_tss_distance center cands)))
  /\ ((forall c, In c cands -> NO_DIST <= tss_dist center c) ->
      assign_best_gene_by_tss_distance center cands = (EmptyString, 0)).
Proof.
  rewrite assign_best_fold.
  assert (H0 : best_so_far center [] (EmptyString, NO_DIST, 0)).
  { left. split; [reflexivity|]. intros c []. }
  pose proof (best_fold_invariant center cands [] _ H0) as Hinv.
  rewrite app_nil_l in Hinv.
  destruct (fold_left (best_step center) cands (EmptyString, NO_DIST, 0))
    as [[g d] sg].
  unfold best_so_far in Hinv. cbn [fst snd].
  destruct Hinv as [[Hst Hfar]|[m [b [Hnth [Hg [Hd [Hsg [Hlt [Hmin Hfirst]]]]]]]]].
  - injection Hst as -> -> ->. split; [|reflexivity].
    intros [c [Hin Hc]]. specialize (Hfar _ Hin). lia.
  - split.
    + intros _. exists m, b. subst d. repeat split; auto.
    + intros Hfar. apply nth_error_In in Hnth. specialize (Hfar _ Hnth). lia.
Qed.

Lemma hits_entry_inv (l l' : list FeatureInterval) :
  hits_entry l = Some l' -> l' = l /\ l <> [].
Proof.
  destruct l; simpl; [discriminate|]. intros [= <-]. split; [auto|discriminate].
Qed.

(** How the three outcomes of a row arise. *)
Lemma row_of_cases genes up down idx chrom s e :
  let row := row_of genes up down idx chrom s e in
  let center := (s + e) / 2 in
  let prom := candidates_on chrom s e (build_promoters genes up down) in
  let body := candidates_on chrom s e (map gene_body_feature genes) in
  (ar_annotation row = promoter ->
   prom <> []
   /\ (ar_gene row, ar_distance_to_TSS row)
      = assign_best_gene_by_tss_distance center prom)
  /\ (ar_annotation row = gene_body ->
      body <> []
      /\ (ar_gene row, ar_distance_to_TSS row)
         = assign_best_gene_by_tss_distance center body)
  /\ (ar_annotation row = intergenic ->
      prom = [] /\ body = []
      /\ (ar_gene row, ar_distance_to_TSS row)
         = match Dict.get String.eqb chrom (build_tss_index genes) with
           | Some (tss_list, name_list) => nearest_tss tss_list name_list center
           | None => (EmptyString, 0)
           end).
Proof.
  intros row center prom body. subst row. unfold row_of, classify.
  fold center prom body.
  destruct prom as [|p prom'].
  - destruct body as [|b body']; cbn [hits_entry].
    + destruct (Dict.get String.eqb chrom (build_tss_index genes))
        as [[tl nl]|].
      * destruct (nearest_tss tl nl center) as [g d]. cbn.
        repeat split; try discriminate; auto.
      * cbn. repeat split; try discriminate; auto.
    + destruct (assign_best_gene_by_tss_distance center (b :: body'))
        as [g d]. cbn.
      repeat split; try discriminate; auto.
  - cbn [hits_entry].
    destruct (assign_best_gene_by_tss_distance center (p :: prom')) as [g d].
    cbn. repeat split; try discriminate; auto.
Qed.

Lemma assign_best_selected center cands gene dist :
  (gene, dist) = assign_best_gene_by_tss_distance center cands ->
  ((exists c, In c cands /\ tss_dist center c < NO_DIST) ->
   picks_first_closest center cands gene dist)
  /\ ((forall c, In c cands -> NO_DIST <= tss_dist center c) ->
      gene = EmptyString /\ dist = 0).
Proof.
  intros Heq. destruct (assign_best_spec center cands) as [H1 H2].
  rewrite <- Heq in H1, H2. cbn [fst snd] in H1. split; [exact H1|].
  intros Hfar. specialize (H2 Hfar). now injection H2.
Qed.

(** X25.  When a peak is annotated [promoter] or [gene_body], the
    candidates are the overlapping features of that kind in the order of the
    chromosome's start-sorted feature list.  If at least one candidate's TSS
    is less than [10^18] away from the peak center [(start + end) // 2], the
    assigned gene is that of the candidate with the smallest absolute
    distance, the first such candidate on ties, and the reported distance is
    [center - tss] of that candidate.  If no candidate is that near, the
    selection loop never leaves its initial state: the gene is the empty
    string and the distance 0. *)
Theorem annotate_peaks_closest_candidate (peaks : list GenomicInterval)
    (genes : list GeneRecord) (upstream downstream : Z)
    (idx : nat) (chrom : string) (s e : Z) (row : AnnotationRecord) :
  nth_error peaks idx = Some (chrom, s, e) ->
  nth_error (annotate_peaks peaks genes upstream downstream) idx = Some row ->
  let center := (s + e) / 2 in
  let selected cands :=
    ((exists c, In c cands /\ tss_dist center c < NO_DIST) ->
     picks_first_closest center cands (ar_gene row) (ar_distance_to_TSS row))
    /\ ((forall c, In c cands -> NO_DIST <= tss_dist center c) ->
        ar_gene row = EmptyString /\ ar_distance_to_TSS row = 0) in
  (ar_annotation row = promoter ->
   selected
     (candidates_on chrom s e (build_promoters genes upstream downstream)))
  /\ (ar_annotation row = gene_body ->
      selected (candidates_on chrom s e (map gene_body_feature genes))).
Proof.
  intros Hpeak Hrow center selected.
  rewrite (annotate_peaks_row _ _ _ _ _ _ _ _ Hpeak) in Hrow.
  injection Hrow as <-.
  destruct (row_of_cases genes upstream downstream idx chrom s e)
    as [Hprom [Hbody _]].
  split; intros Hann; subst selected; cbv beta.
  - destruct (Hprom Hann) as [_ Heq]. now apply assign_best_selected.
  - destruct (Hbody Hann) as [_ Heq]. now apply assign_best_selected.
Qed.


Lemma annotate_peaks_closest_candidate_witness :
  picks_first_closest ((100 + 180) / 2)
    (candidates_on "chr1" 100 180
       (build_promoters
          [mkGene "chr1" 150 1000 "+" "g1" "G1" 150;
           mkGene "chr1" 130 900 "+" "g2" "G2" 130]%string 2000 200))
    "G1"%string (-10).
Proof.
  refine (proj1
    (proj1
       (annotate_peaks_closest_candidate [("chr1", 100, 180)]%string
          [mkGene "chr1" 150 1000 "+" "g1" "G1" 150;
           mkGene "chr1" 130 900 "+" "g2" "G2" 130]%string 2000 200
          0%nat "chr1"%string 100 180
          (mkRow 0 "chr1" 100 180 promoter "G1" (-10))
          eq_refl eq_refl)
       eq_refl) _).
  exists (mkFeature "chr1" 0 350 "G1" 150)%string.
  split; [vm_compute; auto | vm_compute; reflexivity].
Defined.

(** C8.  [assign_best_gene_by_tss_distance] starts its search from
    [best_dist = 10**18] and selects only on [dist < best_dist], so a
    candidate whose TSS is [10^18] or more away is never chosen.  Two gene
    bodies overlap the peak [(chr1, 0, 2)], center 1; the TSS of both is
    that far away; the function returns [("", 0)] although [G1] is the
    closest candidate, and the [gene_body] row of [annotate_peaks] carries the
    empty gene name and distance 0 instead of [G1] and [2 - 10^19]. *)
Theorem assign_best_gene_drops_far_candidates :
  candidates_on "chr1" 0 2
    (map gene_body_feature
       [mkGene "chr1" 0 (10 ^ 19) "-" "g1" "G1" (10 ^ 19 - 1);
        mkGene "chr1" 0 (2 * 10 ^ 19) "-" "g2" "G2" (2 * 10 ^ 19 - 1)])%string
  = [mkFeature "chr1" 0 (10 ^ 19) "G1" (10 ^ 19 - 1);
     mkFeature "chr1" 0 (2 * 10 ^ 19) "G2" (2 * 10 ^ 19 - 1)]%string
  /\ assign_best_gene_by_tss_distance 1
       [mkFeature "chr1" 0 (10 ^ 19) "G1" (10 ^ 19 - 1);
        mkFeature "chr1" 0 (2 * 10 ^ 19) "G2" (2 * 10 ^ 19 - 1)]%string
     = (EmptyString, 0)
  /\ annotate_peaks [("chr1", 0, 2)]%string
       [mkGene "chr1" 0 (10 ^ 19) "-" "g1" "G1" (10 ^ 19 - 1);
        mkGene "chr1" 0 (2 * 10 ^ 19) "-" "g2" "G2" (2 * 10 ^ 19 - 1)]%string
       2000 200
     = [mkRow 0 "chr1" 0 2 gene_body EmptyString 0]%string
  /\ ~ closest_candidate_claim [("chr1", 0, 2)]%string
        [mkGene "chr1" 0 (10 ^ 19) "-" "g1" "G1" (10 ^ 19 - 1);
         mkGene "chr1" 0 (2 * 10 ^ 19) "-" "g2" "G2" (2 * 10 ^ 19 - 1)]%string
        2000 200.
Proof.
  split; [vm_compute; reflexivity|].
  split; [vm_compute; reflexivity|].
  split; [vm_compute; reflexivity|].
  intros H.
  specialize (H 0%nat "chr1"%string 0 2
                (mkRow 0 "chr1" 0 2 gene_body "" 0) eq_refl eq_refl).
  destruct H as [_ H]. specialize (H eq_refl).
  destruct H as [m [c [Hnth [Hgene _]]]].
  vm_compute in Hnth. cbn [ar_gene] in Hgene.
  destruct m as [|[|m]].
  - injection Hnth as <-. discriminate Hgene.
  - injection Hnth as <-. discriminate Hgene.
  - destruct m; discriminate Hnth.
Qed.

(** ** Binary search *)

Lemma sorted_nth_le (a : list Z) :
  StronglySorted Z.le a ->
  forall i j, (i <= j < List.length a)%nat -> nth i a 0 <= nth j a 0.
Proof.
  intros Hs i j [Hij Hj].
  destruct (Nat.eq_dec i j) as [->|Hne]; [lia|].
  apply (StronglySorted_nth Z.le a Hs i j); [lia| |];
    apply nth_error_nth'; lia.
Qed.

Lemma bisect_loop_spec (a : list Z) (x : Z) :
  StronglySorted Z.le a ->
  forall fuel lo hi,
    (lo <= hi <= List.length a)%nat ->
    (hi - lo <= fuel)%nat ->
    (forall i, (i < lo)%nat -> nth i a 0 < x) ->
    (forall i, (hi <= i < List.length a)%nat -> x <= nth i a 0) ->
    let k := bisect_loop fuel a x lo hi in
    (lo <= k <= hi)%nat
    /\ (forall i, (i < k)%nat -> nth i a 0 < x)
    /\ (forall i, (k <= i < List.length a)%nat -> x <= nth i a 0).
Proof.
  intros Hs. induction fuel as [|fuel IH]; intros lo hi Hb Hf Hlo Hhi;
    cbv zeta; cbn [bisect_loop].
  - assert (lo = hi) by lia. subst hi. repeat split; auto; lia.
  - destruct (lo <? hi)%nat eqn:E.
    + apply Nat.ltb_lt in E.
      assert (Hmid : (lo <= (lo + hi) / 2 < hi)%nat).
      { split.
        - apply Nat.div_le_lower_bound; lia.
        - apply Nat.Div0.div_lt_upper_bound; lia. }
      set (mid := ((lo + hi) / 2)%nat) in *. clearbody mid.
      destruct (nth mid a 0 <? x) eqn:Em.
      * apply Z.ltb_lt in Em.
        assert (Hlo' : forall i, (i < S mid)%nat -> nth i a 0 < x).
        { intros i Hi. assert (Hle : nth i a 0 <= nth mid a 0)
            by (apply sorted_nth_le; [exact Hs|lia]). lia. }
        destruct (IH (S mid) hi ltac:(lia) ltac:(lia) Hlo' Hhi)
          as [H1 [H2 H3]].
        repeat split; auto; lia.
      * apply Z.ltb_ge in Em.
        assert (Hhi' : forall i, (mid <= i < List.length a)%nat ->
                                 x <= nth i a 0).
        { intros i Hi. assert (Hle : nth mid a 0 <= nth i a 0)
            by (apply sorted_nth_le; [exact Hs|lia]). lia. }
        destruct (IH lo mid ltac:(lia) ltac:(lia) Hlo Hhi')
          as [H1 [H2 H3]].
        repeat split; auto; lia.
    + apply Nat.ltb_ge in E. assert (lo = hi) by lia. subst hi.
      repeat split; auto; lia.
Qed.

(** [bisect_left] returns the insertion point: everything before it is
    smaller than [x], everything from it on is [x] or more. *)
Lemma bisect_left_spec (a : list Z) (x : Z) :
  StronglySorted Z.le a ->
  (bisect_left a x <= List.length a)%nat
  /\ (forall i, (i < bisect_left a x)%nat -> nth i a 0 < x)
  /\ (forall i, (bisect_left a x <= i < List.length a)%nat -> x <= nth i a 0).
Proof.
  intros Hs. unfold bisect_left.
  destruct (bisect_loop_spec a x Hs (List.length a) 0 (List.length a))
    as [H1 [H2 H3]]; try lia.
  repeat split; auto; lia.
Qed.

(** ** Nearest TSS *)

Lemma StronglySorted_map {A B} (f : A -> B) (R : B -> B -> Prop) l :
  StronglySorted (fun x y => R (f x) (f y)) l -> StronglySorted R (map f l).
Proof.
  induction 1 as [|x l Hs IH Hall]; simpl; constructor; [exact IH|].
  rewrite Forall_forall in *. intros y Hy. apply in_map_iff in Hy.
  destruct Hy as [z [<- Hz]]. now apply Hall.
Qed.

Lemma nearest_tss_fold tss_list name_list pos :
  tss_list <> [] ->
  nearest_tss tss_list name_list pos
  = let k := Z.of_nat (bisect_left tss_list pos) in
    let st := nearest_step tss_list pos
                (nearest_step tss_list pos (None, NO_DIST, 0) (k - 1)) k in
    match fst (fst st) with
    | None => (EmptyString, 0)
    | Some i => (nth (Z.to_nat i) name_list EmptyString, snd st)
    end.
Proof.
  intros Hne. unfold nearest_tss.
  destruct tss_list as [|t0 tss_list']; [congruence|].
  cbv zeta.
  rewrite fold_left_ext with (g := nearest_step (t0 :: tss_list') pos)
    by (intros [[bi bd] bs] c; reflexivity).
  cbn [fold_left].
  destruct (nearest_step _ pos (nearest_step _ pos _ _) _) as [[bi bd] bs].
  reflexivity.
Qed.

Lemma nearest_step_valid tss_list pos bi bd bs (i : nat) :
  (i < List.length tss_list)%nat ->
  nearest_step tss_list pos (bi, bd, bs) (Z.of_nat i)
  = if Z.abs (pos - nth i tss_list 0) <? bd
    then (Some (Z.of_nat i), Z.abs (pos - nth i tss_list 0),
          pos - nth i tss_list 0)
    else (bi, bd, bs).
Proof.
  intros Hi. unfold nearest_step.
  replace ((0 <=? Z.of_nat i) && (Z.of_nat i <? Z.of_nat (List.length tss_list)))
    with true.
  - now rewrite Nat2Z.id.
  - symmetry. apply andb_true_iff. split; [apply Z.leb_le|apply Z.ltb_lt]; lia.
Qed.

Lemma nearest_step_invalid tss_list pos st (c : Z) :
  c < 0 \/ Z.of_nat (List.length tss_list) <= c ->
  nearest_step tss_list pos st c = st.
Proof.
  intros Hc. destruct st as [[bi bd] bs]. unfold nearest_step.
  replace ((0 <=? c) && (c <? Z.of_nat (List.length tss_list))) with false;
    [reflexivity|].
  symmetry. apply andb_false_iff.
  destruct Hc; [left; apply Z.leb_gt|right; apply Z.ltb_ge]; lia.
Qed.

(** What [nearest_tss] returns on the sorted [(tss, name)] array of a
    chromosome. *)
Lemma nearest_tss_spec (arr : list (Z * string)) (pos : Z) :
  StronglySorted (fun p q => fst p <= fst q) arr ->
  arr <> [] ->
  let r := nearest_tss (map fst arr) (map snd arr) pos in
  ((exists p, In p arr /\ Z.abs (pos - fst p) < NO_DIST) ->
   exists p,
     In p arr /\ r = (snd p, pos - fst p)
     /\ (forall q, In q arr -> Z.abs (pos - fst p) <= Z.abs (pos - fst q))
     /\ (forall q, In q arr -> Z.abs (pos - fst q) = Z.abs (pos - fst p) ->
                   fst p <= fst q))
  /\ ((forall p, In p arr -> NO_DIST <= Z.abs (pos - fst p)) ->
      r = (EmptyString, 0)).
Proof.
  intros Hsorted Hne r.
  assert (Hs : StronglySorted Z.le (map fst arr)) by now apply StronglySorted_map.
  destruct (bisect_left_spec (map fst arr) pos Hs) as [Hk [Hleft Hright]].
  set (k := bisect_left (map fst arr) pos) in *.
  set (d := (0, EmptyString) : Z * string).
  assert (Hlen : List.length (map fst arr) = List.length arr)
    by apply length_map.
  assert (Htss : forall i, nth i (map fst arr) 0 = fst (nth i arr d))
    by (intros i; apply (map_nth fst arr d)).
  assert (Hname : forall i, nth i (map snd arr) EmptyString = snd (nth i arr d))
    by (intros i; apply (map_nth snd arr d)).
  rewrite Hlen in *.
  set (n := List.length arr) in *.
  assert (Hn : (0 < n)%nat).
  { subst n. destruct arr; [congruence|simpl; lia]. }
  (* every entry lies on one side of the insertion point, beyond the
     neighbour on that side *)
  assert (Hside : forall q, In q arr ->
            (fst q < pos /\ (0 < k)%nat /\ fst q <= fst (nth (k - 1) arr d))
            \/ (pos <= fst q /\ (k < n)%nat /\ fst (nth k arr d) <= fst q)).
  { intros q Hq. destruct (In_nth arr q d Hq) as [i [Hi <-]].
    destruct (Nat.lt_ge_cases i k) as [Hlt|Hge].
    - left. rewrite <- Htss. split; [auto|]. split; [lia|].
      rewrite <- !Htss. apply sorted_nth_le; [exact Hs|lia].
    - right. rewrite <- !Htss. split; [apply Hright; lia|]. split; [lia|].
      apply sorted_nth_le; [exact Hs|lia]. }
  assert (HL : (0 < k)%nat ->
               In (nth (k - 1) arr d) arr /\ fst (nth (k - 1) arr d) < pos).
  { intros H. split; [apply nth_In; lia|]. rewrite <- Htss. apply Hleft. lia. }
  assert (HR : (k < n)%nat ->
               In (nth k arr d) arr /\ pos <= fst (nth k arr d)).
  { intros H. split; [apply nth_In; lia|]. rewrite <- Htss. apply Hright. lia. }
  subst r. rewrite nearest_tss_fold by (destruct arr; [congruence|discriminate]).
  fold k. cbv zeta.
  (* the left neighbour [k - 1] *)
  assert (E1 : nearest_step (map fst arr) pos (None, NO_DIST, 0) (Z.of_nat k - 1)
               = if (0 <? k)%nat
                 then if Z.abs (pos - fst (nth (k - 1) arr d)) <? NO_DIST
                      then (Some (Z.of_nat (k - 1)),
                            Z.abs (pos - fst (nth (k - 1) arr d)),
                            pos - fst (nth (k - 1) arr d))
                      else (None, NO_DIST, 0)
                 else (None, NO_DIST, 0)).
  { destruct (0 <? k)%nat eqn:E.
    - apply Nat.ltb_lt in E.
      replace (Z.of_nat k - 1) with (Z.of_nat (k - 1)) by lia.
      rewrite nearest_step_valid by lia. now rewrite Htss.
    - apply Nat.ltb_ge in E. apply nearest_step_invalid. lia. }
  rewrite E1. clear E1.
  (* the right neighbour [k] *)
  assert (E2 : forall st,
             nearest_step (map fst arr) pos st (Z.of_nat k)
             = if (k <? n)%nat
               then if Z.abs (pos - fst (nth k arr d)) <? snd (fst st)
                    then (Some (Z.of_nat k), Z.abs (pos - fst (nth k arr d)),
                          pos - fst (nth k arr d))
                    else st
               else st).
  { intros [[bi bd] bs]. destruct (k <? n)%nat eqn:E.
    - apply Nat.ltb_lt in E. rewrite nearest_step_valid by lia.
      now rewrite Htss.
    - apply Nat.ltb_ge in E. apply nearest_step_invalid. lia. }
  rewrite E2. clear E2.
  set (pL := nth (k - 1) arr d) in *. set (pR := nth k arr d) in *.
  assert (HselL : Z.to_nat (Z.of_nat (k - 1)) = (k - 1)%nat) by apply Nat2Z.id.
  assert (HselR : Z.to_nat (Z.of_nat k) = k) by apply Nat2Z.id.
  destruct (0 <? k)%nat eqn:E0;
    [apply Nat.ltb_lt in E0; destruct (HL E0) as [HinL HltL]
    |apply Nat.ltb_ge in E0];
    (destruct (k <? n)%nat eqn:En;
     [apply Nat.ltb_lt in En; destruct (HR En) as [HinR HleR]
     |apply Nat.ltb_ge in En]);
    try (destruct (Z.abs (pos - fst pL) <? NO_DIST) eqn:EL;
         [apply Z.ltb_lt in EL|apply Z.ltb_ge in EL]);
    cbn [fst snd];
    try (match goal with
         | |- context [Z.abs (pos - fst pR) <? ?b] =>
             destruct (Z.abs (pos - fst pR) <? b) eqn:ER;
             [apply Z.ltb_lt in ER|apply Z.ltb_ge in ER]
         end);
    cbn [fst snd]; rewrite ?HselL, ?HselR, ?Hname; fold pL pR;
    (split;
     [intros [p0 [Hp0 Hd0]]
     |intros Hfar;
      try reflexivity;
      try (specialize (Hfar _ HinL); lia);
      try (specialize (Hfar _ HinR); lia)]);
    try (exfalso; destruct (Hside _ Hp0) as [[? [? ?]]|[? [? ?]]]; lia);
    try lia.
  all: first
    [ exists pR; split; [exact HinR|]; split; [reflexivity|];
      (split; [intros q Hq|intros q Hq Heq]);
      destruct (Hside _ Hq) as [[? [? ?]]|[? [? ?]]]; lia
    | exists pL; split; [exact HinL|]; split; [reflexivity|];
      (split; [intros q Hq|intros q Hq Heq]);
      destruct (Hside _ Hq) as [[? [? ?]]|[? [? ?]]]; lia ].
Qed.

Lemma group_fold_get {K V X} (eqb : K -> K -> bool)
    (eqb_spec : forall x y, eqb x y = true <-> x = y)
    (kf : X -> K) (vf : X -> V) items k :
  Dict.get eqb k (fold_left (group_step eqb kf vf) items [])
  = let l := filter (fun x => eqb k (kf x)) items in
    match l with [] => None | _ :: _ => Some (map vf l) end.
Proof.
  cbv zeta.
  pose proof (group_fold_get_or eqb eqb_spec kf vf items [] k) as Hget.
  pose proof (group_fold_keys eqb eqb_spec kf vf items [] k) as Hkeys.
  unfold Dict.get_or in Hget.
  destruct (Dict.get eqb k (fold_left (group_step eqb kf vf) items [])) eqn:E.
  - apply (get_some_in_keys eqb eqb_spec) in E. apply Hkeys in E.
    destruct E as [[]|[x [Hx Hk]]].
    assert (Hin : In x (filter (fun x => eqb k (kf x)) items)).
    { apply filter_In. split; [exact Hx|]. apply eqb_spec. auto. }
    simpl in Hget. rewrite Hget.
    destruct (filter (fun x => eqb k (kf x)) items); [destruct Hin|reflexivity].
  - apply (get_none_iff eqb eqb_spec) in E.
    destruct (filter (fun x => eqb k (kf x)) items) as [|x l] eqn:F;
      [reflexivity|].
    exfalso. apply E, Hkeys. right. exists x.
    assert (Hin : In x (filter (fun x => eqb k (kf x)) items))
      by (rewrite F; now left).
    apply filter_In in Hin. destruct Hin as [Hin Hk].
    apply eqb_spec in Hk. auto.
Qed.

Lemma build_tss_index_get genes chrom :
  Dict.get String.eqb chrom (build_tss_index genes)
  = let gs := genes_on chrom genes in
    match gs with
    | [] => None
    | _ :: _ =>
        let arr := sort_by_key fst (map tss_entry gs) in
        Some (map fst arr, map snd arr)
    end.
Proof.
  unfold build_tss_index. rewrite get_map_values.
  change (fun per_chrom g =>
            Dict.append String.eqb (gr_chrom g) (gr_tss g, gr_gene_name g)
              per_chrom)
    with (group_step String.eqb gr_chrom tss_entry).
  rewrite (group_fold_get String.eqb string_eqb_spec). cbv zeta.
  fold (genes_on chrom genes).
  destruct (genes_on chrom genes); reflexivity.
Qed.

Lemma nearest_gene_on (gs : list GeneRecord) (center : Z) (gene : string)
    (dist : Z) :
  gs <> [] ->
  (gene, dist)
  = (let arr := sort_by_key fst (map tss_entry gs) in
     nearest_tss (map fst arr) (map snd arr) center) ->
  ((exists g, In g gs /\ gene_dist center g < NO_DIST) ->
   picks_nearest_gene center gs gene dist)
  /\ ((forall g, In g gs -> NO_DIST <= gene_dist center g) ->
      gene = EmptyString /\ dist = 0).
Proof.
  intros Hne Heq. cbv zeta in Heq.
  set (arr := sort_by_key fst (map tss_entry gs)) in *.
  assert (Hin : forall p, In p arr <-> exists g, In g gs /\ p = tss_entry g).
  { intros p. subst arr. rewrite sort_by_key_in, in_map_iff.
    split; intros [g [H1 H2]]; exists g; auto. }
  assert (Harr : arr <> []).
  { destruct gs as [|g gs]; [congruence|].
    intros Hnil. assert (H : In (tss_entry g) arr)
      by (apply Hin; exists g; split; [now left|reflexivity]).
    rewrite Hnil in H. destruct H. }
  destruct (nearest_tss_spec arr center (sort_by_key_sorted fst _) Harr)
    as [Hnear Hnone].
  rewrite <- Heq in Hnear, Hnone. split.
  - intros [g [Hg Hd]].
    destruct Hnear as [p [Hp [Hr [Hmin Htie]]]].
    { exists (tss_entry g). split; [apply Hin; eauto|exact Hd]. }
    apply Hin in Hp. destruct Hp as [g0 [Hg0 ->]].
    injection Hr as -> ->. exists g0. repeat split; auto.
    + intros g' Hg'. apply (Hmin (tss_entry g')). apply Hin. eauto.
    + intros g' Hg' Hd'. apply (Htie (tss_entry g')); [apply Hin; eauto|].
      exact Hd'.
  - intros Hfar. assert (Hr : (gene, dist) = (EmptyString, 0)).
    { apply Hnone. intros p Hp. apply Hin in Hp.
      destruct Hp as [g [Hg ->]]. now apply Hfar. }
    now injection Hr.
Qed.

(** X26.  For an intergenic peak, if some gene of the peak's
    chromosome has its TSS less than [10^18] away from the peak center, the
    assigned gene is one whose TSS minimizes the absolute distance over all
    genes of that chromosome, with the smallest TSS coordinate among the genes
    at that distance, and the reported distance is [center - tss]; if every
    gene of the chromosome is [10^18] or more away, and in particular if the
    chromosome has no gene, the gene name is empty and the distance 0. *)
Theorem annotate_peaks_nearest_gene (peaks : list GenomicInterval)
    (genes : list GeneRecord) (upstream downstream : Z)
    (idx : nat) (chrom : string) (s e : Z) (row : AnnotationRecord) :
  nth_error peaks idx = Some (chrom, s, e) ->
  nth_error (annotate_peaks peaks genes upstream downstream) idx = Some row ->
  ar_annotation row = intergenic ->
  let center := (s + e) / 2 in
  let gs := genes_on chrom genes in
  ((exists g, In g gs /\ gene_dist center g < NO_DIST) ->
   picks_nearest_gene center gs (ar_gene row) (ar_distance_to_TSS row))
  /\ ((forall g, In g gs -> NO_DIST <= gene_dist center g) ->
      ar_gene row = EmptyString /\ ar_distance_to_TSS row = 0)
  /\ (gs = [] -> ar_gene row = EmptyString /\ ar_distance_to_TSS row = 0).
Proof.
  intros Hpeak Hrow Hann center gs.
  rewrite (annotate_peaks_row _ _ _ _ _ _ _ _ Hpeak) in Hrow.
  injection Hrow as <-.
  destruct (row_of_cases genes upstream downstream idx chrom s e)
    as [_ [_ Hinter]].
  destruct (Hinter Hann) as [_ [_ Heq]]. clear Hinter.
  rewrite build_tss_index_get in Heq. cbv zeta in Heq. fold gs center in Heq.
  assert (Hempty : gs = [] ->
            ar_gene (row_of genes upstream downstream idx chrom s e)
              = EmptyString
            /\ ar_distance_to_TSS (row_of genes upstream downstream idx chrom s e)
               = 0).
  { intros Hnil. rewrite Hnil in Heq. now injection Heq. }
  destruct gs as [|g0 gs'] eqn:Egs.
  - repeat split; try (now apply Hempty). intros [g [[] _]].
  - destruct (nearest_gene_on (g0 :: gs') center _ _ ltac:(discriminate) Heq)
      as [H1 H2].
    repeat split; auto; try (now apply H2); discriminate.
Qed.

Lemma annotate_peaks_nearest_gene_witness :
  picks_nearest_gene ((3000 + 3100) / 2)
    (genes_on "chr1"
       [mkGene "chr1" 150 1000 "+" "g1" "G1" 150;
        mkGene "chr1" 5000 9000 "-" "g2" "G2" 8999]%string)
    "G1"%string 2900.
Proof.
  refine (proj1
    (annotate_peaks_nearest_gene [("chr1", 3000, 3100)]%string
       [mkGene "chr1" 150 1000 "+" "g1" "G1" 150;
        mkGene "chr1" 5000 9000 "-" "g2" "G2" 8999]%string 2000 200
       0%nat "chr1"%string 3000 3100
       (mkRow 0 "chr1" 3000 3100 intergenic "G1" 2900)
       eq_refl eq_refl eq_refl) _).
  exists (mkGene "chr1" 150 1000 "+" "g1" "G1" 150)%string.
  split; [vm_compute; auto | vm_compute; reflexivity].
Defined.

(** C9.  [nearest_tss] starts its search from [best_dist = 10**18] and
    selects only on [dist < best_dist], so a TSS that is [10^18] or more away
    is never chosen and [best_idx] stays [None].  The only gene of chr1 has
    its TSS at [10^19]; for the intergenic peak [(chr1, 0, 2)], center 1, the
    function returns [("", 0)] although the chromosome has a gene, and the row
    of [annotate_peaks] carries the empty gene name and distance 0 instead of
    [G] and [1 - 10^19]. *)
Theorem nearest_tss_drops_far_gene :
  genes_on "chr1"
    [mkGene "chr1" (10 ^ 19) (10 ^ 19 + 10) "+" "g" "G" (10 ^ 19)]%string
  = [mkGene "chr1" (10 ^ 19) (10 ^ 19 + 10) "+" "g" "G" (10 ^ 19)]%string
  /\ nearest_tss [10 ^ 19] ["G"%string] 1 = (EmptyString, 0)
  /\ annotate_peaks [("chr1", 0, 2)]%string
       [mkGene "chr1" (10 ^ 19) (10 ^ 19 + 10) "+" "g" "G" (10 ^ 19)]%string
       2000 200
     = [mkRow 0 "chr1" 0 2 intergenic EmptyString 0]%string
  /\ ~ nearest_gene_claim [("chr1", 0, 2)]%string
        [mkGene "chr1" (10 ^ 19) (10 ^ 19 + 10) "+" "g" "G" (10 ^ 19)]%string
        2000 200.
Proof.
  split; [vm_compute; reflexivity|].
  split; [vm_compute; reflexivity|].
  split; [vm_compute; reflexivity|].
  intros H.
  specialize (H 0%nat "chr1"%string 0 2
                (mkRow 0 "chr1" 0 2 intergenic "" 0) eq_refl eq_refl eq_refl).
  destruct H as [H _].
  destruct H as [g [Hin [Hgene _]]]; [discriminate|].
  cbn [ar_gene] in Hgene. vm_compute in Hin.
  destruct Hin as [<-|[]]. discriminate Hgene.
Qed.

(** ** Coverage of the merge *)

Lemma merge_run_contains rest : forall cur a,
  StronglySorted start_le (cur :: rest) ->
  In a (cur :: rest) ->
  exists u, In u (merge_run cur rest) /\ contains u a.
Proof.
  induction rest as [|[s e] rest IH]; intros cur a Hs Hin.
  - destruct Hin as [<-|[]]. exists cur. split; [now left|].
    unfold contains. lia.
  - apply StronglySorted_inv in Hs. destruct Hs as [Hs Hall].
    apply StronglySorted_inv in Hs as Hs'. destruct Hs' as [Hs' Hall'].
    inversion Hall as [|? ? Hcs Hcrest]; subst.
    unfold start_le in Hcs. cbn [fst] in Hcs.
    cbn [merge_run]. destruct (s <=? snd cur) eqn:E.
    + apply Z.leb_le in E.
      assert (Hs2 : StronglySorted start_le
                      ((fst cur, Z.max (snd cur) e) :: rest))
        by (constructor; [exact Hs'|exact Hcrest]).
      destruct Hin as [<-|[<-|Hin]].
      * destruct (IH _ (fst cur, Z.max (snd cur) e) Hs2 (or_introl eq_refl))
          as [u [Hu Hc]].
        exists u. split; [exact Hu|]. unfold contains in *. cbn [fst snd] in *.
        lia.
      * destruct (IH _ (fst cur, Z.max (snd cur) e) Hs2 (or_introl eq_refl))
          as [u [Hu Hc]].
        exists u. split; [exact Hu|]. unfold contains in *. cbn [fst snd] in *.
        lia.
      * apply (IH _ a Hs2). now right.
    + destruct Hin as [<-|Hin].
      * exists cur. split; [now left|]. unfold contains. lia.
      * destruct (IH (s, e) a Hs Hin) as [u [Hu Hc]].
        exists u. split; [now right|exact Hc].
Qed.

Lemma merge_run_covers rest : forall cur x,
  StronglySorted start_le (cur :: rest) ->
  (exists u, In u (merge_run cur rest) /\ covers u x)
  <-> (exists a, In a (cur :: rest) /\ covers a x).
Proof.
  induction rest as [|[s e] rest IH]; intros cur x Hs; [reflexivity|].
  apply StronglySorted_inv in Hs. destruct Hs as [Hs Hall].
  apply StronglySorted_inv in Hs as Hs'. destruct Hs' as [Hs' Hall'].
  inversion Hall as [|? ? Hcs Hcrest]; subst.
  unfold start_le in Hcs. cbn [fst] in Hcs.
  cbn [merge_run]. destruct (s <=? snd cur) eqn:E.
  - apply Z.leb_le in E.
    rewrite IH by (constructor; [exact Hs'|exact Hcrest]).
    split; intros [a [Hin Hc]].
    + destruct Hin as [<-|Hin].
      * unfold covers in Hc. cbn [fst snd] in Hc.
        destruct (Z_lt_ge_dec x (snd cur)).
        -- exists cur. split; [now left|]. unfold covers. lia.
        -- exists (s, e). split; [right; now left|]. unfold covers.
           cbn [fst snd]. lia.
      * exists a. split; [right; now right|exact Hc].
    + destruct Hin as [<-|[<-|Hin]].
      * exists (fst cur, Z.max (snd cur) e). split; [now left|].
        unfold covers in *. cbn [fst snd]. lia.
      * exists (fst cur, Z.max (snd cur) e). split; [now left|].
        unfold covers in *. cbn [fst snd] in *. lia.
      * exists a. split; [now right|exact Hc].
  - split; intros [a [Hin Hc]].
    + destruct Hin as [<-|Hin]; [exists cur; split; [now left|exact Hc]|].
      destruct (proj1 (IH (s, e) x Hs)) as [b [Hb Hcb]]; [eauto|].
      exists b. split; [now right|exact Hcb].
    + destruct Hin as [<-|Hin]; [exists cur; split; [now left|exact Hc]|].
      destruct (proj2 (IH (s, e) x Hs)) as [b [Hb Hcb]]; [eauto|].
      exists b. split; [now right|exact Hcb].
Qed.

Lemma merge_run_well_formed rest : forall cur,
  well_formed cur -> Forall well_formed rest ->
  Forall well_formed (merge_run cur rest).
Proof.
  induction rest as [|[s e] rest IH]; intros cur Hc Hall; cbn [merge_run].
  - now constructor.
  - inversion Hall as [|? ? Hse Hrest]; subst.
    unfold well_formed in *. cbn [fst snd] in *.
    destruct (s <=? snd cur).
    + apply IH; [|exact Hrest]. unfold well_formed. cbn [fst snd]. lia.
    + constructor; [exact Hc|]. apply IH; auto.
Qed.

Lemma merge_1d_contains l a :
  In a l -> exists u, In u (merge_1d l) /\ contains u a.
Proof.
  intros Hin. rewrite merge_1d_run.
  pose proof (sort_by_key_sorted fst l) as Hs.
  apply (sort_by_key_in fst) in Hin.
  destruct (sort_by_key fst l) as [|first rest]; [destruct Hin|].
  now apply merge_run_contains.
Qed.

Lemma merge_1d_covers l x :
  (exists u, In u (merge_1d l) /\ covers u x)
  <-> (exists a, In a l /\ covers a x).
Proof.
  rewrite merge_1d_run.
  pose proof (sort_by_key_sorted fst l) as Hs.
  assert (Hin : forall a, In a (sort_by_key fst l) <-> In a l)
    by (intros a; apply sort_by_key_in).
  destruct (sort_by_key fst l) as [|first rest].
  - split; intros [a [Ha _]]; [destruct Ha|]. now apply Hin in Ha.
  - rewrite merge_run_covers by exact Hs.
    split; intros [a [Ha Hc]]; exists a; split; auto; now apply Hin.
Qed.

Lemma merge_1d_well_formed l :
  Forall well_formed l -> Forall well_formed (merge_1d l).
Proof.
  intros Hall. rewrite merge_1d_run.
  assert (Hs : Forall well_formed (sort_by_key fst l)).
  { rewrite Forall_forall in *. intros a Ha. apply Hall.
    now apply sort_by_key_in in Ha. }
  destruct (sort_by_key fst l) as [|first rest]; [constructor|].
  inversion Hs; subst. now apply merge_run_well_formed.
Qed.

Lemma strongly_sorted_pair {A} (R : A -> A -> Prop) l x y :
  StronglySorted R l -> In x l -> In y l -> x = y \/ R x y \/ R y x.
Proof.
  induction 1 as [|a l Hs IH Hall]; intros Hx Hy; [destruct Hx|].
  rewrite Forall_forall in Hall.
  destruct Hx as [<-|Hx], Hy as [<-|Hy]; auto.
Qed.

(** Two inputs that overlap or touch end up inside the same merged
    interval. *)
Lemma merge_1d_joins l a b :
  In a l -> In b l -> fst a <= snd b -> fst b <= snd a ->
  exists u, In u (merge_1d l) /\ contains u a /\ contains u b.
Proof.
  intros Ha Hb Hab Hba.
  destruct (merge_1d_contains l a Ha) as [u [Hu Hua]].
  destruct (merge_1d_contains l b Hb) as [v [Hv Hvb]].
  destruct (strongly_sorted_pair apart _ u v (merge_1d_apart l) Hu Hv)
    as [<-|[H|H]].
  - exists u. auto.
  - unfold apart, contains in *. lia.
  - unfold apart, contains in *. lia.
Qed.

(** ** Order on chromosome and sample names *)

Lemma string_leb_iff x y :
  String.leb x y = true <-> x = y \/ String_as_OT.lt x y.
Proof.
  unfold String.leb. destruct (String.compare x y) eqn:E.
  - apply String_as_OT.cmp_eq in E. tauto.
  - apply String_as_OT.cmp_lt in E. tauto.
  - split; [discriminate|]. intros [->|H].
    + assert (String_as_OT.cmp y y = Eq) by now apply String_as_OT.cmp_eq.
      unfold String_as_OT.cmp in *. congruence.
    + apply String_as_OT.cmp_lt in H. unfold String_as_OT.cmp in *. congruence.
Qed.

Lemma string_leb_trans x y z :
  String.leb x y = true -> String.leb y z = true -> String.leb x z = true.
Proof.
  rewrite !string_leb_iff. intros [->|H1] [->|H2]; auto.
  right. eapply String_as_OT.lt_trans; eauto.
Qed.

Lemma string_leb_false x y : String.leb x y = false -> String.leb y x = true.
Proof. destruct (String.leb_total x y); congruence. Qed.

Lemma string_ltb_iff x y :
  String.ltb x y = true <-> String.leb x y = true /\ x <> y.
Proof.
  unfold String.ltb, String.leb. destruct (String.compare x y) eqn:E.
  - apply String_as_OT.cmp_eq in E. split; [discriminate|tauto].
  - split; [|reflexivity]. intros _. split; [reflexivity|]. intros ->.
    assert (String_as_OT.cmp y y = Eq) by now apply String_as_OT.cmp_eq.
    unfold String_as_OT.cmp in *. congruence.
  - split; [discriminate|]. intros [H _]. discriminate.
Qed.

Lemma sort_strings_in x l : In x (sort_strings l) <-> In x l.
Proof. apply stable_sort_in. Qed.

Lemma sort_strings_strict l : NoDup l -> strictly_ascending (sort_strings l).
Proof.
  intros Hnd.
  assert (Hnd' : NoDup (sort_strings l)).
  { eapply Permutation_NoDup; [|exact Hnd]. symmetry. apply stable_sort_perm. }
  assert (Hs : StronglySorted (fun a b => String.leb a b = true)
                 (sort_strings l)).
  { apply stable_sort_sorted;
      [exact string_leb_false | exact string_leb_trans]. }
  unfold strictly_ascending. induction Hs as [|a l' Hs IH Hall].
  - constructor.
  - inversion Hnd' as [|? ? Hnin Hnd'']; subst. constructor; [auto|].
    rewrite Forall_forall in *. intros b Hb. apply string_ltb_iff.
    split; [auto|]. intros ->. contradiction.
Qed.

(** ** The union list *)

Lemma collect_inner_fst rm sample peaks : forall st,
  fst (fold_left (collect_peak rm sample) peaks st)
  = fold_left (group_step String.eqb g_chrom interval_of) peaks (fst st).
Proof.
  induction peaks as [|[[c s] e] peaks IH]; intros [all per]; [reflexivity|].
  cbn [fold_left]. rewrite IH. reflexivity.
Qed.

Lemma collect_fst rm pbs :
  fst (collect_peaks rm pbs)
  = fold_left (group_step String.eqb g_chrom interval_of) (all_peaks pbs) [].
Proof.
  unfold collect_peaks, all_peaks.
  change (@nil (string * list (Z * Z)))
    with (fst (@nil (string * list (Z * Z)),
               @nil (string * Dict.t string (list (Z * Z))))) at 2.
  generalize (@nil (string * list (Z * Z)),
              @nil (string * Dict.t string (list (Z * Z)))).
  induction pbs as [|[sample peaks] pbs IH]; intros st; [reflexivity|].
  cbn [fold_left flat_map snd]. rewrite IH, fold_left_app.
  now rewrite collect_inner_fst.
Qed.

Lemma collected_get_or rm pbs c :
  Dict.get_or String.eqb [] c (fst (collect_peaks rm pbs)) = pooled pbs c.
Proof.
  rewrite collect_fst, (group_fold_get_or String.eqb string_eqb_spec).
  reflexivity.
Qed.

Lemma collected_keys rm pbs c :
  In c (Dict.keys (fst (collect_peaks rm pbs)))
  <-> exists p, In p (all_peaks pbs) /\ g_chrom p = c.
Proof.
  rewrite collect_fst, (group_fold_keys String.eqb string_eqb_spec).
  simpl. tauto.
Qed.

Lemma collected_keys_NoDup rm pbs :
  NoDup (Dict.keys (fst (collect_peaks rm pbs))).
Proof.
  rewrite collect_fst. apply (group_fold_NoDup String.eqb string_eqb_spec).
  constructor.
Qed.

(** The chromosomes of the input in the order of the output. *)
Lemma build_union_list_eq rm pbs :
  build_union_list (fst (collect_peaks rm pbs))
  = flat_map (fun c => map (on_chrom c) (merge_1d (pooled pbs c)))
      (sort_strings (Dict.keys (fst (collect_peaks rm pbs)))).
Proof.
  unfold build_union_list. apply flat_map_ext. intros c.
  rewrite collected_get_or, merge_intervals_1d_eq.
  apply map_ext. intros [s e]. reflexivity.
Qed.

Lemma in_union_list rm pbs u :
  In u (build_union_list (fst (collect_peaks rm pbs)))
  <-> In (interval_of u) (merge_1d (pooled pbs (g_chrom u)))
      /\ exists p, In p (all_peaks pbs) /\ g_chrom p = g_chrom u.
Proof.
  rewrite build_union_list_eq, in_flat_map. split.
  - intros [c [Hc Hu]]. apply in_map_iff in Hu. destruct Hu as [[s e] [<- Ha]].
    apply sort_strings_in, collected_keys in Hc. split; [exact Ha|exact Hc].
  - intros [Ha Hp]. exists (g_chrom u). split.
    + now apply sort_strings_in, collected_keys.
    + apply in_map_iff. exists (interval_of u). split; [|exact Ha].
      now destruct u as [[c s] e].
Qed.

Lemma in_pooled pbs c a :
  In a (pooled pbs c)
  <-> exists p, In p (all_peaks pbs) /\ g_chrom p = c /\ interval_of p = a.
Proof.
  unfold pooled. rewrite in_map_iff. split.
  - intros [p [Hp Hin]]. apply filter_In in Hin. destruct Hin as [Hin Hc].
    apply String.eqb_eq in Hc. eauto.
  - intros [p [Hin [Hc Hp]]]. exists p. split; [exact Hp|].
    apply filter_In. split; [exact Hin|]. now apply String.eqb_eq.
Qed.

(** ** The membership sweep *)

Lemma sweep_membership_nil_l sample U m :
  sweep_membership sample [] U m = Some m.
Proof. destruct U; reflexivity. Qed.

Lemma sweep_membership_cons sample iv ints us ue uk U m :
  sweep_membership sample (iv :: ints) ((us, ue, uk) :: U) m
  = match (if intervals_overlap iv (us, ue)
           then append_at uk sample m else Some m) with
    | Some m1 =>
        if snd iv <=? ue
        then sweep_membership sample ints ((us, ue, uk) :: U) m1
        else sweep_membership sample (iv :: ints) U m1
    | None => None
    end.
Proof. reflexivity. Qed.

Lemma mem_set_present k k' (v : list string) (m : Membership) :
  Dict.mem genomic_eqb k m = true ->
  Dict.mem genomic_eqb k' (Dict.set genomic_eqb k v m)
  = Dict.mem genomic_eqb k' m.
Proof.
  intros Hk. unfold Dict.mem in *.
  destruct (genomic_eqb k' k) eqn:E.
  - apply genomic_eqb_spec in E. subst.
    rewrite (get_set_eq genomic_eqb genomic_eqb_spec).
    now destruct (Dict.get genomic_eqb k m).
  - rewrite (get_set_neq genomic_eqb genomic_eqb_spec); [reflexivity|].
    intros ->. rewrite (eqb_refl_key genomic_eqb genomic_eqb_spec) in E.
    discriminate.
Qed.

Lemma append_at_spec k x (m : Membership) :
  Dict.mem genomic_eqb k m = true ->
  exists m',
    append_at k x m = Some m'
    /\ (forall k', Dict.mem genomic_eqb k' m' = Dict.mem genomic_eqb k' m)
    /\ (forall k' x', has m' k' x' <-> has m k' x' \/ (k' = k /\ x' = x)).
Proof.
  intros Hk. unfold append_at. pose proof Hk as Hk'. unfold Dict.mem in Hk'.
  destruct (Dict.get genomic_eqb k m) as [l|] eqn:E; [|discriminate].
  eexists. split; [reflexivity|]. split.
  - intros k'. now apply mem_set_present.
  - intros k' x'. unfold has.
    destruct (genomic_eqb k' k) eqn:Ek.
    + apply genomic_eqb_spec in Ek. subst k'.
      rewrite (get_set_eq genomic_eqb genomic_eqb_spec), E. split.
      * intros [l' [[= <-] Hin]]. apply in_app_iff in Hin.
        destruct Hin as [Hin|[<-|[]]]; eauto.
      * intros [[l' [[= <-] Hin]]|[_ ->]]; eexists; split; eauto;
          apply in_app_iff; [now left|right; now left].
    + assert (Hne : k <> k').
      { intros ->. rewrite (eqb_refl_key genomic_eqb genomic_eqb_spec) in Ek.
        discriminate. }
      rewrite (get_set_neq genomic_eqb genomic_eqb_spec) by exact Hne.
      split; [tauto|]. intros [H|[-> _]]; [exact H|congruence].
Qed.

Lemma overlap_false_after iv (en : UnionEntry) bound :
  snd iv <= bound -> bound <= fst (fst en) ->
  intervals_overlap iv (fst en) = false.
Proof.
  destruct iv as [a b], en as [[us ue] uk]. cbn [fst snd]. intros H1 H2.
  unfold intervals_overlap. apply andb_false_iff. right. apply Z.ltb_ge. lia.
Qed.

Lemma overlap_false_before iv us ue :
  ue <= fst iv -> intervals_overlap iv (us, ue) = false.
Proof.
  destruct iv as [a b]. cbn [fst]. intros H.
  unfold intervals_overlap. apply andb_false_iff. left. apply Z.ltb_ge. lia.
Qed.

(** The sweep against the union peaks of a chromosome records exactly the
    overlaps, when every interval of the sample lies inside a union peak. *)
Lemma sweep_membership_spec sample : forall ints U m,
  StronglySorted start_le ints ->
  Forall well_formed ints ->
  entries_in_order U ->
  Forall (fun en : UnionEntry => fst (fst en) <= snd (fst en)) U ->
  Forall (fun iv => exists en, In en U /\ contains (fst en) iv) ints ->
  Forall (fun en : UnionEntry => Dict.mem genomic_eqb (snd en) m = true) U ->
  exists m',
    sweep_membership sample ints U m = Some m'
    /\ (forall k, Dict.mem genomic_eqb k m' = Dict.mem genomic_eqb k m)
    /\ (forall k x, has m' k x
                    <-> has m k x \/ (x = sample /\ sweep_hit ints U k)).
Proof.
  induction ints as [|iv ints IHi]; intros U.
  - intros m _ _ _ _ _ _. exists m. rewrite sweep_membership_nil_l.
    split; [reflexivity|]. split; [reflexivity|].
    intros k x. split; [tauto|].
    intros [H|[_ [iv [en [[] _]]]]]. exact H.
  - induction U as [|[[us ue] uk] U IHu];
      intros m Hints Hwf HU HUwf Hcont Hkeys.
    + exists m. split; [reflexivity|]. split; [reflexivity|].
      intros k x. split; [tauto|].
      intros [H|[_ [iv' [en [_ [[] _]]]]]]. exact H.
    + rewrite sweep_membership_cons.
      apply StronglySorted_inv in Hints as Hints'.
      destruct Hints' as [Hints' Hiv_le].
      inversion Hwf as [|? ? Hiv_wf Hwf']; subst.
      apply StronglySorted_inv in HU as HU'. destruct HU' as [HU' Hhead_le].
      inversion HUwf as [|? ? Hhead_wf HUwf']; subst.
      inversion Hcont as [|? ? Hiv_cont Hcont']; subst.
      inversion Hkeys as [|? ? Hhead_key Hkeys']; subst.
      cbn [fst snd] in Hhead_wf, Hhead_key.
      rewrite Forall_forall in Hiv_le, Hhead_le.
      (* the test of the current pair *)
      assert (Hm1 : exists m1,
                 (if intervals_overlap iv (us, ue)
                  then append_at uk sample m else Some m) = Some m1
                 /\ (forall k, Dict.mem genomic_eqb k m1
                               = Dict.mem genomic_eqb k m)
                 /\ (forall k x, has m1 k x
                        <-> has m k x
                            \/ (intervals_overlap iv (us, ue) = true
                                /\ k = uk /\ x = sample))).
      { destruct (intervals_overlap iv (us, ue)).
        - destruct (append_at_spec uk sample m Hhead_key) as [m1 [E [Hk Hh]]].
          exists m1. split; [exact E|]. split; [exact Hk|].
          intros k x. rewrite Hh. tauto.
        - exists m. split; [reflexivity|]. split; [reflexivity|].
          intros k x. split; [tauto|]. intros [H|[H _]]; [exact H|discriminate]. }
      destruct Hm1 as [m1 [-> [Hk1 Hh1]]].
      assert (Hkeys1 : Forall (fun en : UnionEntry =>
                                 Dict.mem genomic_eqb (snd en) m1 = true)
                         ((us, ue, uk) :: U)).
      { eapply Forall_impl; [|exact Hkeys]. intros en. cbv beta.
        now rewrite Hk1. }
      destruct (snd iv <=? ue) eqn:E.
      * (* the sample's interval ends first: next interval *)
        apply Z.leb_le in E.
        destruct (IHi ((us, ue, uk) :: U) m1 Hints' Hwf' HU HUwf Hcont' Hkeys1)
          as [m' [Hrun [Hk' Hh']]].
        exists m'. split; [exact Hrun|]. split.
        { intros k. now rewrite Hk', Hk1. }
        intros k x. rewrite Hh', Hh1. split.
        -- intros [[H|[Hov [-> ->]]]|[-> [iv' [en [Hiv' Hrest]]]]].
           ++ now left.
           ++ right. split; [reflexivity|].
              exists iv, (us, ue, uk). repeat split; auto; now left.
           ++ right. split; [reflexivity|].
              exists iv', en. split; [now right|exact Hrest].
        -- intros [H|[-> [iv' [en [Hiv' [Hen [Hkey Hov]]]]]]]; [now left; left|].
           destruct Hiv' as [<-|Hiv'].
           ++ destruct Hen as [<-|Hen].
              ** left. right. cbn [fst snd] in *. auto.
              ** rewrite (overlap_false_after iv en ue) in Hov;
                   [discriminate|exact E|].
                 apply (Hhead_le en Hen).
           ++ right. split; [reflexivity|]. exists iv', en. auto.
      * (* the union peak ends first: next union peak *)
        apply Z.leb_gt in E.
        assert (Hbeyond : ue <= fst iv).
        { destruct Hiv_cont as [en [[<-|Hen] Hc]].
          - unfold contains in Hc. cbn [fst snd] in Hc. lia.
          - specialize (Hhead_le en Hen). cbn [fst snd] in Hhead_le.
            unfold contains in Hc. lia. }
        assert (Hcont1 : Forall (fun iv' => exists en,
                                   In en U /\ contains (fst en) iv')
                           (iv :: ints)).
        { rewrite Forall_forall in *. intros iv' Hiv'.
          assert (Hge : ue <= fst iv').
          { destruct Hiv' as [<-|Hiv']; [exact Hbeyond|].
            specialize (Hiv_le iv' Hiv'). unfold start_le in Hiv_le. lia. }
          destruct (Hcont iv' Hiv') as [en [[<-|Hen] Hc]]; [|eauto].
          exfalso. specialize (Hwf iv' Hiv').
          unfold contains, well_formed in *. cbn [fst snd] in *. lia. }
        inversion Hkeys1 as [|? ? _ Hkeys1']; subst.
        destruct (IHu m1 Hints Hwf HU' HUwf' Hcont1 Hkeys1')
          as [m' [Hrun [Hk' Hh']]].
        exists m'. split; [exact Hrun|]. split.
        { intros k. now rewrite Hk', Hk1. }
        intros k x. rewrite Hh', Hh1. split.
        -- intros [[H|[Hov [-> ->]]]|[-> [iv' [en [Hiv' [Hen Hrest]]]]]].
           ++ now left.
           ++ right. split; [reflexivity|].
              exists iv, (us, ue, uk). repeat split; auto; now left.
           ++ right. split; [reflexivity|].
              exists iv', en. split; [exact Hiv'|]. split; [now right|exact Hrest].
        -- intros [H|[-> [iv' [en [Hiv' [Hen [Hkey Hov]]]]]]]; [now left; left|].
           destruct Hen as [<-|Hen].
           ++ cbn [fst snd] in *. destruct Hiv' as [<-|Hiv'].
              ** left. right. auto.
              ** rewrite overlap_false_before in Hov; [discriminate|].
                 specialize (Hiv_le iv' Hiv'). unfold start_le in Hiv_le. lia.
           ++ right. split; [reflexivity|]. exists iv', en. auto.
Qed.

(** ** The loops around the membership sweep *)

Lemma fold_option_spec {X} (f : Membership -> X -> option Membership)
    (hit : X -> GenomicInterval -> string -> Prop) (mref : Membership) l :
  (forall x m, In x l ->
     (forall k, Dict.mem genomic_eqb k m = Dict.mem genomic_eqb k mref) ->
     exists m',
       f m x = Some m'
       /\ (forall k, Dict.mem genomic_eqb k m' = Dict.mem genomic_eqb k m)
       /\ (forall k s, has m' k s <-> has m k s \/ hit x k s)) ->
  forall m,
    (forall k, Dict.mem genomic_eqb k m = Dict.mem genomic_eqb k mref) ->
    exists m',
      fold_option f l m = Some m'
      /\ (forall k, Dict.mem genomic_eqb k m' = Dict.mem genomic_eqb k m)
      /\ (forall k s, has m' k s
                      <-> has m k s \/ exists x, In x l /\ hit x k s).
Proof.
  induction l as [|x l IH]; intros Hstep m Hm.
  - exists m. split; [reflexivity|]. split; [reflexivity|].
    intros k s. split; [tauto|]. intros [H|[x [[] _]]]. exact H.
  - destruct (Hstep x m (or_introl eq_refl) Hm) as [m1 [E1 [Hk1 Hh1]]].
    destruct (IH (fun y m0 Hy => Hstep y m0 (or_intror Hy)) m1) as [m' [E' [Hk' Hh']]].
    { intros k. now rewrite Hk1. }
    exists m'. cbn [fold_option]. rewrite E1. split; [exact E'|]. split.
    { intros k. now rewrite Hk', Hk1. }
    intros k s. rewrite Hh', Hh1. split.
    + intros [[H|H]|[y [Hy H]]]; [now left| |]; right; eauto using in_eq, in_cons.
    + intros [H|[y [[<-|Hy] H]]]; [now left; left|now left; right|].
      right. eauto.
Qed.

Lemma empty_membership_fold ul : forall m : Membership,
  (forall k l, Dict.get genomic_eqb k m = Some l -> l = []) ->
  (forall k l,
     Dict.get genomic_eqb k
       (fold_left (fun m p => Dict.set genomic_eqb p [] m) ul m) = Some l ->
     l = [])
  /\ (forall k,
        Dict.mem genomic_eqb k
          (fold_left (fun m p => Dict.set genomic_eqb p [] m) ul m) = true
        <-> Dict.mem genomic_eqb k m = true \/ In k ul).
Proof.
  induction ul as [|u ul IH]; intros m Hm; cbn [fold_left].
  - split; [exact Hm|]. intros k. simpl. tauto.
  - destruct (IH (Dict.set genomic_eqb u [] m)) as [H1 H2].
    { intros k l. destruct (genomic_eqb k u) eqn:E.
      - apply genomic_eqb_spec in E. subst.
        rewrite (get_set_eq genomic_eqb genomic_eqb_spec). congruence.
      - rewrite (get_set_neq genomic_eqb genomic_eqb_spec); [apply Hm|].
        intros ->. rewrite (eqb_refl_key genomic_eqb genomic_eqb_spec) in E.
        discriminate. }
    split; [exact H1|]. intros k. rewrite H2.
    rewrite !(mem_iff genomic_eqb genomic_eqb_spec).
    rewrite (set_keys_in genomic_eqb genomic_eqb_spec). simpl.
    intuition.
Qed.

Lemma empty_membership_has ul k x : ~ has (empty_membership ul) k x.
Proof.
  intros [l [Hl Hin]].
  destruct (empty_membership_fold ul []) as [H _]; [discriminate|].
  apply H in Hl. subst. destruct Hin.
Qed.

Lemma empty_membership_mem ul k :
  Dict.mem genomic_eqb k (empty_membership ul) = true <-> In k ul.
Proof.
  destruct (empty_membership_fold ul []) as [_ H]; [discriminate|].
  unfold empty_membership. rewrite H. cbn. intuition discriminate.
Qed.

(** ** The union peaks of one chromosome *)

Lemma filter_flat_map_key {Y} (f : string -> list Y) (key : Y -> string) c cs :
  NoDup cs ->
  (forall c' y, In y (f c') -> key y = c') ->
  filter (fun y => String.eqb c (key y)) (flat_map f cs)
  = if in_dec string_dec c cs then f c else [].
Proof.
  intros Hnd Hkey. induction Hnd as [|c0 cs Hnin Hnd IH]; [reflexivity|].
  cbn [flat_map]. rewrite filter_app, IH.
  destruct (string_dec c0 c) as [->|Hne].
  - destruct (in_dec string_dec c (c :: cs)) as [_|Hn];
      [|exfalso; apply Hn; now left].
    destruct (in_dec string_dec c cs) as [Hi|_]; [contradiction|].
    rewrite app_nil_r. apply forallb_filter_id. apply forallb_forall.
    intros y Hy. rewrite (Hkey _ _ Hy). apply String.eqb_refl.
  - rewrite filter_none.
    + destruct (in_dec string_dec c cs) as [Hi|Hn];
        destruct (in_dec string_dec c (c0 :: cs)) as [Hi'|Hn'];
        try reflexivity; exfalso.
      * apply Hn'. now right.
      * destruct Hi' as [->|Hi']; [now apply Hne|now apply Hn].
    + rewrite Forall_forall. intros y Hy. rewrite (Hkey _ _ Hy).
      apply String.eqb_neq. congruence.
Qed.

Lemma pooled_nil pbs c :
  ~ In c (Dict.keys (fst (collect_peaks true pbs))) -> pooled pbs c = [].
Proof.
  intros Hn. destruct (pooled pbs c) as [|a l] eqn:E; [reflexivity|].
  exfalso. apply Hn. apply collected_keys.
  assert (Ha : In a (pooled pbs c)) by (rewrite E; now left).
  apply in_pooled in Ha. destruct Ha as [p [Hp [Hc _]]]. eauto.
Qed.

Lemma union_chr_eq pbs c :
  Dict.get_or String.eqb [] c
    (build_union_by_chrom (build_union_list (fst (collect_peaks true pbs))))
  = map (union_entry c) (merge_1d (pooled pbs c)).
Proof.
  unfold build_union_by_chrom. rewrite get_or_map_values_sort.
  rewrite fold_left_ext
    with (g := group_step String.eqb g_chrom
                 (fun u : GenomicInterval => (g_start u, g_end u, u)))
    by (intros d [[ch st] en]; reflexivity).
  rewrite (group_fold_get_or String.eqb string_eqb_spec). cbn [Dict.get_or Dict.get app].
  rewrite build_union_list_eq.
  rewrite (filter_flat_map_key
             (fun c => map (on_chrom c) (merge_1d (pooled pbs c))) g_chrom).
  - assert (E : (if in_dec string_dec c
                      (sort_strings (Dict.keys (fst (collect_peaks true pbs))))
                 then map (on_chrom c) (merge_1d (pooled pbs c)) else [])
                = map (on_chrom c) (merge_1d (pooled pbs c))).
    { destruct (in_dec _ _ _) as [_|Hn]; [reflexivity|].
      rewrite pooled_nil; [reflexivity|].
      intros Hin. apply Hn. now apply sort_strings_in. }
    rewrite E, map_map.
    rewrite (map_ext _ (union_entry c)) by (intros a; reflexivity).
    apply sort_by_key_id.
    apply (StronglySorted_map (union_entry c)
             (fun x y : UnionEntry => fst (fst x) <= fst (fst y))).
    exact (merge_1d_start_sorted (pooled pbs c)).
  - eapply Permutation_NoDup; [symmetry; apply stable_sort_perm|].
    apply collected_keys_NoDup.
  - intros c' y Hy. apply in_map_iff in Hy. now destruct Hy as [a [<- _]].
Qed.

(** ** The per-sample intervals *)

Lemma set_in {K V} (eqb : K -> K -> bool)
    (eqb_spec : forall x y, eqb x y = true <-> x = y) k (v : V) d k' v' :
  In (k', v') (Dict.set eqb k v d) -> (k' = k /\ v' = v) \/ In (k', v') d.
Proof.
  induction d as [|[k0 v0] d IH]; simpl.
  - intros [[= <- <-]|[]]. now left.
  - destruct (eqb k k0) eqn:E; simpl.
    + apply eqb_spec in E. subst k0.
      intros [[= <- <-]|H]; [now left|right; now right].
    + intros [H|H]; [right; now left|].
      destruct (IH H) as [H'|H']; [now left|right; now right].
Qed.

Lemma collect_inner_snd sample peaks : forall st,
  snd (fold_left (collect_peak true sample) peaks st)
  = fold_left (per_step sample) peaks (snd st).
Proof.
  induction peaks as [|[[c s] e] peaks IH]; intros [all per]; [reflexivity|].
  cbn [fold_left]. rewrite IH. reflexivity.
Qed.

Lemma collect_snd pbs :
  snd (collect_peaks true pbs) = fold_left per_sample pbs [].
Proof.
  unfold collect_peaks.
  change (@nil (string * Dict.t string (list (Z * Z))))
    with (snd (@nil (string * list (Z * Z)),
               @nil (string * Dict.t string (list (Z * Z))))) at 2.
  generalize (@nil (string * list (Z * Z)),
              @nil (string * Dict.t string (list (Z * Z)))).
  induction pbs as [|[sample peaks] pbs IH]; intros st; [reflexivity|].
  cbn [fold_left]. rewrite IH. f_equal. unfold per_sample. cbn [fst snd].
  apply collect_inner_snd.
Qed.

Lemma per_step_lookup sample per p c s :
  lookup2 (per_step sample per p) c s
  = lookup2 per c s
    ++ (if String.eqb c (g_chrom p) && String.eqb s sample
        then [interval_of p] else []).
Proof.
  unfold lookup2, per_step.
  destruct (String.eqb c (g_chrom p)) eqn:Ec.
  - apply String.eqb_eq in Ec. subst c.
    rewrite (get_or_set_eq String.eqb string_eqb_spec).
    rewrite (get_or_append String.eqb string_eqb_spec).
    destruct (String.eqb s sample) eqn:Es; cbn [andb].
    + apply String.eqb_eq in Es. now subst.
    + now rewrite app_nil_r.
  - rewrite (get_or_set_neq String.eqb string_eqb_spec).
    + cbn [andb]. now rewrite app_nil_r.
    + intros Heq. rewrite Heq, String.eqb_refl in Ec. discriminate.
Qed.

Lemma per_inner_lookup sample peaks c s : forall per,
  lookup2 (fold_left (per_step sample) peaks per) c s
  = lookup2 per c s
    ++ (if String.eqb s sample
        then map interval_of (filter (fun p => String.eqb c (g_chrom p)) peaks)
        else []).
Proof.
  induction peaks as [|p peaks IH]; intros per; cbn [fold_left filter].
  - destruct (String.eqb s sample); now rewrite app_nil_r.
  - rewrite IH, per_step_lookup, <- app_assoc. f_equal.
    destruct (String.eqb c (g_chrom p)), (String.eqb s sample); reflexivity.
Qed.

Lemma per_outer_lookup pbs c s : forall per,
  lookup2 (fold_left per_sample pbs per) c s
  = lookup2 per c s
    ++ map interval_of
         (filter (fun p => String.eqb c (g_chrom p))
            (flat_map snd (filter (fun kv => String.eqb s (fst kv)) pbs))).
Proof.
  induction pbs as [|[sample peaks] pbs IH]; intros per; cbn [fold_left filter].
  - cbn. now rewrite app_nil_r.
  - rewrite IH. unfold per_sample. cbn [fst snd].
    rewrite per_inner_lookup, <- app_assoc. f_equal.
    destruct (String.eqb s sample); [|reflexivity].
    cbn [flat_map snd]. now rewrite filter_app, map_app.
Qed.

Lemma collected_lookup pbs c s :
  lookup2 (snd (collect_peaks true pbs)) c s = sample_intervals pbs c s.
Proof. rewrite collect_snd, per_outer_lookup. reflexivity. Qed.

Lemma per_step_distinct sample per p :
  nested_keys_distinct per -> nested_keys_distinct (per_step sample per p).
Proof.
  intros [Hnd Hin]. unfold per_step. split.
  - now apply (set_keys_NoDup String.eqb string_eqb_spec).
  - intros c sm H. apply (set_in String.eqb string_eqb_spec) in H.
    destruct H as [[-> ->]|H]; [|eauto].
    unfold Dict.append. apply (set_keys_NoDup String.eqb string_eqb_spec).
    unfold Dict.get_or.
    destruct (Dict.get String.eqb (g_chrom p) per) as [sm0|] eqn:E;
      [|constructor].
    apply (get_in String.eqb string_eqb_spec) in E. eauto.
Qed.

Lemma collected_distinct pbs :
  nested_keys_distinct (snd (collect_peaks true pbs)).
Proof.
  rewrite collect_snd.
  assert (H0 : nested_keys_distinct []).
  { split; [constructor|]. intros c sm []. }
  revert H0. generalize (@nil (string * Dict.t string (list (Z * Z)))).
  induction pbs as [|[sample peaks] pbs IH]; intros per Hper; [exact Hper|].
  cbn [fold_left]. apply IH. unfold per_sample. cbn [fst snd].
  revert per Hper. induction peaks as [|p peaks IHp]; intros per Hper;
    [exact Hper|].
  cbn [fold_left]. apply IHp. now apply per_step_distinct.
Qed.

(** An entry of [chrom_to_sample_intervals] holds the intervals of that
    sample on that chromosome. *)
Lemma collected_entry pbs c sm s ints :
  In (c, sm) (snd (collect_peaks true pbs)) -> In (s, ints) sm ->
  ints = sample_intervals pbs c s.
Proof.
  intros Hc Hs. destruct (collected_distinct pbs) as [Hnd Hin].
  rewrite <- collected_lookup. unfold lookup2, Dict.get_or.
  rewrite (in_get String.eqb string_eqb_spec _ _ _ Hnd Hc).
  now rewrite (in_get String.eqb string_eqb_spec _ _ _ (Hin _ _ Hc) Hs).
Qed.

Lemma collected_entry_exists pbs c s :
  sample_intervals pbs c s <> [] ->
  exists sm,
    In (c, sm) (snd (collect_peaks true pbs))
    /\ In (s, sample_intervals pbs c s) sm.
Proof.
  intros Hne. rewrite <- collected_lookup in *. unfold lookup2, Dict.get_or in *.
  destruct (Dict.get String.eqb c (snd (collect_peaks true pbs))) as [sm|] eqn:Ec.
  - exists sm. split; [now apply (get_in String.eqb string_eqb_spec)|].
    destruct (Dict.get String.eqb s sm) as [ints|] eqn:Es; [|congruence].
    now apply (get_in String.eqb string_eqb_spec).
  - simpl in Hne. congruence.
Qed.

Lemma in_sample_intervals pbs c s a :
  In a (sample_intervals pbs c s)
  <-> exists peaks p,
        In (s, peaks) pbs /\ In p peaks /\ g_chrom p = c /\ interval_of p = a.
Proof.
  unfold sample_intervals. rewrite in_map_iff. split.
  - intros [p [Hp Hin]]. apply filter_In in Hin. destruct Hin as [Hin Hc].
    apply String.eqb_eq in Hc. apply in_flat_map in Hin.
    destruct Hin as [[s' peaks] [Hent Hpin]]. apply filter_In in Hent.
    destruct Hent as [Hent Hs]. cbn [fst snd] in *.
    apply String.eqb_eq in Hs. subst s'. exists peaks, p. auto.
  - intros [peaks [p [Hent [Hpin [Hc Ha]]]]]. exists p. split; [exact Ha|].
    apply filter_In. split; [|now apply String.eqb_eq].
    apply in_flat_map. exists (s, peaks). split; [|exact Hpin].
    apply filter_In. split; [exact Hent|]. apply String.eqb_refl.
Qed.

Lemma sample_intervals_pooled pbs c s a :
  In a (sample_intervals pbs c s) -> In a (pooled pbs c).
Proof.
  intros H. apply in_sample_intervals in H.
  destruct H as [peaks [p [Hent [Hpin [Hc Ha]]]]].
  apply in_pooled. exists p. split; [|auto].
  unfold all_peaks. apply in_flat_map. exists (s, peaks). auto.
Qed.

(** ** Membership *)

Lemma on_chrom_interval_of (u : GenomicInterval) :
  on_chrom (g_chrom u) (interval_of u) = u.
Proof. now destruct u as [[c s] e]. Qed.

Lemma interval_of_on_chrom c (a : Z * Z) : interval_of (on_chrom c a) = a.
Proof. now destruct a. Qed.

Lemma merged_in_union_list pbs c a :
  In a (merge_1d (pooled pbs c)) ->
  In (on_chrom c a) (build_union_list (fst (collect_peaks true pbs))).
Proof.
  intros Ha. apply in_union_list.
  rewrite interval_of_on_chrom. cbn [g_chrom on_chrom fst]. split; [exact Ha|].
  destruct (pooled pbs c) as [|b l] eqn:E; [destruct Ha|].
  assert (Hb : In b (pooled pbs c)) by (rewrite E; now left).
  apply in_pooled in Hb. destruct Hb as [p [Hp [Hc _]]]. eauto.
Qed.

Lemma pooled_well_formed pbs c :
  (forall p, In p (all_peaks pbs) -> genomic_well_formed p) ->
  Forall well_formed (pooled pbs c).
Proof.
  intros Hwf. rewrite Forall_forall. intros a Ha. apply in_pooled in Ha.
  destruct Ha as [p [Hp [_ <-]]]. exact (Hwf p Hp).
Qed.

(** The sweep of one sample on one chromosome, in [build_membership]. *)
Lemma sample_sweep_spec pbs c s (m : Membership) :
  (forall p, In p (all_peaks pbs) -> genomic_well_formed p) ->
  (forall k, Dict.mem genomic_eqb k m
             = Dict.mem genomic_eqb k
                 (empty_membership
                    (build_union_list (fst (collect_peaks true pbs))))) ->
  exists m',
    sweep_membership s (sort_by_key fst (sample_intervals pbs c s))
      (map (union_entry c) (merge_1d (pooled pbs c))) m = Some m'
    /\ (forall k, Dict.mem genomic_eqb k m' = Dict.mem genomic_eqb k m)
    /\ (forall k x,
          has m' k x
          <-> has m k x
              \/ (x = s
                  /\ sweep_hit (sort_by_key fst (sample_intervals pbs c s))
                       (map (union_entry c) (merge_1d (pooled pbs c))) k)).
Proof.
  intros Hwf Hkeys. apply sweep_membership_spec.
  - exact (sort_by_key_sorted fst _).
  - rewrite Forall_forall. intros a Ha. apply sort_by_key_in in Ha.
    apply sample_intervals_pooled in Ha.
    pose proof (pooled_well_formed pbs c Hwf) as H.
    rewrite Forall_forall in H. auto.
  - apply (StronglySorted_map (union_entry c)
             (fun a b : UnionEntry => snd (fst a) <= fst (fst b))).
    eapply StronglySorted_weaken; [|apply merge_1d_apart].
    intros a b. unfold apart. cbn. lia.
  - rewrite Forall_forall. intros en Hen. apply in_map_iff in Hen.
    destruct Hen as [a [<- Ha]].
    pose proof (merge_1d_well_formed _ (pooled_well_formed pbs c Hwf)) as H.
    rewrite Forall_forall in H. specialize (H a Ha).
    unfold well_formed in H. cbn. lia.
  - rewrite Forall_forall. intros a Ha. apply sort_by_key_in in Ha.
    apply sample_intervals_pooled in Ha.
    destruct (merge_1d_contains _ _ Ha) as [u [Hu Hc]].
    exists (union_entry c u). split; [now apply in_map|exact Hc].
  - rewrite Forall_forall. intros en Hen. apply in_map_iff in Hen.
    destruct Hen as [a [<- Ha]]. rewrite Hkeys. cbn [union_entry snd].
    apply empty_membership_mem. now apply merged_in_union_list.
Qed.

Lemma build_membership_spec pbs :
  (forall p, In p (all_peaks pbs) -> genomic_well_formed p) ->
  let ul := build_union_list (fst (collect_peaks true pbs)) in
  exists m,
    build_membership ul (snd (collect_peaks true pbs)) = Some m
    /\ (forall k, Dict.mem genomic_eqb k m = true <-> In k ul)
    /\ (forall u s,
          has m u s
          <-> exists peaks p,
                In (s, peaks) pbs /\ In p peaks /\ In u ul
                /\ g_chrom p = g_chrom u
                /\ intervals_overlap (interval_of p) (interval_of u) = true).
Proof.
  intros Hwf ul. unfold build_membership.
  fold (empty_membership ul).
  set (hit := fun (x : string * Dict.t string (list (Z * Z)))
                  (k : GenomicInterval) (s : string) =>
                exists ints,
                  In (s, ints) (snd x)
                  /\ sweep_hit (sort_by_key fst ints)
                       (map (union_entry (fst x))
                          (merge_1d (pooled pbs (fst x)))) k).
  destruct (fold_option_spec
              (fun membership '(chrom, sample_map) =>
                 match Dict.get_or String.eqb [] chrom
                         (build_union_by_chrom ul) with
                 | [] => Some membership
                 | union_chr =>
                     fold_option
                       (fun membership '(sample, ints) =>
                          sweep_membership sample (sort_by_key fst ints)
                            union_chr membership)
                       sample_map membership
                 end)
              hit (empty_membership ul) (snd (collect_peaks true pbs)))
    with (m := empty_membership ul) as [m [Hrun [Hk Hh]]].
  - (* one chromosome *)
    intros [c sm] m Hin Hm. subst ul. rewrite union_chr_eq.
    destruct (map (union_entry c) (merge_1d (pooled pbs c)))
      as [|en0 U0] eqn:EU.
    + exists m. split; [reflexivity|]. split; [reflexivity|].
      intros k s. split; [tauto|].
      intros [H|[ints [_ [iv [en [_ [Hen _]]]]]]]; [exact H|].
      cbn [fst] in Hen. rewrite EU in Hen. destruct Hen.
    + rewrite <- EU.
      destruct (fold_option_spec
                  (fun membership '(sample, ints) =>
                     sweep_membership sample (sort_by_key fst ints)
                       (map (union_entry c) (merge_1d (pooled pbs c)))
                       membership)
                  (fun x k s =>
                     s = fst x
                     /\ sweep_hit (sort_by_key fst (snd x))
                          (map (union_entry c) (merge_1d (pooled pbs c))) k)
                  (empty_membership
                     (build_union_list (fst (collect_peaks true pbs))))
                  sm)
        with (m := m) as [m' [Hrun [Hk Hh]]]; [|exact Hm|].
      * intros [s ints] m1 Hs Hm1. cbn [fst snd].
        rewrite (collected_entry pbs c sm s ints Hin Hs).
        now apply sample_sweep_spec.
      * exists m'. split; [rewrite EU in Hrun; rewrite EU; exact Hrun|].
        split; [exact Hk|]. intros k s. rewrite Hh. unfold hit. cbn [fst snd].
        split.
        -- intros [H|[[s' ints] [Hs [-> Hhit]]]]; [now left|]. right. eauto.
        -- intros [H|[ints [Hs Hhit]]]; [now left|]. right.
           exists (s, ints). auto.
  - reflexivity.
  - exists m. split; [exact Hrun|]. split.
    + intros k. rewrite Hk. apply empty_membership_mem.
    + intros u s. rewrite Hh. unfold hit. split.
      * intros [H|[[c sm] [Hin [ints [Hs [iv [en [Hiv [Hen [Hkey Hov]]]]]]]]]].
        { now apply empty_membership_has in H. }
        cbn [fst snd] in *.
        rewrite (collected_entry pbs c sm s ints Hin Hs) in Hiv.
        apply sort_by_key_in, in_sample_intervals in Hiv.
        destruct Hiv as [peaks [p [Hent [Hp [Hc Ha]]]]].
        apply in_map_iff in Hen. destruct Hen as [a [<- Hmerged]].
        cbn [union_entry fst snd] in *. subst u iv.
        exists peaks, p. split; [exact Hent|]. split; [exact Hp|].
        split; [now apply merged_in_union_list|]. split; [exact Hc|].
        rewrite interval_of_on_chrom. now destruct a.
      * intros [peaks [p [Hent [Hp [Hu [Hc Hov]]]]]]. right.
        assert (Ha : In (interval_of p)
                       (sample_intervals pbs (g_chrom u) s)).
        { apply in_sample_intervals. exists peaks, p. auto. }
        destruct (collected_entry_exists pbs (g_chrom u) s) as [sm [Hin Hs]].
        { intros E. rewrite E in Ha. destruct Ha. }
        exists (g_chrom u, sm). split; [exact Hin|]. cbn [fst snd].
        exists (sample_intervals pbs (g_chrom u) s). split; [exact Hs|].
        exists (interval_of p), (union_entry (g_chrom u) (interval_of u)).
        split; [now apply sort_by_key_in|]. split.
        { apply in_map. now apply in_union_list in Hu. }
        split; [apply on_chrom_interval_of|].
        cbn [union_entry fst]. now destruct (interval_of u).
Qed.

Lemma sorted_set_in x l : In x (sorted_set l) <-> In x l.
Proof. unfold sorted_set. now rewrite sort_strings_in, nodup_In. Qed.

Lemma sorted_set_NoDup l : NoDup (sorted_set l).
Proof.
  unfold sorted_set. eapply Permutation_NoDup.
  - symmetry. apply stable_sort_perm.
  - apply NoDup_nodup.
Qed.

Lemma sorted_set_ascending l :
  StronglySorted (fun a b => String.leb a b = true) (sorted_set l).
Proof.
  unfold sorted_set, sort_strings.
  apply stable_sort_sorted; [exact string_leb_false|exact string_leb_trans].
Qed.

(** [union_peaks] returns, and its union list is [build_union_list] of the
    pooled intervals, whether or not membership is requested. *)
Lemma union_peaks_returns pbs rm :
  (forall p, In p (all_peaks pbs) -> genomic_well_formed p) ->
  exists membership,
    union_peaks pbs rm
    = Some (build_union_list (fst (collect_peaks rm pbs)), membership).
Proof.
  intros Hwf. unfold union_peaks. destruct rm.
  - destruct (build_membership_spec pbs Hwf) as [m [Hrun _]].
    destruct (collect_peaks true pbs) as [all per]. cbn [fst snd negb] in *.
    rewrite Hrun. eauto.
  - destruct (collect_peaks false pbs) as [all per]. cbn [fst negb]. eauto.
Qed.

(** C3.  With membership requested, [union_peaks] returns the union list
    and a membership map.  The union list is the merge of the pooled
    intervals of every chromosome that occurs in the input, the chromosomes
    in ascending order; the keys of the membership map are exactly the union
    peaks; and for every union peak [u] and sample [s], [s] is listed under
    [u] exactly when one of the intervals that [s] passed in lies on [u]'s
    chromosome and strictly overlaps [u]; every list is duplicate-free and in
    ascending order. *)
Theorem union_peaks_membership_exact
    (peaks_by_sample : Dict.t string (list GenomicInterval)) :
  (forall p, In p (all_peaks peaks_by_sample) -> genomic_well_formed p) ->
  exists union_list membership chroms,
    union_peaks peaks_by_sample true = Some (union_list, Some membership)
    /\ union_list
       = flat_map
           (fun c => map (on_chrom c) (merge_1d (pooled peaks_by_sample c)))
           chroms
    /\ strictly_ascending chroms
    /\ (forall c,
          In c chroms
          <-> exists p, In p (all_peaks peaks_by_sample) /\ g_chrom p = c)
    /\ (forall u,
          Dict.mem genomic_eqb u membership = true <-> In u union_list)
    /\ forall u, In u union_list ->
         exists samples,
           Dict.get genomic_eqb u membership = Some samples
           /\ (forall s,
                 In s samples
                 <-> exists peaks p,
                       In (s, peaks) peaks_by_sample /\ In p peaks
                       /\ g_chrom p = g_chrom u
                       /\ intervals_overlap (interval_of p) (interval_of u)
                          = true)
           /\ NoDup samples
           /\ StronglySorted (fun a b => String.leb a b = true) samples.
Proof.
  intros Hwf.
  destruct (build_membership_spec peaks_by_sample Hwf) as [m [Hrun [Hk Hh]]].
  exists (build_union_list (fst (collect_peaks true peaks_by_sample))),
    (Dict.map_values sorted_set m),
    (sort_strings (Dict.keys (fst (collect_peaks true peaks_by_sample)))).
  split.
  { unfold union_peaks.
    destruct (collect_peaks true peaks_by_sample) as [all per].
    cbn [fst snd negb] in *. now rewrite Hrun. }
  split; [apply build_union_list_eq|].
  split; [apply sort_strings_strict, collected_keys_NoDup|].
  split; [intros c; rewrite sort_strings_in; apply collected_keys|].
  split.
  { intros u. rewrite <- Hk. unfold Dict.mem. rewrite get_map_values.
    now destruct (Dict.get genomic_eqb u m). }
  intros u Hu. rewrite get_map_values.
  pose proof (proj2 (Hk u) Hu) as Hmem. unfold Dict.mem in Hmem.
  destruct (Dict.get genomic_eqb u m) as [l|] eqn:E; [|discriminate].
  exists (sorted_set l). split; [reflexivity|]. split.
  - intros s. rewrite sorted_set_in.
    assert (Hl : In s l <-> has m u s).
    { unfold has. rewrite E. split; [eauto|]. now intros [l' [[= <-] H]]. }
    rewrite Hl, Hh. split.
    + intros [peaks [p [H1 [H2 [_ [H3 H4]]]]]]. eauto 6.
    + intros [peaks [p [H1 [H2 [H3 H4]]]]]. exists peaks, p. auto 6.
  - split; [apply sorted_set_NoDup|apply sorted_set_ascending].
Qed.

(** C4.  The union list is, chromosome by chromosome in ascending order of
    chromosome name, [merge_1d] of all intervals pooled from all samples on
    that chromosome; it covers exactly the points covered by the input on each
    chromosome, and two input intervals of one chromosome that overlap or
    merely touch lie inside one union peak. *)
Theorem union_peaks_union_list
    (peaks_by_sample : Dict.t string (list GenomicInterval))
    (return_membership : bool) :
  (forall p, In p (all_peaks peaks_by_sample) -> genomic_well_formed p) ->
  exists union_list membership chroms,
    union_peaks peaks_by_sample return_membership
    = Some (union_list, membership)
    /\ union_list
       = flat_map
           (fun c => map (on_chrom c) (merge_1d (pooled peaks_by_sample c)))
           chroms
    /\ strictly_ascending chroms
    /\ (forall c,
          In c chroms
          <-> exists p, In p (all_peaks peaks_by_sample) /\ g_chrom p = c)
    /\ (forall c x,
          (exists u, In u union_list /\ g_chrom u = c
                     /\ covers (interval_of u) x)
          <-> (exists p, In p (all_peaks peaks_by_sample) /\ g_chrom p = c
                         /\ covers (interval_of p) x))
    /\ (forall p q,
          In p (all_peaks peaks_by_sample) ->
          In q (all_peaks peaks_by_sample) ->
          g_chrom p = g_chrom q ->
          g_start p <= g_end q -> g_start q <= g_end p ->
          exists u,
            In u union_list /\ g_chrom u = g_chrom p
            /\ contains (interval_of u) (interval_of p)
            /\ contains (interval_of u) (interval_of q)).
Proof.
  intros Hwf.
  destruct (union_peaks_returns peaks_by_sample return_membership Hwf)
    as [membership Hrun].
  exists (build_union_list (fst (collect_peaks return_membership peaks_by_sample))),
    membership,
    (sort_strings
       (Dict.keys (fst (collect_peaks return_membership peaks_by_sample)))).
  split; [exact Hrun|]. split; [apply build_union_list_eq|]. split.
  { apply sort_strings_strict, collected_keys_NoDup. }
  split.
  { intros c. rewrite sort_strings_in. apply collected_keys. }
  split.
  - intros c x. split.
    + intros [u [Hu [Hc Hcov]]]. apply in_union_list in Hu.
      destruct Hu as [Hu _]. rewrite Hc in Hu.
      destruct (proj1 (merge_1d_covers (pooled peaks_by_sample c) x))
        as [a [Ha Hca]]; [eauto|].
      apply in_pooled in Ha. destruct Ha as [p [Hp [Hpc <-]]]. eauto.
    + intros [p [Hp [Hc Hcov]]].
      destruct (proj2 (merge_1d_covers (pooled peaks_by_sample c) x))
        as [a [Ha Hca]].
      { exists (interval_of p). split; [|exact Hcov]. apply in_pooled. eauto. }
      exists (on_chrom c a). split; [|split; [reflexivity|]].
      * apply in_union_list. rewrite interval_of_on_chrom.
        cbn [g_chrom on_chrom fst]. eauto.
      * now rewrite interval_of_on_chrom.
  - intros p q Hp Hq Hc Hpq Hqp.
    destruct (merge_1d_joins (pooled peaks_by_sample (g_chrom p))
                (interval_of p) (interval_of q)) as [a [Ha [Hap Haq]]];
      try (apply in_pooled; eauto); auto.
    exists (on_chrom (g_chrom p) a). rewrite interval_of_on_chrom.
    split; [|auto]. apply in_union_list. rewrite interval_of_on_chrom.
    cbn [g_chrom on_chrom fst]. eauto.
Qed.

Lemma union_peaks_membership_exact_witness :
  exists union_list membership,
    union_peaks
      [("s1", [("chr1", 100, 180)]); ("s2", [("chr1", 150, 220)]);
       ("s3", [("chr1", 210, 260); ("chr2", 5, 9)])]%string true
    = Some (union_list, Some membership)
    /\ union_list = [("chr1", 100, 260); ("chr2", 5, 9)]%string
    /\ membership
       = [("chr1", 100, 260, ["s1"; "s2"; "s3"]);
          ("chr2", 5, 9, ["s3"])]%string
    /\ (forall u,
          Dict.mem genomic_eqb u membership = true <-> In u union_list)
    /\ forall u, In u union_list ->
         exists samples,
           Dict.get genomic_eqb u membership = Some samples
           /\ (forall s,
                 In s samples
                 <-> exists peaks p,
                       In (s, peaks)
                         [("s1", [("chr1", 100, 180)]);
                          ("s2", [("chr1", 150, 220)]);
                          ("s3", [("chr1", 210, 260); ("chr2", 5, 9)])]%string
                       /\ In p peaks
                       /\ g_chrom p = g_chrom u
                       /\ intervals_overlap (interval_of p) (interval_of u)
                          = true)
           /\ NoDup samples
           /\ StronglySorted (fun a b => String.leb a b = true) samples.
Proof.
  destruct (union_peaks_membership_exact
              [("s1", [("chr1", 100, 180)]); ("s2", [("chr1", 150, 220)]);
               ("s3", [("chr1", 210, 260); ("chr2", 5, 9)])]%string)
    as [union_list [membership [chroms [Hrun [_ [_ [_ [Hkeys Hlists]]]]]]]].
  - intros p Hp. vm_compute in Hp.
    repeat (destruct Hp as [<-|Hp]; [reflexivity|]). destruct Hp.
  - exists union_list, membership.
    split; [exact Hrun|].
    pose proof Hrun as Hval. vm_compute in Hval.
    injection Hval as Hul Hm.
    split; [now symmetry|]. split; [now symmetry|].
    split; [exact Hkeys|exact Hlists].
Defined.

Lemma union_peaks_union_list_witness :
  exists union_list membership chroms,
    union_peaks
      [("s1", [("chr2", 50, 90); ("chr1", 100, 180)]);
       ("s2", [("chr1", 180, 220)])]%string false
    = Some (union_list, membership)
    /\ union_list
       = flat_map
           (fun c =>
              map (on_chrom c)
                (merge_1d
                   (pooled
                      [("s1", [("chr2", 50, 90); ("chr1", 100, 180)]);
                       ("s2", [("chr1", 180, 220)])]%string c)))
           chroms
    /\ union_list = [("chr1", 100, 220); ("chr2", 50, 90)]%string.
Proof.
  destruct (union_peaks_union_list
              [("s1", [("chr2", 50, 90); ("chr1", 100, 180)]);
               ("s2", [("chr1", 180, 220)])]%string false)
    as [union_list [membership [chroms [Hrun [Heq _]]]]].
  - intros p Hp. vm_compute in Hp.
    repeat (destruct Hp as [<-|Hp]; [reflexivity|]). destruct Hp.
  - exists union_list, membership, chroms.
    split; [exact Hrun|]. split; [exact Heq|].
    vm_compute in Hrun. now injection Hrun as <- _.
Defined.

(** ** Behaviour that departs from the specification *)

(** The caller's list after [merge_intervals] is the sorted list. *)
Lemma merge_intervals_input_after l :
  fst (merge_intervals l) = sort_by_key fst l.
Proof.
  unfold merge_intervals. destruct l as [|x l]; [reflexivity|].
  now destruct (sort_by_key fst (x :: l)).
Qed.

(** C2.  [merge_intervals] (and its copy [merge_intervals_1d]) sorts the
    list it is given in place: called on [[(5, 6); (1, 2)]], it leaves the
    caller's list as [[(1, 2); (5, 6)]]. *)
Theorem merge_intervals_reorders_input :
  fst (merge_intervals [(5, 6); (1, 2)]) = [(1, 2); (5, 6)]
  /\ fst (merge_intervals_1d [(5, 6); (1, 2)]) = [(1, 2); (5, 6)]
  /\ fst (merge_intervals [(5, 6); (1, 2)]) <> [(5, 6); (1, 2)].
Proof. repeat split. discriminate. Qed.

(** *** What the sweep does guarantee *)

Lemma sweep_1d_nil_l i b j res : sweep_1d [] i b j res = res.
Proof. destruct b; reflexivity. Qed.

Lemma sweep_1d_cons x a i y b j res :
  sweep_1d (x :: a) i (y :: b) j res
  = if snd x <=? snd y
    then sweep_1d a (S i) (y :: b) j
           (if intervals_overlap x y then res ++ [(i, j)] else res)
    else sweep_1d (x :: a) i b (S j)
           (if intervals_overlap x y then res ++ [(i, j)] else res).
Proof. reflexivity. Qed.

Lemma sweep_1d_acc a : forall i b j res,
  sweep_1d a i b j res = res ++ sweep_1d a i b j [].
Proof.
  induction a as [|x a IHa]; intros i b.
  - intros j res. now rewrite !sweep_1d_nil_l, app_nil_r.
  - induction b as [|y b IHb]; intros j res.
    + cbn. now rewrite app_nil_r.
    + rewrite !sweep_1d_cons.
      destruct (snd x <=? snd y), (intervals_overlap x y); cbn [app].
      * rewrite (IHa _ _ _ (res ++ [(i, j)])), (IHa _ _ _ [(i, j)]).
        now rewrite <- app_assoc.
      * apply IHa.
      * rewrite (IHb _ (res ++ [(i, j)])), (IHb _ [(i, j)]).
        now rewrite <- app_assoc.
      * apply IHb.
Qed.

(** Every reported pair is a pair of overlapping intervals at those
    positions, and the sweep only moves forward. *)
Lemma sweep_1d_sound a : forall i b j p q,
  In (p, q) (sweep_1d a i b j []) ->
  (i <= p)%nat /\ (j <= q)%nat
  /\ exists x y,
       nth_error a (p - i) = Some x /\ nth_error b (q - j) = Some y
       /\ intervals_overlap x y = true.
Proof.
  induction a as [|x a IHa]; intros i b.
  - intros j p q H. rewrite sweep_1d_nil_l in H. destruct H.
  - induction b as [|y b IHb]; intros j p q H; [destruct H|].
    rewrite sweep_1d_cons in H.
    assert (Hhead : intervals_overlap x y = true ->
              (i <= i)%nat /\ (j <= j)%nat
              /\ exists x0 y0,
                   nth_error (x :: a) (i - i) = Some x0
                   /\ nth_error (y :: b) (j - j) = Some y0
                   /\ intervals_overlap x0 y0 = true).
    { intros Hov. rewrite !Nat.sub_diag. repeat split; auto.
      exists x, y. auto. }
    destruct (snd x <=? snd y).
    + rewrite sweep_1d_acc in H. apply in_app_iff in H.
      destruct H as [H|H].
      * destruct (intervals_overlap x y); [|destruct H].
        destruct H as [[= <- <-]|[]]. now apply Hhead.
      * apply IHa in H. destruct H as [Hp [Hq [x0 [y0 [Hx [Hy Hov]]]]]].
        split; [lia|]. split; [lia|]. exists x0, y0.
        replace (p - i)%nat with (S (p - S i)) by lia. auto.
    + rewrite sweep_1d_acc in H. apply in_app_iff in H.
      destruct H as [H|H].
      * destruct (intervals_overlap x y); [|destruct H].
        destruct H as [[= <- <-]|[]]. now apply Hhead.
      * apply IHb in H. destruct H as [Hp [Hq [x0 [y0 [Hx [Hy Hov]]]]]].
        split; [lia|]. split; [lia|]. exists x0, y0.
        replace (q - j)%nat with (S (q - S j)) by lia. auto.
Qed.

Lemma sweep_1d_ahead a : forall i b j p q,
  In (p, q) (sweep_1d a i b j []) -> (i + j <= p + q)%nat.
Proof.
  intros i b j p q H. apply sweep_1d_sound in H. lia.
Qed.

(** No pair is reported twice. *)
Lemma sweep_1d_NoDup a : forall i b j, NoDup (sweep_1d a i b j []).
Proof.
  induction a as [|x a IHa]; intros i b.
  - intros j. rewrite sweep_1d_nil_l. constructor.
  - induction b as [|y b IHb]; intros j; [constructor|].
    rewrite sweep_1d_cons.
    destruct (snd x <=? snd y), (intervals_overlap x y); cbn [app]; auto;
      rewrite sweep_1d_acc; cbn [app]; constructor; auto;
      intros H; apply sweep_1d_ahead in H; lia.
Qed.

(** X1.  [find_overlaps_1d] reports no pair twice, and every pair [(p, q)]
    it reports is a pair of strictly overlapping intervals: the intervals at
    positions [p] and [q] of the two start-sorted lists. *)
Lemma find_overlaps_1d_sound_unique intervals_a intervals_b :
  NoDup (find_overlaps_1d intervals_a intervals_b)
  /\ forall p q,
       In (p, q) (find_overlaps_1d intervals_a intervals_b) ->
       exists x y,
         nth_error (sort_by_key fst intervals_a) p = Some x
         /\ nth_error (sort_by_key fst intervals_b) q = Some y
         /\ intervals_overlap x y = true.
Proof.
  unfold find_overlaps_1d. split; [apply sweep_1d_NoDup|].
  intros p q H. apply sweep_1d_sound in H.
  destruct H as [_ [_ H]]. now rewrite !Nat.sub_0_r in H.
Qed.

(** C1.  Both inputs are sorted by start and [A[1] = (1, 3)] strictly
    overlaps [B[0] = (2, 4)], but the sweep has moved past [B[0]] when it
    reaches [A[1]]: the pair [(1, 0)] is not reported, by the 1D sweep or by
    the chromosome-scoped one. *)
Theorem find_overlaps_misses_nested_pair :
  StronglySorted start_le [(0, 10); (1, 3)]
  /\ StronglySorted start_le [(2, 4); (5, 6)]
  /\ intervals_overlap (1, 3) (2, 4) = true
  /\ find_overlaps_1d [(0, 10); (1, 3)] [(2, 4); (5, 6)]
     = [(0, 0); (0, 1)]%nat
  /\ find_overlaps_genomic
       [("chr1", 0, 10); ("chr1", 1, 3)]%string
       [("chr1", 2, 4); ("chr1", 5, 6)]%string
     = [(0, 0); (0, 1)]%nat.
Proof.
  repeat split; repeat constructor; unfold start_le; simpl; lia.
Qed.

(* ================================================================== *)
(** * Further properties of the code *)
(* ================================================================== *)

(** ** Overlap test *)

(** X2.  For well-formed intervals the overlap test holds exactly when the
    two half-open intervals share an integer position ("overlap by at least
    1 base"). *)
Theorem intervals_overlap_shares_point (a b : Interval) :
  well_formed a -> well_formed b ->
  (intervals_overlap a b = true <-> exists x, covers a x /\ covers b x).
Proof.
  destruct a as [a_start a_end], b as [b_start b_end].
  unfold well_formed, covers, intervals_overlap. cbn [fst snd].
  intros Ha Hb. rewrite andb_true_iff, !Z.ltb_lt. split.
  - intros [H1 H2]. exists (Z.max a_start b_start). lia.
  - intros [x Hx]. lia.
Qed.

Lemma intervals_overlap_shares_point_witness :
  intervals_overlap (100, 180) (150, 220) = true
  <-> exists x, covers (100, 180) x /\ covers (150, 220) x.
Proof.
  apply (intervals_overlap_shares_point (100, 180) (150, 220));
    unfold well_formed; simpl; lia.
Defined.

(** X3.  Touching intervals are merged but do not overlap: [(a, b)] and
    [(b, c)] are merged into [(a, c)] by the merge, while the overlap test
    on them is false. *)
Theorem touching_merged_not_overlapping (a b c : Z) :
  a <= b -> b <= c ->
  merge_1d [(a, b); (b, c)] = [(a, c)]
  /\ intervals_overlap (a, b) (b, c) = false.
Proof.
  intros Hab Hbc. split.
  - rewrite merge_1d_run.
    rewrite sort_by_key_id
      by (repeat constructor; cbn [fst]; exact Hab).
    cbn [merge_run fst snd].
    rewrite (proj2 (Z.leb_le b b)) by lia. f_equal. f_equal. lia.
  - unfold intervals_overlap. apply andb_false_iff. right.
    apply Z.ltb_irrefl.
Qed.

Lemma touching_merged_not_overlapping_witness :
  merge_1d [(100, 180); (180, 220)] = [(100, 220)]
  /\ intervals_overlap (100, 180) (180, 220) = false.
Proof. apply (touching_merged_not_overlapping 100 180 220); lia. Defined.

(** ** The 1D sweep on non-overlapping lists *)

Lemma in_order_start_sorted l :
  in_order l -> Forall well_formed l -> StronglySorted start_le l.
Proof.
  induction 1 as [|a l Hs IH Hall]; intros Hwf; constructor.
  - apply IH. now inversion Hwf.
  - inversion Hwf as [|? ? Ha Hwf']; subst.
    eapply Forall_impl; [|exact Hall]. intros b Hb.
    unfold well_formed, start_le in *. cbv beta in Hb. lia.
Qed.

Lemma sweep_1d_complete a : forall i b j p q x y,
  in_order a -> in_order b ->
  nth_error a p = Some x -> nth_error b q = Some y ->
  intervals_overlap x y = true ->
  In ((i + p)%nat, (j + q)%nat) (sweep_1d a i b j []).
Proof.
  induction a as [|x0 a IHa]; intros i b.
  - intros j p q x y _ _ Hp. destruct p; discriminate.
  - induction b as [|y0 b IHb]; intros j p q x y Ha Hb Hp Hq Hov.
    + destruct q; discriminate.
    + rewrite sweep_1d_cons.
      apply StronglySorted_inv in Ha as Ha'. destruct Ha' as [Ha' Hx0].
      apply StronglySorted_inv in Hb as Hb'. destruct Hb' as [Hb' Hy0].
      rewrite Forall_forall in Hx0, Hy0.
      destruct p as [|p], q as [|q]; cbn [nth_error] in Hp, Hq.
      * (* the heads themselves *)
        injection Hp as <-. injection Hq as <-. rewrite Hov, !Nat.add_0_r.
        destruct (snd x0 <=? snd y0); rewrite sweep_1d_acc;
          apply in_app_iff; left; now left.
      * (* head of [a] against a later interval of [b] *)
        injection Hp as <-. apply nth_error_In in Hq as Hin.
        specialize (Hy0 y Hin). cbv beta in Hy0.
        destruct (snd x0 <=? snd y0) eqn:E.
        -- apply Z.leb_le in E. exfalso.
           destruct x0 as [xs xe], y as [ys ye].
           unfold intervals_overlap in Hov. cbn [fst snd] in *.
           apply andb_true_iff in Hov. rewrite !Z.ltb_lt in Hov. lia.
        -- rewrite sweep_1d_acc. apply in_app_iff. right.
           replace (j + S q)%nat with (S j + q)%nat by lia.
           now apply (IHb (S j) 0%nat q x0 y).
      * (* a later interval of [a] against the head of [b] *)
        injection Hq as <-. apply nth_error_In in Hp as Hin.
        specialize (Hx0 x Hin). cbv beta in Hx0.
        destruct (snd x0 <=? snd y0) eqn:E.
        -- rewrite sweep_1d_acc. apply in_app_iff. right.
           replace (i + S p)%nat with (S i + p)%nat by lia.
           now apply (IHa (S i) (y0 :: b) j p 0%nat x y0).
        -- apply Z.leb_gt in E. exfalso.
           destruct x as [xs xe], y0 as [ys ye].
           unfold intervals_overlap in Hov. cbn [fst snd] in *.
           apply andb_true_iff in Hov. rewrite !Z.ltb_lt in Hov. lia.
      * destruct (snd x0 <=? snd y0); rewrite sweep_1d_acc;
          apply in_app_iff; right.
        -- replace (i + S p)%nat with (S i + p)%nat by lia.
           now apply (IHa (S i) (y0 :: b) j p (S q) x y).
        -- replace (j + S q)%nat with (S j + q)%nat by lia.
           now apply (IHb (S j) (S p) q x y).
Qed.

(** X4.  When each of the two lists consists of well-formed intervals in
    ascending order that do not overlap one another, [find_overlaps_1d]
    reports exactly the pairs of positions whose intervals strictly
    overlap. *)
Theorem find_overlaps_1d_exact_on_disjoint
    (intervals_a intervals_b : list Interval) (i j : nat) :
  in_order intervals_a -> Forall well_formed intervals_a ->
  in_order intervals_b -> Forall well_formed intervals_b ->
  (In (i, j) (find_overlaps_1d intervals_a intervals_b)
   <-> exists x y,
         nth_error intervals_a i = Some x /\ nth_error intervals_b j = Some y
         /\ intervals_overlap x y = true).
Proof.
  intros Ha Hwa Hb Hwb. unfold find_overlaps_1d.
  rewrite !sort_by_key_id by now apply in_order_start_sorted.
  split.
  - intros H. apply sweep_1d_sound in H. destruct H as [_ [_ H]].
    now rewrite !Nat.sub_0_r in H.
  - intros [x [y [Hx [Hy Hov]]]].
    apply (sweep_1d_complete intervals_a 0 intervals_b 0 i j x y); auto.
Qed.

Lemma find_overlaps_1d_exact_on_disjoint_witness :
  In (1%nat, 0%nat)
    (find_overlaps_1d [(100, 150); (150, 220); (300, 330)]
       [(160, 310); (320, 360)])
  <-> exists x y,
        nth_error [(100, 150); (150, 220); (300, 330)] 1 = Some x
        /\ nth_error [(160, 310); (320, 360)] 0 = Some y
        /\ intervals_overlap x y = true.
Proof.
  apply (find_overlaps_1d_exact_on_disjoint
           [(100, 150); (150, 220); (300, 330)] [(160, 310); (320, 360)]
           1 0);
    unfold in_order, well_formed; repeat constructor; simpl; lia.
Defined.

(** ** The chromosome-scoped sweep *)

Lemma sweep_genomic_nil_l lb ov : sweep_genomic [] lb ov = ov.
Proof. destruct lb; reflexivity. Qed.

Lemma sweep_genomic_cons a_start a_end a_idx la b_start b_end b_idx lb ov :
  sweep_genomic ((a_start, a_end, a_idx) :: la)
    ((b_start, b_end, b_idx) :: lb) ov
  = if a_end <=? b_end
    then sweep_genomic la ((b_start, b_end, b_idx) :: lb)
           (if (a_start <? b_end) && (b_start <? a_end)
            then ov ++ [(a_idx, b_idx)] else ov)
    else sweep_genomic ((a_start, a_end, a_idx) :: la) lb
           (if (a_start <? b_end) && (b_start <? a_end)
            then ov ++ [(a_idx, b_idx)] else ov).
Proof. reflexivity. Qed.

(** Whatever the sweep adds to [ov] is a pair of indices of strictly
    overlapping entries of the two lists. *)
Lemma sweep_genomic_sound la : forall lb ov p q,
  In (p, q) (sweep_genomic la lb ov) ->
  In (p, q) ov
  \/ exists sa ea sb eb,
       In (sa, ea, p) la /\ In (sb, eb, q) lb /\ sa < eb /\ sb < ea.
Proof.
  induction la as [|[[sa ea] ia] la IHa]; intros lb.
  - intros ov p q H. rewrite sweep_genomic_nil_l in H. now left.
  - induction lb as [|[[sb eb] ib] lb IHb]; intros ov p q H; [now left|].
    rewrite sweep_genomic_cons in H.
    assert (Hacc : In (p, q)
                     (if (sa <? eb) && (sb <? ea)
                      then ov ++ [(ia, ib)] else ov) ->
                   In (p, q) ov
                   \/ exists sa0 ea0 sb0 eb0,
                        In (sa0, ea0, p) ((sa, ea, ia) :: la)
                        /\ In (sb0, eb0, q) ((sb, eb, ib) :: lb)
                        /\ sa0 < eb0 /\ sb0 < ea0).
    { destruct ((sa <? eb) && (sb <? ea)) eqn:E; [|now left].
      intros Hin. apply in_app_iff in Hin.
      destruct Hin as [Hin|[[= <- <-]|[]]]; [now left|]. right.
      apply andb_true_iff in E. rewrite !Z.ltb_lt in E.
      exists sa, ea, sb, eb. repeat split; try tauto; now left. }
    destruct (ea <=? eb).
    + apply IHa in H. destruct H as [H|[sa0 [ea0 [sb0 [eb0 [H1 H2]]]]]];
        [now apply Hacc|].
      right. exists sa0, ea0, sb0, eb0. split; [now right|exact H2].
    + apply IHb in H. destruct H as [H|[sa0 [ea0 [sb0 [eb0 [H1 [H2 H3]]]]]]];
        [now apply Hacc|].
      right. exists sa0, ea0, sb0, eb0. split; [exact H1|].
      split; [now right|exact H3].
Qed.

Lemma fold_sweep_genomic_sound (ga gb : string -> list Indexed) cs :
  forall ov p q,
    In (p, q)
      (fold_left (fun overlaps chrom => sweep_genomic (ga chrom) (gb chrom) overlaps)
         cs ov) ->
    In (p, q) ov
    \/ exists chrom sa ea sb eb,
         In (sa, ea, p) (ga chrom) /\ In (sb, eb, q) (gb chrom)
         /\ sa < eb /\ sb < ea.
Proof.
  induction cs as [|c cs IH]; intros ov p q H; [now left|].
  cbn [fold_left] in H. apply IH in H. destruct H as [H|H]; [|now right].
  apply sweep_genomic_sound in H. destruct H as [H|[sa [ea [sb [eb H]]]]];
    [now left|].
  right. exists c, sa, ea, sb, eb. exact H.
Qed.

(** X5.  Every pair [(i, j)] reported by [find_overlaps_genomic] refers to
    the original positions of two intervals that lie on the same chromosome
    and strictly overlap. *)
Theorem find_overlaps_genomic_sound
    (intervals_a intervals_b : list GenomicInterval) (i j : nat) :
  In (i, j) (find_overlaps_genomic intervals_a intervals_b) ->
  exists chrom sa ea sb eb,
    nth_error intervals_a i = Some (chrom, sa, ea)
    /\ nth_error intervals_b j = Some (chrom, sb, eb)
    /\ sa < eb /\ sb < ea.
Proof.
  unfold find_overlaps_genomic. intros H.
  apply (fold_sweep_genomic_sound
           (fun c => Dict.get_or String.eqb [] c (group_indexed intervals_a))
           (fun c => Dict.get_or String.eqb [] c (group_indexed intervals_b)))
    in H.
  destruct H as [[]|[chrom [sa [ea [sb [eb [Ha [Hb Hov]]]]]]]].
  apply group_indexed_in in Ha, Hb.
  exists chrom, sa, ea, sb, eb. auto.
Qed.

Lemma find_overlaps_genomic_sound_witness :
  exists chrom sa ea sb eb,
    nth_error [("chr1", 100, 180); ("chr2", 50, 100)]%string 1
    = Some (chrom, sa, ea)
    /\ nth_error [("chr1", 300, 310); ("chr2", 10, 60)]%string 1
       = Some (chrom, sb, eb)
    /\ sa < eb /\ sb < ea.
Proof.
  apply (find_overlaps_genomic_sound
           [("chr1", 100, 180); ("chr2", 50, 100)]%string
           [("chr1", 300, 310); ("chr2", 10, 60)]%string 1 1).
  vm_compute. now left.
Defined.

(** ** Grouping by chromosome *)

(** X6.  [group_by_chrom] has an entry exactly for the chromosomes that
    occur in the input, and the entry of a chromosome is the list of the
    [(start, end)] pairs of its intervals, rearranged into ascending order of
    start. *)
Theorem group_by_chrom_groups (intervals : list GenomicInterval) (c : string) :
  (Dict.mem String.eqb c (group_by_chrom intervals) = true
   <-> exists p, In p intervals /\ g_chrom p = c)
  /\ StronglySorted start_le
       (Dict.get_or String.eqb [] c (group_by_chrom intervals))
  /\ Permutation
       (Dict.get_or String.eqb [] c (group_by_chrom intervals))
       (map interval_of
          (filter (fun p => String.eqb c (g_chrom p)) intervals))
  /\ NoDup (Dict.keys (group_by_chrom intervals)).
Proof.
  unfold group_by_chrom.
  rewrite (fold_left_ext _ (group_step String.eqb g_chrom interval_of))
    by (intros d [[ch st] en]; reflexivity).
  repeat split.
  - rewrite (mem_iff String.eqb string_eqb_spec), keys_map_values.
    rewrite (group_fold_keys String.eqb string_eqb_spec). simpl. tauto.
  - rewrite (mem_iff String.eqb string_eqb_spec), keys_map_values.
    rewrite (group_fold_keys String.eqb string_eqb_spec). simpl. tauto.
  - rewrite get_or_map_values_sort. exact (sort_by_key_sorted fst _).
  - rewrite get_or_map_values_sort.
    rewrite (group_fold_get_or String.eqb string_eqb_spec).
    apply sort_by_key_perm.
  - rewrite keys_map_values.
    apply (group_fold_NoDup String.eqb string_eqb_spec). constructor.
Qed.

(** ** Merge: coverage, endpoints, canonical form *)

(** X7.  A point is covered by some input interval exactly when it is
    covered by an interval of the merged list, and then by the interval at
    one position only. *)
Theorem merge_1d_covers_exactly_once (intervals : list Interval) (x : Z) :
  covered intervals x
  <-> exists i u,
        nth_error (merge_1d intervals) i = Some u /\ covers u x
        /\ forall j v, nth_error (merge_1d intervals) j = Some v ->
                       covers v x -> j = i.
Proof.
  unfold covered. rewrite <- merge_1d_covers. split.
  - intros [u [Hu Hc]]. apply In_nth_error in Hu. destruct Hu as [i Hi].
    exists i, u. split; [exact Hi|]. split; [exact Hc|].
    intros j v Hj Hv.
    pose proof (merge_1d_apart intervals) as Hap.
    destruct (Nat.lt_trichotomy i j) as [Hlt|[->|Hlt]]; [|reflexivity|].
    + pose proof (StronglySorted_nth apart _ Hap i j u v Hlt Hi Hj) as H.
      unfold apart, covers in *. lia.
    + pose proof (StronglySorted_nth apart _ Hap j i v u Hlt Hj Hi) as H.
      unfold apart, covers in *. lia.
  - intros [i [u [Hi [Hc _]]]]. exists u. split; [|exact Hc].
    eapply nth_error_In; eauto.
Qed.

Lemma merge_run_origin rest : forall cur u,
  In u (merge_run cur rest) ->
  (fst u = fst cur \/ exists a, In a rest /\ fst a = fst u)
  /\ (snd u = snd cur \/ exists b, In b rest /\ snd b = snd u).
Proof.
  induction rest as [|[s e] rest IH]; intros cur u Hu; cbn [merge_run] in Hu.
  - destruct Hu as [<-|[]]. auto.
  - destruct (s <=? snd cur).
    + destruct (IH _ _ Hu) as [H1 H2]. cbn [fst snd] in *. split.
      * destruct H1 as [H1|[a [Ha H1]]]; [now left|].
        right. exists a. split; [now right|exact H1].
      * destruct H2 as [H2|[b [Hb H2]]].
        -- destruct (Z.max_spec (snd cur) e) as [[_ Hm]|[_ Hm]];
             rewrite Hm in H2.
           ++ right. exists (s, e). split; [now left|]. now rewrite H2.
           ++ now left.
        -- right. exists b. split; [now right|exact H2].
    + destruct Hu as [<-|Hu]; [auto|].
      destruct (IH _ _ Hu) as [H1 H2]. cbn [fst snd] in *. split.
      * right. destruct H1 as [H1|[a [Ha H1]]].
        -- exists (s, e). split; [now left|]. now rewrite H1.
        -- exists a. split; [now right|exact H1].
      * right. destruct H2 as [H2|[b [Hb H2]]].
        -- exists (s, e). split; [now left|]. now rewrite H2.
        -- exists b. split; [now right|exact H2].
Qed.

Lemma merge_run_length rest : forall cur,
  (List.length (merge_run cur rest) <= S (List.length rest))%nat.
Proof.
  induction rest as [|[s e] rest IH]; intros cur; cbn [merge_run]; [simpl; lia|].
  destruct (s <=? snd cur).
  - specialize (IH (fst cur, Z.max (snd cur) e)). simpl. lia.
  - specialize (IH (s, e)). simpl. lia.
Qed.

Lemma merge_1d_origin l u :
  In u (merge_1d l) ->
  (exists a, In a l /\ fst a = fst u) /\ (exists b, In b l /\ snd b = snd u).
Proof.
  rewrite merge_1d_run.
  assert (Hin : forall a, In a (sort_by_key fst l) -> In a l)
    by (intros a; apply sort_by_key_in).
  destruct (sort_by_key fst l) as [|first rest]; [intros []|].
  intros Hu. destruct (merge_run_origin rest first u Hu) as [H1 H2]. split.
  - destruct H1 as [H1|[a [Ha H1]]].
    + exists first. split; [apply Hin; now left|auto].
    + exists a. split; [apply Hin; now right|exact H1].
  - destruct H2 as [H2|[b [Hb H2]]].
    + exists first. split; [apply Hin; now left|auto].
    + exists b. split; [apply Hin; now right|exact H2].
Qed.

(** X8.  The merge invents no coordinate and adds no interval: the merged
    list is no longer than the input, and every merged interval starts where
    some input interval starts and ends where some input interval ends. *)
Theorem merge_1d_endpoints_from_input (intervals : list Interval) :
  (List.length (merge_1d intervals) <= List.length intervals)%nat
  /\ forall u, In u (merge_1d intervals) ->
       (exists a, In a intervals /\ fst a = fst u)
       /\ (exists b, In b intervals /\ snd b = snd u).
Proof.
  split; [|intros u; apply merge_1d_origin].
  rewrite merge_1d_run.
  rewrite <- (stable_sort_length (fun x y => fst x <=? fst y) intervals).
  fold (sort_by_key (A := Z * Z) fst intervals).
  destruct (sort_by_key fst intervals) as [|first rest]; [simpl; lia|].
  apply merge_run_length.
Qed.

(** Two lists of well-formed intervals that are pairwise apart in
    ascending order and cover the same points are the same list. *)
Lemma apart_lists_unique : forall l1 l2 : list Interval,
  StronglySorted apart l1 -> StronglySorted apart l2 ->
  Forall well_formed l1 -> Forall well_formed l2 ->
  (forall x, covered l1 x <-> covered l2 x) ->
  l1 = l2.
Proof.
  assert (Hfirst : forall (u : Interval) l v l',
            StronglySorted apart (u :: l) -> StronglySorted apart (v :: l') ->
            Forall well_formed (u :: l) -> Forall well_formed (v :: l') ->
            (forall x, covered (u :: l) x -> covered (v :: l') x) ->
            fst v <= fst u /\ (fst v = fst u -> snd u <= snd v)).
  { intros u l v l' Hs1 Hs2 Hw1 Hw2 Hcov.
    apply StronglySorted_inv in Hs1. destruct Hs1 as [_ Hu].
    apply StronglySorted_inv in Hs2. destruct Hs2 as [_ Hv].
    rewrite Forall_forall in Hu, Hv, Hw1, Hw2.
    pose proof (Hw1 u (or_introl eq_refl)) as Hwu.
    pose proof (Hw2 v (or_introl eq_refl)) as Hwv.
    unfold covered, well_formed, apart, covers in *. split.
    - destruct (Hcov (fst u)) as [w [Hw Hc]].
      { exists u. split; [now left|]. lia. }
      destruct Hw as [<-|Hw]; [lia|]. specialize (Hv w Hw). lia.
    - intros Heq. destruct (Z_le_gt_dec (snd u) (snd v)) as [H|H]; [exact H|].
      exfalso. destruct (Hcov (snd v)) as [w [Hw Hc]].
      { exists u. split; [now left|]. lia. }
      destruct Hw as [<-|Hw]; [lia|]. specialize (Hv w Hw). lia. }
  induction l1 as [|u l1 IH]; intros l2 Hs1 Hs2 Hw1 Hw2 Hcov.
  - destruct l2 as [|v l2]; [reflexivity|]. exfalso.
    inversion Hw2 as [|? ? Hwv _]; subst.
    destruct (proj2 (Hcov (fst v))) as [w [[] _]].
    exists v. split; [now left|]. unfold covers, well_formed in *. lia.
  - destruct l2 as [|v l2].
    + exfalso. inversion Hw1 as [|? ? Hwu _]; subst.
      destruct (proj1 (Hcov (fst u))) as [w [[] _]].
      exists u. split; [now left|]. unfold covers, well_formed in *. lia.
    + destruct (Hfirst u l1 v l2 Hs1 Hs2 Hw1 Hw2 (fun x => proj1 (Hcov x)))
        as [H1 H2].
      destruct (Hfirst v l2 u l1 Hs2 Hs1 Hw2 Hw1 (fun x => proj2 (Hcov x)))
        as [H3 H4].
      assert (Heq : u = v).
      { destruct u, v. cbn [fst snd] in *. f_equal; lia. }
      subst v. f_equal.
      apply StronglySorted_inv in Hs1 as Hs1'. destruct Hs1' as [Hs1' Hu1].
      apply StronglySorted_inv in Hs2 as Hs2'. destruct Hs2' as [Hs2' Hu2].
      inversion Hw1 as [|? ? Hwu Hw1']; subst.
      inversion Hw2 as [|? ? _ Hw2']; subst.
      apply IH; auto.
      rewrite Forall_forall in Hu1, Hu2, Hw1', Hw2'.
      intros x. split; intros [w [Hw Hc]].
      * destruct (proj1 (Hcov x)) as [w' [Hw' Hc']].
        { exists w. split; [now right|exact Hc]. }
        destruct Hw' as [<-|Hw']; [|exists w'; auto].
        exfalso. specialize (Hu1 w Hw). unfold apart, covers in *. lia.
      * destruct (proj2 (Hcov x)) as [w' [Hw' Hc']].
        { exists w. split; [now right|exact Hc]. }
        destruct Hw' as [<-|Hw']; [|exists w'; auto].
        exfalso. specialize (Hu2 w Hw). unfold apart, covers in *. lia.
Qed.

(** The merged list depends only on the points the input covers. *)
Lemma merge_1d_by_coverage l1 l2 :
  Forall well_formed l1 -> Forall well_formed l2 ->
  (forall x, covered l1 x <-> covered l2 x) ->
  merge_1d l1 = merge_1d l2.
Proof.
  intros Hw1 Hw2 Hcov. apply apart_lists_unique.
  - apply merge_1d_apart.
  - apply merge_1d_apart.
  - now apply merge_1d_well_formed.
  - now apply merge_1d_well_formed.
  - intros x. unfold covered. rewrite !merge_1d_covers. apply Hcov.
Qed.

(** X9.  The merged list does not depend on the order of the input: two
    lists of well-formed intervals that are permutations of one another merge
    to the same list. *)
Theorem merge_1d_order_independent (l1 l2 : list Interval) :
  Permutation l1 l2 -> Forall well_formed l1 ->
  merge_1d l1 = merge_1d l2.
Proof.
  intros Hperm Hw1. apply merge_1d_by_coverage; [exact Hw1| |].
  - eapply Permutation_Forall; eauto.
  - intros x. unfold covered. split; intros [a [Ha Hc]]; exists a; split; auto.
    + eapply Permutation_in; eauto.
    + eapply Permutation_in; [symmetry|]; eauto.
Qed.

Lemma merge_1d_order_independent_witness :
  merge_1d [(150, 220); (100, 180)] = merge_1d [(100, 180); (150, 220)].
Proof.
  apply (merge_1d_order_independent [(150, 220); (100, 180)]
           [(100, 180); (150, 220)]).
  - apply perm_swap.
  - repeat constructor.
Defined.

(** X10.  Merging can be done in parts: merging the concatenation of two
    lists of well-formed intervals gives the same list as merging each part
    first and then merging the two results together. *)
Theorem merge_1d_of_parts (l1 l2 : list Interval) :
  Forall well_formed l1 -> Forall well_formed l2 ->
  merge_1d (l1 ++ l2) = merge_1d (merge_1d l1 ++ merge_1d l2).
Proof.
  intros Hw1 Hw2. apply merge_1d_by_coverage.
  - apply Forall_app. auto.
  - apply Forall_app. split; now apply merge_1d_well_formed.
  - intros x. unfold covered.
    assert (Happ : forall la lb : list Interval,
              (exists a, In a (la ++ lb) /\ covers a x)
              <-> (exists a, In a la /\ covers a x)
                  \/ (exists a, In a lb /\ covers a x)).
    { intros la lb. split.
      - intros [a [Ha Hc]]. apply in_app_iff in Ha. destruct Ha; eauto.
      - intros [[a [Ha Hc]]|[a [Ha Hc]]]; exists a; split; auto;
          apply in_app_iff; auto. }
    rewrite !Happ, !merge_1d_covers. reflexivity.
Qed.

Lemma merge_1d_of_parts_witness :
  merge_1d ([(100, 180); (300, 330)] ++ [(150, 220); (320, 350)])
  = merge_1d (merge_1d [(100, 180); (300, 330)]
              ++ merge_1d [(150, 220); (320, 350)]).
Proof.
  apply (merge_1d_of_parts [(100, 180); (300, 330)] [(150, 220); (320, 350)]);
    repeat constructor.
Defined.

(** X11.  What [merge_intervals] leaves in the caller's list: the same
    intervals rearranged into ascending order of start; a list that is
    already in that order is left as it is. *)
Theorem merge_intervals_input_sorted_in_place (intervals : list Interval) :
  StronglySorted start_le (fst (merge_intervals intervals))
  /\ Permutation (fst (merge_intervals intervals)) intervals
  /\ (StronglySorted start_le intervals ->
      fst (merge_intervals intervals) = intervals).
Proof.
  rewrite merge_intervals_input_after. split; [|split].
  - exact (sort_by_key_sorted fst intervals).
  - apply sort_by_key_perm.
  - intros Hs. now apply sort_by_key_id.
Qed.

(** ** Promoter windows *)

Lemma fold_left_snoc_flat_map {A B} (f : A -> list B) l : forall acc,
  fold_left (fun acc x => acc ++ f x) l acc = acc ++ flat_map f l.
Proof.
  induction l as [|x l IH]; intros acc; cbn [fold_left flat_map].
  - now rewrite app_nil_r.
  - now rewrite IH, app_assoc.
Qed.

Lemma build_promoters_flat_map genes up down :
  build_promoters genes up down = flat_map (promoter_of up down) genes.
Proof.
  unfold build_promoters.
  rewrite (fold_left_ext _ (fun acc g => acc ++ promoter_of up down g)).
  - apply (fold_left_snoc_flat_map (promoter_of up down) genes []).
  - intros feats g. unfold promoter_of.
    destruct (String.eqb (gr_strand g) "+");
      match goal with |- context [?a >? ?b] => destruct (a >? b) end;
      now rewrite ?app_nil_r.
Qed.

Lemma build_promoters_in genes up down w :
  In w (build_promoters genes up down)
  <-> exists g, In g genes /\ In w (promoter_of up down g).
Proof. rewrite build_promoters_flat_map. apply in_flat_map. Qed.

(** X12.  Every promoter window that [build_promoters] returns is
    non-empty and starts at 0 or later, carries the chromosome, name and TSS
    of a gene of the input, and has the bounds of that gene's strand:
    [max(0, tss - upstream)] to [tss + downstream] for ["+"], and
    [max(0, tss - downstream)] to [tss + upstream] for any other strand. *)
Theorem build_promoters_windows (genes : list GeneRecord)
    (upstream downstream : Z) (w : FeatureInterval) :
  In w (build_promoters genes upstream downstream) ->
  0 <= fi_start w < fi_end w
  /\ exists g,
       In g genes
       /\ fi_chrom w = gr_chrom g /\ fi_gene_name w = gr_gene_name g
       /\ fi_tss w = gr_tss g
       /\ (gr_strand g = "+"%string ->
           fi_start w = Z.max 0 (gr_tss g - upstream)
           /\ fi_end w = gr_tss g + downstream)
       /\ (gr_strand g <> "+"%string ->
           fi_start w = Z.max 0 (gr_tss g - downstream)
           /\ fi_end w = gr_tss g + upstream).
Proof.
  intros H. apply build_promoters_in in H. destruct H as [g [Hg Hw]].
  unfold promoter_of in Hw.
  destruct (String.eqb (gr_strand g) "+") eqn:Es;
    [apply String.eqb_eq in Es|apply String.eqb_neq in Es];
    match type of Hw with
    | context [?a >? ?b] => destruct (a >? b) eqn:E
    end; try destruct Hw as [<-|[]]; try destruct Hw;
    apply Z.gtb_lt in E; cbn [fi_start fi_end fi_chrom fi_gene_name fi_tss];
    (split; [lia|]); exists g; repeat split; auto; congruence.
Qed.

Lemma build_promoters_windows_witness :
  0 <= fi_start (mkFeature "chr1" 0 350 "G1" 150)
    < fi_end (mkFeature "chr1" 0 350 "G1" 150)
  /\ exists g,
       In g [mkGene "chr1" 150 1000 "+" "g1" "G1" 150]%string
       /\ fi_chrom (mkFeature "chr1" 0 350 "G1" 150) = gr_chrom g
       /\ fi_gene_name (mkFeature "chr1" 0 350 "G1" 150) = gr_gene_name g
       /\ fi_tss (mkFeature "chr1" 0 350 "G1" 150) = gr_tss g
       /\ (gr_strand g = "+"%string ->
           fi_start (mkFeature "chr1" 0 350 "G1" 150)
           = Z.max 0 (gr_tss g - 2000)
           /\ fi_end (mkFeature "chr1" 0 350 "G1" 150) = gr_tss g + 200)
       /\ (gr_strand g <> "+"%string ->
           fi_start (mkFeature "chr1" 0 350 "G1" 150)
           = Z.max 0 (gr_tss g - 200)
           /\ fi_end (mkFeature "chr1" 0 350 "G1" 150) = gr_tss g + 2000).
Proof.
  apply (build_promoters_windows
           [mkGene "chr1" 150 1000 "+" "g1" "G1" 150]%string 2000 200
           (mkFeature "chr1" 0 350 "G1" 150)).
  vm_compute. now left.
Defined.

(** X13.  With positive upstream and downstream lengths and no negative
    TSS, [build_promoters] returns one window per gene, in the order of the
    genes, and each window contains the TSS of its gene. *)
Theorem build_promoters_one_per_gene (genes : list GeneRecord)
    (upstream downstream : Z) :
  0 < upstream -> 0 < downstream ->
  (forall g, In g genes -> 0 <= gr_tss g) ->
  map (fun w => (fi_chrom w, fi_gene_name w, fi_tss w))
    (build_promoters genes upstream downstream)
  = map (fun g => (gr_chrom g, gr_gene_name g, gr_tss g)) genes
  /\ forall w, In w (build_promoters genes upstream downstream) ->
       fi_start w <= fi_tss w < fi_end w.
Proof.
  intros Hup Hdown Htss.
  assert (Hone : forall g, In g genes ->
            exists w, promoter_of upstream downstream g = [w]
                      /\ fi_chrom w = gr_chrom g
                      /\ fi_gene_name w = gr_gene_name g
                      /\ fi_tss w = gr_tss g
                      /\ fi_start w <= fi_tss w < fi_end w).
  { intros g Hg. specialize (Htss g Hg). unfold promoter_of.
    destruct (String.eqb (gr_strand g) "+");
      match goal with
      | |- context [?a >? ?b] =>
          replace (a >? b) with true by (symmetry; apply Z.gtb_lt; lia)
      end;
      eexists; (split; [reflexivity|]);
      cbn [fi_start fi_end fi_chrom fi_gene_name fi_tss];
      repeat split; lia. }
  rewrite build_promoters_flat_map. split.
  - clear Htss. induction genes as [|g genes IH]; [reflexivity|].
    cbn [flat_map map].
    destruct (Hone g (or_introl eq_refl)) as [w [-> [H1 [H2 [H3 _]]]]].
    cbn [app map]. rewrite H1, H2, H3. f_equal.
    apply IH. intros g' Hg'. apply Hone. now right.
  - intros w Hw. apply in_flat_map in Hw. destruct Hw as [g [Hg Hw]].
    destruct (Hone g Hg) as [w' [E [_ [_ [_ Hin]]]]].
    rewrite E in Hw. destruct Hw as [<-|[]]. exact Hin.
Qed.

Lemma build_promoters_one_per_gene_witness :
  map (fun w => (fi_chrom w, fi_gene_name w, fi_tss w))
    (build_promoters
       [mkGene "chr1" 150 1000 "+" "g1" "G1" 150;
        mkGene "chr1" 5000 9000 "-" "g2" "G2" 8999]%string 2000 200)
  = map (fun g => (gr_chrom g, gr_gene_name g, gr_tss g))
      [mkGene "chr1" 150 1000 "+" "g1" "G1" 150;
       mkGene "chr1" 5000 9000 "-" "g2" "G2" 8999]%string
  /\ forall w,
       In w (build_promoters
               [mkGene "chr1" 150 1000 "+" "g1" "G1" 150;
                mkGene "chr1" 5000 9000 "-" "g2" "G2" 8999]%string 2000 200) ->
       fi_start w <= fi_tss w < fi_end w.
Proof.
  apply (build_promoters_one_per_gene
           [mkGene "chr1" 150 1000 "+" "g1" "G1" 150;
            mkGene "chr1" 5000 9000 "-" "g2" "G2" 8999]%string 2000 200);
    try lia.
  intros g Hg. vm_compute in Hg.
  repeat (destruct Hg as [<-|Hg]; [simpl; lia|]). destruct Hg.
Defined.

(** ** The TSS index *)

(** X14.  [build_tss_index] has an entry exactly for the chromosomes that
    carry a gene.  In an entry the TSS positions are in ascending order, the
    name list is aligned with them (same length, and position by position the
    TSS and the name of one gene of that chromosome), and every gene of the
    chromosome appears. *)
Theorem build_tss_index_entries (genes : list GeneRecord) (chrom : string) :
  (Dict.get String.eqb chrom (build_tss_index genes) = None
   <-> genes_on chrom genes = [])
  /\ forall tss_list name_list,
       Dict.get String.eqb chrom (build_tss_index genes)
       = Some (tss_list, name_list) ->
       StronglySorted Z.le tss_list
       /\ List.length name_list = List.length tss_list
       /\ (forall i t, nth_error tss_list i = Some t ->
             exists n g,
               nth_error name_list i = Some n /\ In g genes
               /\ gr_chrom g = chrom /\ gr_tss g = t /\ gr_gene_name g = n)
       /\ (forall g, In g genes -> gr_chrom g = chrom ->
             exists i, nth_error tss_list i = Some (gr_tss g)
                       /\ nth_error name_list i = Some (gr_gene_name g)).
Proof.
  rewrite build_tss_index_get. cbv zeta. split.
  - destruct (genes_on chrom genes); split; congruence.
  - intros tss_list name_list H.
    destruct (genes_on chrom genes) as [|g0 gs] eqn:Egs; [discriminate|].
    rewrite <- Egs in H. injection H as <- <-.
    set (arr := sort_by_key fst (map tss_entry (genes_on chrom genes))).
    assert (Hin : forall p, In p arr
                    <-> exists g, In g genes /\ gr_chrom g = chrom
                                  /\ p = tss_entry g).
    { intros p. subst arr. rewrite sort_by_key_in, in_map_iff.
      unfold genes_on. split.
      - intros [g [<- Hg]]. apply filter_In in Hg. destruct Hg as [Hg Hc].
        apply String.eqb_eq in Hc. eauto.
      - intros [g [Hg [Hc ->]]]. exists g. split; [reflexivity|].
        apply filter_In. split; [exact Hg|]. now apply String.eqb_eq. }
    split; [|split; [|split]].
    + apply (StronglySorted_map fst Z.le). exact (sort_by_key_sorted fst _).
    + now rewrite !length_map.
    + intros i t Ht. rewrite nth_error_map in Ht.
      destruct (nth_error arr i) as [p|] eqn:Ep; [|discriminate].
      injection Ht as <-. apply nth_error_In in Ep as Hp.
      apply Hin in Hp. destruct Hp as [g [Hg [Hc ->]]].
      exists (gr_gene_name g), g. rewrite nth_error_map, Ep. auto.
    + intros g Hg Hc.
      assert (Hp : In (tss_entry g) arr) by (apply Hin; eauto).
      apply In_nth_error in Hp. destruct Hp as [i Hi]. exists i.
      rewrite !nth_error_map, Hi. auto.
Qed.

(** ** Rows of [annotate_peaks] *)

Lemma enumerate_length {A} (l : list A) :
  List.length (enumerate l) = List.length l.
Proof.
  unfold enumerate. rewrite length_combine, length_seq. apply Nat.min_id.
Qed.

(** X15.  [annotate_peaks] returns one row per peak, in the order of the
    peaks: the row at position [idx] carries [idx] and the chromosome, start
    and end of the peak at that position. *)
Theorem annotate_peaks_one_row_per_peak (peaks : list GenomicInterval)
    (genes : list GeneRecord) (upstream downstream : Z) :
  List.length (annotate_peaks peaks genes upstream downstream)
  = List.length peaks
  /\ forall idx chrom s e,
       nth_error peaks idx = Some (chrom, s, e) ->
       exists row,
         nth_error (annotate_peaks peaks genes upstream downstream) idx
         = Some row
         /\ ar_idx row = idx /\ ar_chrom row = chrom
         /\ ar_start row = s /\ ar_end row = e.
Proof.
  split.
  - unfold annotate_peaks. now rewrite length_map, enumerate_length.
  - intros idx chrom s e Hpeak.
    exists (row_of genes upstream downstream idx chrom s e).
    split; [now apply annotate_peaks_row|].
    unfold row_of. destruct (classify _ _ _ _) as [ann [gene dist]].
    repeat split.
Qed.

Lemma candidates_none_without_gene chrom s e genes up down :
  genes_on chrom genes = [] ->
  candidates_on chrom s e (build_promoters genes up down) = []
  /\ candidates_on chrom s e (map gene_body_feature genes) = [].
Proof.
  intros Hnone.
  assert (Hno : forall g, In g genes -> gr_chrom g <> chrom).
  { intros g Hg Hc.
    assert (H : In g (genes_on chrom genes)).
    { apply filter_In. split; [exact Hg|]. now apply String.eqb_eq. }
    rewrite Hnone in H. destruct H. }
  split.
  - destruct (candidates_on chrom s e (build_promoters genes up down))
      as [|f l] eqn:E; [reflexivity|]. exfalso.
    assert (Hf : In f (candidates_on chrom s e (build_promoters genes up down)))
      by (rewrite E; now left).
    apply candidates_on_in in Hf. destruct Hf as [Hf [Hc _]].
    apply build_promoters_in in Hf. destruct Hf as [g [Hg Hw]].
    apply (Hno g Hg). rewrite <- Hc. unfold promoter_of in Hw.
    destruct (String.eqb (gr_strand g) "+");
      match type of Hw with
      | context [?a >? ?b] => destruct (a >? b)
      end; try (destruct Hw as [<-|[]]; reflexivity); destruct Hw.
  - destruct (candidates_on chrom s e (map gene_body_feature genes))
      as [|f l] eqn:E; [reflexivity|]. exfalso.
    assert (Hf : In f (candidates_on chrom s e (map gene_body_feature genes)))
      by (rewrite E; now left).
    apply candidates_on_in in Hf. destruct Hf as [Hf [Hc _]].
    apply in_map_iff in Hf. destruct Hf as [g [<- Hg]].
    now apply (Hno g Hg).
Qed.

(** X16.  A peak on a chromosome that carries no gene is always
    [intergenic], with the empty gene name and distance 0; in particular
    every peak is, when the gene list is empty. *)
Theorem annotate_peaks_chromosome_without_genes (peaks : list GenomicInterval)
    (genes : list GeneRecord) (upstream downstream : Z)
    (idx : nat) (chrom : string) (s e : Z) :
  nth_error peaks idx = Some (chrom, s, e) ->
  genes_on chrom genes = [] ->
  nth_error (annotate_peaks peaks genes upstream downstream) idx
  = Some (mkRow idx chrom s e intergenic EmptyString 0).
Proof.
  intros Hpeak Hnone. rewrite (annotate_peaks_row _ _ _ _ _ _ _ _ Hpeak).
  f_equal. unfold row_of, classify.
  destruct (candidates_none_without_gene chrom s e genes upstream downstream
              Hnone) as [-> ->].
  rewrite build_tss_index_get. cbv zeta. rewrite Hnone. reflexivity.
Qed.

Lemma annotate_peaks_chromosome_without_genes_witness :
  nth_error
    (annotate_peaks [("chr1", 100, 180); ("chr2", 1, 5)]%string
       [mkGene "chr1" 150 1000 "+" "g1" "G1" 150]%string 2000 200) 1
  = Some (mkRow 1 "chr2" 1 5 intergenic EmptyString 0).
Proof.
  apply (annotate_peaks_chromosome_without_genes
           [("chr1", 100, 180); ("chr2", 1, 5)]%string
           [mkGene "chr1" 150 1000 "+" "g1" "G1" 150]%string 2000 200
           1%nat "chr2"%string 1 5); reflexivity.
Defined.

(** ** What [annotate_overlaps] never stores *)

Lemma scan_features_sound fs pstart pend : forall cand f,
  In f (scan_features fs pstart pend cand) ->
  In f cand \/ (In f fs /\ overlaps_feature pstart pend f = true).
Proof.
  induction fs as [|g fs IH]; intros cand f H; cbn [scan_features] in H.
  - now left.
  - destruct (fi_start g <? pend); [|now left].
    apply IH in H. destruct H as [H|[H1 H2]].
    + fold (overlaps_feature pstart pend g) in H.
      destruct (overlaps_feature pstart pend g) eqn:E; [|now left].
      apply in_app_iff in H. destruct H as [H|[<-|[]]]; [now left|].
      right. split; [now left|exact E].
    + right. split; [now right|exact H2].
Qed.

Lemma advance_features_incl fs pstart f :
  In f (advance_features fs pstart) -> In f fs.
Proof.
  induction fs as [|g fs IH]; cbn [advance_features]; [auto|].
  destruct (fi_end g <=? pstart); [|auto]. intros H. right. auto.
Qed.

Lemma fold_peaks_sound peaks fg c p_list : forall fs hits,
  (forall p, In p p_list ->
     nth_error peaks (ix_idx p) = Some (c, ix_start p, ix_end p)) ->
  (forall f, In f fs -> In f (Dict.get_or String.eqb [] c fg)) ->
  hits_sound peaks fg hits ->
  hits_sound peaks fg (snd (fold_left overlaps_of_peak p_list (fs, hits))).
Proof.
  induction p_list as [|[[ps pe] pidx] p_list IH]; intros fs hits Hp Hfs Hh;
    [exact Hh|].
  cbn [fold_left]. rewrite overlaps_of_peak_eq. cbv zeta.
  pose proof (Hp _ (or_introl eq_refl)) as Hpeak.
  unfold ix_idx, ix_start, ix_end in Hpeak. cbn [fst snd] in Hpeak.
  apply IH.
  - intros p Hin. apply Hp. now right.
  - intros f Hf. apply Hfs. eapply advance_features_incl; eauto.
  - assert (Hcand : forall f,
              In f (scan_features (advance_features fs ps) ps pe []) ->
              In f (Dict.get_or String.eqb [] c fg)
              /\ overlaps_feature ps pe f = true).
    { intros f Hf. apply scan_features_sound in Hf.
      destruct Hf as [[]|[Hf Hov]]. split; [|exact Hov].
      apply Hfs. eapply advance_features_incl; eauto. }
    destruct (scan_features (advance_features fs ps) ps pe [])
      as [|f0 cand] eqn:E; [exact Hh|].
    intros idx l Hget. destruct (Nat.eq_dec idx pidx) as [->|Hne].
    + rewrite (get_set_eq Nat.eqb nat_eqb_spec) in Hget. injection Hget as <-.
      split; [intros H; apply app_eq_nil in H; destruct H; discriminate|].
      exists c, ps, pe. split; [exact Hpeak|].
      intros f Hf. apply in_app_iff in Hf. destruct Hf as [Hf|Hf]; [|auto].
      unfold Dict.get_or in Hf.
      destruct (Dict.get Nat.eqb pidx hits) as [old|] eqn:Eold; [|destruct Hf].
      destruct (Hh pidx old Eold) as [_ [c' [s' [e' [Hpeak' Hold]]]]].
      pose proof (eq_trans (eq_sym Hpeak') Hpeak) as Heq.
      injection Heq as -> -> ->. auto.
    + rewrite (get_set_neq Nat.eqb nat_eqb_spec) in Hget by congruence.
      now apply Hh.
Qed.

(** X17.  Whatever the feature lists, sorted or not, an entry of the result
    of [annotate_overlaps] is never empty, belongs to the position of a peak,
    and holds only features of that peak's chromosome that strictly overlap
    the peak. *)
Theorem annotate_overlaps_entries_sound (peaks : list GenomicInterval)
    (feature_grouped : Dict.t string (list FeatureInterval))
    (idx : nat) (cands : list FeatureInterval) :
  Dict.get Nat.eqb idx (annotate_overlaps peaks feature_grouped) = Some cands ->
  cands <> []
  /\ exists chrom s e,
       nth_error peaks idx = Some (chrom, s, e)
       /\ forall f, In f cands ->
            In f (Dict.get_or String.eqb [] chrom feature_grouped)
            /\ overlaps_feature s e f = true.
Proof.
  assert (H : hits_sound peaks feature_grouped
                (annotate_overlaps peaks feature_grouped)).
  { unfold annotate_overlaps.
    assert (H0 : hits_sound peaks feature_grouped []) by (intros i l; discriminate).
    revert H0. generalize (@nil (nat * list FeatureInterval)).
    induction (common_keys (group_by_chrom_peaks peaks) feature_grouped)
      as [|c cs IH]; intros hits Hh; [exact Hh|].
    cbn [fold_left]. apply IH. apply fold_peaks_sound with (c := c); auto.
    intros [[ps pe] pidx] Hin. now apply group_indexed_in. }
  intros Hget. exact (H idx cands Hget).
Qed.

Lemma annotate_overlaps_entries_sound_witness :
  [mkFeature "chr1" 90 400 "B" 95; mkFeature "chr1" 0 120 "A" 50]%string <> []
  /\ exists chrom s e,
       nth_error [("chr1", 100, 180)]%string 0 = Some (chrom, s, e)
       /\ forall f,
            In f [mkFeature "chr1" 90 400 "B" 95;
                  mkFeature "chr1" 0 120 "A" 50]%string ->
            In f (Dict.get_or String.eqb [] chrom
                    [("chr1", [mkFeature "chr1" 90 400 "B" 95;
                               mkFeature "chr1" 0 120 "A" 50])]%string)
            /\ overlaps_feature s e f = true.
Proof.
  apply (annotate_overlaps_entries_sound [("chr1", 100, 180)]%string
           [("chr1", [mkFeature "chr1" 90 400 "B" 95;
                      mkFeature "chr1" 0 120 "A" 50])]%string 0).
  reflexivity.
Defined.

(** ** The union list and its membership *)

Lemma union_peaks_both pbs :
  (forall p, In p (all_peaks pbs) -> genomic_well_formed p) ->
  exists m,
    union_peaks pbs false
    = Some (build_union_list (fst (collect_peaks true pbs)), None)
    /\ union_peaks pbs true
       = Some (build_union_list (fst (collect_peaks true pbs)),
               Some (Dict.map_values sorted_set m))
    /\ (forall k, Dict.mem genomic_eqb k m = true
                  <-> In k (build_union_list (fst (collect_peaks true pbs))))
    /\ (forall u s,
          has m u s
          <-> exists peaks p,
                In (s, peaks) pbs /\ In p peaks
                /\ In u (build_union_list (fst (collect_peaks true pbs)))
                /\ g_chrom p = g_chrom u
                /\ intervals_overlap (interval_of p) (interval_of u) = true).
Proof.
  intros Hwf. destruct (build_membership_spec pbs Hwf) as [m [Hrun [Hk Hh]]].
  exists m. unfold union_peaks.
  pose proof (collect_fst false pbs) as E0.
  pose proof (collect_fst true pbs) as E1.
  destruct (collect_peaks false pbs) as [all0 per0].
  destruct (collect_peaks true pbs) as [all1 per1].
  cbn [fst snd negb] in *. rewrite Hrun. subst all0 all1. auto.
Qed.

(** X18.  The union list does not depend on whether membership is
    requested: without it [union_peaks] returns the same list and no
    membership map. *)
Theorem union_peaks_flag_independent
    (peaks_by_sample : Dict.t string (list GenomicInterval)) :
  (forall p, In p (all_peaks peaks_by_sample) -> genomic_well_formed p) ->
  exists union_list membership,
    union_peaks peaks_by_sample false = Some (union_list, None)
    /\ union_peaks peaks_by_sample true = Some (union_list, Some membership).
Proof.
  intros Hwf. destruct (union_peaks_both peaks_by_sample Hwf)
    as [m [H0 [H1 _]]].
  eauto.
Qed.

Lemma union_peaks_flag_independent_witness :
  exists union_list membership,
    union_peaks [("s1", [("chr1", 100, 180)]); ("s2", [("chr1", 150, 220)])]%string
      false = Some (union_list, None)
    /\ union_peaks
         [("s1", [("chr1", 100, 180)]); ("s2", [("chr1", 150, 220)])]%string
         true = Some (union_list, Some membership).
Proof.
  apply (union_peaks_flag_independent
           [("s1", [("chr1", 100, 180)]); ("s2", [("chr1", 150, 220)])]%string).
  intros p Hp. vm_compute in Hp.
  repeat (destruct Hp as [<-|Hp]; [reflexivity|]). destruct Hp.
Defined.

Lemma StronglySorted_app {A} (R : A -> A -> Prop) l1 l2 :
  StronglySorted R l1 -> StronglySorted R l2 ->
  (forall x y, In x l1 -> In y l2 -> R x y) ->
  StronglySorted R (l1 ++ l2).
Proof.
  induction 1 as [|a l1 Hs IH Hall]; intros H2 Hcross; [exact H2|].
  cbn [app]. constructor.
  - apply IH; [exact H2|]. intros x y Hx Hy. apply Hcross; [now right|exact Hy].
  - apply Forall_app. split; [exact Hall|].
    rewrite Forall_forall. intros y Hy. apply Hcross; [now left|exact Hy].
Qed.

Lemma StronglySorted_flat_map {C A} (Rc : C -> C -> Prop) (R : A -> A -> Prop)
    (f : C -> list A) cs :
  StronglySorted Rc cs ->
  (forall c, In c cs -> StronglySorted R (f c)) ->
  (forall c c' x y, Rc c c' -> In x (f c) -> In y (f c') -> R x y) ->
  StronglySorted R (flat_map f cs).
Proof.
  induction 1 as [|c cs Hs IH Hall]; intros Hin Hcross; [constructor|].
  cbn [flat_map]. apply StronglySorted_app.
  - apply Hin. now left.
  - apply IH; [|exact Hcross]. intros c' Hc'. apply Hin. now right.
  - intros x y Hx Hy. apply in_flat_map in Hy. destruct Hy as [c' [Hc' Hy]].
    rewrite Forall_forall in Hall. eapply Hcross; eauto.
Qed.

Lemma union_list_of_run pbs rm ul m :
  (forall p, In p (all_peaks pbs) -> genomic_well_formed p) ->
  union_peaks pbs rm = Some (ul, m) ->
  ul = build_union_list (fst (collect_peaks rm pbs)).
Proof.
  intros Hwf Hrun. destruct (union_peaks_returns pbs rm Hwf) as [m' H].
  rewrite Hrun in H. now injection H.
Qed.

(** X19.  The union list is well-formed, ordered and non-overlapping: every
    union peak has [start < end], and of two union peaks the earlier one
    either lies on a chromosome with a smaller name or lies on the same
    chromosome and ends strictly before the later one starts. *)
Theorem union_list_ordered_disjoint
    (peaks_by_sample : Dict.t string (list GenomicInterval))
    (return_membership : bool) (union_list : list GenomicInterval)
    (membership : option (Dict.t GenomicInterval (list string))) :
  (forall p, In p (all_peaks peaks_by_sample) -> genomic_well_formed p) ->
  union_peaks peaks_by_sample return_membership
  = Some (union_list, membership) ->
  (forall u, In u union_list -> g_start u < g_end u)
  /\ forall i j u v,
       (i < j)%nat ->
       nth_error union_list i = Some u -> nth_error union_list j = Some v ->
       String.ltb (g_chrom u) (g_chrom v) = true
       \/ (g_chrom u = g_chrom v /\ g_end u < g_start v).
Proof.
  intros Hwf Hrun.
  rewrite (union_list_of_run _ _ _ _ Hwf Hrun). split.
  - intros u Hu. apply in_union_list in Hu. destruct Hu as [Hu _].
    pose proof (merge_1d_well_formed _
                  (pooled_well_formed peaks_by_sample (g_chrom u) Hwf)) as H.
    rewrite Forall_forall in H. exact (H _ Hu).
  - apply StronglySorted_nth. rewrite build_union_list_eq.
    apply StronglySorted_flat_map
      with (Rc := fun a b => String.ltb a b = true).
    + apply sort_strings_strict, collected_keys_NoDup.
    + intros c _.
      apply (StronglySorted_map (on_chrom c)
               (fun u v => String.ltb (g_chrom u) (g_chrom v) = true
                           \/ (g_chrom u = g_chrom v /\ g_end u < g_start v))).
      eapply StronglySorted_weaken; [|apply merge_1d_apart].
      intros a b Hab. right. split; [reflexivity|exact Hab].
    + intros c c' x y Hc Hx Hy. apply in_map_iff in Hx, Hy.
      destruct Hx as [a [<- _]], Hy as [b [<- _]]. now left.
Qed.

Lemma union_list_ordered_disjoint_witness :
  (forall u, In u [("chr1", 100, 220); ("chr2", 50, 90)]%string ->
             g_start u < g_end u)
  /\ forall i j u v,
       (i < j)%nat ->
       nth_error [("chr1", 100, 220); ("chr2", 50, 90)]%string i = Some u ->
       nth_error [("chr1", 100, 220); ("chr2", 50, 90)]%string j = Some v ->
       String.ltb (g_chrom u) (g_chrom v) = true
       \/ (g_chrom u = g_chrom v /\ g_end u < g_start v).
Proof.
  apply (union_list_ordered_disjoint
           [("s1", [("chr2", 50, 90); ("chr1", 100, 180)]);
            ("s2", [("chr1", 180, 220)])]%string false
           [("chr1", 100, 220); ("chr2", 50, 90)]%string None).
  - intros p Hp. vm_compute in Hp.
    repeat (destruct Hp as [<-|Hp]; [reflexivity|]). destruct Hp.
  - reflexivity.
Defined.

(** A merged interval contains an input interval that starts where it
    starts. *)
Lemma merge_1d_start_witness l u :
  Forall well_formed l -> In u (merge_1d l) ->
  exists a, In a l /\ fst a = fst u /\ contains u a.
Proof.
  intros Hwf Hu. destruct (merge_1d_origin l u Hu) as [[a [Ha Hfst]] _].
  exists a. split; [exact Ha|]. split; [exact Hfst|].
  destruct (merge_1d_contains l a Ha) as [v [Hv Hc]].
  pose proof (merge_1d_well_formed l Hwf) as Hwm.
  rewrite Forall_forall in Hwf, Hwm.
  pose proof (Hwf a Ha) as Hwa. pose proof (Hwm u Hu) as Hwu.
  pose proof (Hwm v Hv) as Hwv.
  destruct (strongly_sorted_pair apart _ u v (merge_1d_apart l) Hu Hv)
    as [->|[H|H]]; [exact Hc| |];
    unfold apart, contains, well_formed in *; lia.
Qed.

Lemma in_all_peaks pbs p :
  In p (all_peaks pbs) <-> exists s peaks, In (s, peaks) pbs /\ In p peaks.
Proof.
  unfold all_peaks. rewrite in_flat_map. split.
  - intros [[s peaks] [H1 H2]]. eauto.
  - intros [s [peaks [H1 H2]]]. exists (s, peaks). auto.
Qed.

Lemma contained_overlaps (u a : Interval) :
  well_formed a -> contains u a -> intervals_overlap a u = true.
Proof.
  destruct u as [us ue], a as [s e].
  unfold well_formed, contains, intervals_overlap. cbn [fst snd].
  intros Hw [H1 H2]. apply andb_true_iff. rewrite !Z.ltb_lt. lia.
Qed.

Lemma membership_get_sorted (m : Membership) u samples :
  Dict.get genomic_eqb u (Dict.map_values sorted_set m) = Some samples ->
  forall s, In s samples <-> has m u s.
Proof.
  rewrite get_map_values. unfold has.
  destruct (Dict.get genomic_eqb u m) as [l|]; [|discriminate].
  intros [= <-] s. rewrite sorted_set_in. split; [eauto|].
  now intros [l' [[= <-] H]].
Qed.

(** X20.  With membership requested, the membership map has an entry
    exactly for the union peaks, and no entry is empty: every union peak
    lists at least one sample. *)
Theorem union_peaks_membership_nonempty
    (peaks_by_sample : Dict.t string (list GenomicInterval))
    (union_list : list GenomicInterval)
    (membership : Dict.t GenomicInterval (list string)) :
  (forall p, In p (all_peaks peaks_by_sample) -> genomic_well_formed p) ->
  union_peaks peaks_by_sample true = Some (union_list, Some membership) ->
  (forall u, Dict.mem genomic_eqb u membership = true <-> In u union_list)
  /\ forall u, In u union_list ->
       exists samples s,
         Dict.get genomic_eqb u membership = Some samples /\ In s samples.
Proof.
  intros Hwf Hrun.
  destruct (union_peaks_both peaks_by_sample Hwf) as [m [_ [H1 [Hk Hh]]]].
  rewrite Hrun in H1. injection H1 as -> ->.
  assert (Hmem : forall u,
            Dict.mem genomic_eqb u (Dict.map_values sorted_set m)
            = Dict.mem genomic_eqb u m).
  { intros u. unfold Dict.mem. rewrite get_map_values.
    now destruct (Dict.get genomic_eqb u m). }
  split.
  - intros u. rewrite Hmem. apply Hk.
  - intros u Hu. pose proof (proj2 (Hk u) Hu) as Hin.
    rewrite <- Hmem in Hin. unfold Dict.mem in Hin.
    destruct (Dict.get genomic_eqb u (Dict.map_values sorted_set m))
      as [samples|] eqn:E; [|discriminate].
    apply in_union_list in Hu as Hu'. destruct Hu' as [Hmerged _].
    destruct (merge_1d_start_witness _ _
                (pooled_well_formed peaks_by_sample (g_chrom u) Hwf) Hmerged)
      as [a [Ha [_ Hc]]].
    pose proof (pooled_well_formed peaks_by_sample (g_chrom u) Hwf) as Hwp.
    rewrite Forall_forall in Hwp. specialize (Hwp a Ha).
    apply in_pooled in Ha. destruct Ha as [p [Hp [Hchrom <-]]].
    apply in_all_peaks in Hp. destruct Hp as [s [peaks [Hent Hpin]]].
    exists samples, s. split; [reflexivity|].
    apply (membership_get_sorted m u samples E). apply Hh.
    exists peaks, p. repeat split; auto.
    now apply contained_overlaps.
Qed.

Lemma union_peaks_membership_nonempty_witness :
  (forall u,
     Dict.mem genomic_eqb u
       [("chr1", 100, 220, ["s1"; "s2"])]%string = true
     <-> In u [("chr1", 100, 220)]%string)
  /\ forall u, In u [("chr1", 100, 220)]%string ->
       exists samples s,
         Dict.get genomic_eqb u [("chr1", 100, 220, ["s1"; "s2"])]%string
         = Some samples
         /\ In s samples.
Proof.
  apply (union_peaks_membership_nonempty
           [("s2", [("chr1", 150, 220)]); ("s1", [("chr1", 100, 180)])]%string
           [("chr1", 100, 220)]%string
           [("chr1", 100, 220, ["s1"; "s2"])]%string).
  - intros p Hp. vm_compute in Hp.
    repeat (destruct Hp as [<-|Hp]; [reflexivity|]). destruct Hp.
  - reflexivity.
Defined.

(** X21.  Every input interval lies inside a union peak of its chromosome,
    that union peak lists the interval's sample, and it is the only union
    peak of the chromosome that the interval strictly overlaps. *)
Theorem input_peak_in_one_union_peak
    (peaks_by_sample : Dict.t string (list GenomicInterval))
    (union_list : list GenomicInterval)
    (membership : Dict.t GenomicInterval (list string))
    (s : string) (peaks : list GenomicInterval) (p : GenomicInterval) :
  (forall p, In p (all_peaks peaks_by_sample) -> genomic_well_formed p) ->
  union_peaks peaks_by_sample true = Some (union_list, Some membership) ->
  In (s, peaks) peaks_by_sample -> In p peaks ->
  exists u,
    In u union_list /\ g_chrom u = g_chrom p
    /\ contains (interval_of u) (interval_of p)
    /\ (exists samples,
          Dict.get genomic_eqb u membership = Some samples /\ In s samples)
    /\ forall u',
         In u' union_list -> g_chrom u' = g_chrom p ->
         intervals_overlap (interval_of p) (interval_of u') = true ->
         u' = u.
Proof.
  intros Hwf Hrun Hent Hpin.
  destruct (union_peaks_both peaks_by_sample Hwf) as [m [_ [H1 [Hk Hh]]]].
  rewrite Hrun in H1. injection H1 as -> ->.
  assert (Hall : In p (all_peaks peaks_by_sample)).
  { apply in_all_peaks. eauto. }
  assert (Hpool : In (interval_of p) (pooled peaks_by_sample (g_chrom p))).
  { apply in_pooled. eauto. }
  destruct (merge_1d_contains _ _ Hpool) as [a [Ha Hc]].
  exists (on_chrom (g_chrom p) a).
  assert (Hu : In (on_chrom (g_chrom p) a)
                 (build_union_list (fst (collect_peaks true peaks_by_sample)))).
  { now apply merged_in_union_list. }
  rewrite interval_of_on_chrom.
  split; [exact Hu|]. split; [reflexivity|]. split; [exact Hc|]. split.
  - pose proof (proj2 (Hk _) Hu) as Hin. unfold Dict.mem in Hin.
    destruct (Dict.get genomic_eqb (on_chrom (g_chrom p) a) m) as [l|] eqn:E;
      [|discriminate].
    exists (sorted_set l). rewrite get_map_values, E. split; [reflexivity|].
    apply sorted_set_in.
    assert (Hhas : has m (on_chrom (g_chrom p) a) s).
    { apply Hh. exists peaks, p. repeat split; auto.
      rewrite interval_of_on_chrom. apply contained_overlaps; [|exact Hc].
      exact (Hwf p Hall). }
    destruct Hhas as [l' [Hl' Hin']]. congruence.
  - intros u' Hu' Hchrom Hov.
    apply in_union_list in Hu'. destruct Hu' as [Hm' _]. rewrite Hchrom in Hm'.
    rewrite <- (on_chrom_interval_of u'), Hchrom. f_equal.
    pose proof (Hwf p Hall) as Hwp. unfold genomic_well_formed in Hwp.
    destruct (strongly_sorted_pair apart _ _ _
                (merge_1d_apart (pooled peaks_by_sample (g_chrom p))) Hm' Ha)
      as [H|[H|H]]; [exact H| |]; exfalso;
      destruct (interval_of u') as [us ue], a as [s0 e0];
      unfold apart, contains, intervals_overlap, interval_of in *;
      cbn [fst snd] in *; apply andb_true_iff in Hov;
      rewrite !Z.ltb_lt in Hov; lia.
Qed.

Lemma input_peak_in_one_union_peak_witness :
  exists u,
    In u [("chr1", 100, 220)]%string
    /\ g_chrom u = g_chrom ("chr1", 150, 220)%string
    /\ contains (interval_of u) (interval_of ("chr1", 150, 220)%string)
    /\ (exists samples,
          Dict.get genomic_eqb u [("chr1", 100, 220, ["s1"; "s2"])]%string
          = Some samples
          /\ In "s2"%string samples)
    /\ forall u',
         In u' [("chr1", 100, 220)]%string ->
         g_chrom u' = g_chrom ("chr1", 150, 220)%string ->
         intervals_overlap (interval_of ("chr1", 150, 220)%string)
           (interval_of u') = true ->
         u' = u.
Proof.
  apply (input_peak_in_one_union_peak
           [("s2", [("chr1", 150, 220)]); ("s1", [("chr1", 100, 180)])]%string
           [("chr1", 100, 220)]%string
           [("chr1", 100, 220, ["s1"; "s2"])]%string
           "s2"%string [("chr1", 150, 220)]%string ("chr1", 150, 220)%string).
  - intros p Hp. vm_compute in Hp.
    repeat (destruct Hp as [<-|Hp]; [reflexivity|]). destruct Hp.
  - reflexivity.
  - now left.
  - now left.
Defined.

(** ** The chromosome-scoped sweep on non-overlapping lists *)

Lemma sweep_genomic_acc la : forall lb ov,
  sweep_genomic la lb ov = ov ++ sweep_genomic la lb [].
Proof.
  induction la as [|[[sa ea] ia] la IHa]; intros lb.
  - intros ov. rewrite !sweep_genomic_nil_l. now rewrite app_nil_r.
  - induction lb as [|[[sb eb] ib] lb IHb]; intros ov.
    + cbn. now rewrite app_nil_r.
    + rewrite !sweep_genomic_cons.
      destruct (ea <=? eb);
        [rewrite IHa, (IHa _ (if _ : bool then _ else _))
        |rewrite IHb, (IHb (if _ : bool then _ else _))];
        destruct ((sa <? eb) && (sb <? ea)); cbn [app];
        now rewrite <- ?app_assoc, ?app_nil_r.
Qed.

Lemma sweep_genomic_complete la : forall lb sa ea p sb eb q,
  ix_in_order la -> ix_in_order lb ->
  In (sa, ea, p) la -> In (sb, eb, q) lb -> sa < eb -> sb < ea ->
  In (p, q) (sweep_genomic la lb []).
Proof.
  induction la as [|[[s0 e0] i0] la IHa]; intros lb; [intros; contradiction|].
  induction lb as [|[[t0 f0] j0] lb IHb];
    intros sa ea p sb eb q Ha Hb Hp Hq H1 H2; [contradiction|].
  rewrite sweep_genomic_cons.
  apply StronglySorted_inv in Ha as Ha'. destruct Ha' as [Ha' Hx0].
  apply StronglySorted_inv in Hb as Hb'. destruct Hb' as [Hb' Hy0].
  rewrite Forall_forall in Hx0, Hy0.
  destruct Hp as [Hp|Hp], Hq as [Hq|Hq].
  - injection Hp as -> -> ->. injection Hq as -> -> ->.
    rewrite (proj2 (Z.ltb_lt sa eb) H1), (proj2 (Z.ltb_lt sb ea) H2).
    cbn [andb app].
    destruct (ea <=? eb); rewrite sweep_genomic_acc; now left.
  - injection Hp as -> -> ->.
    specialize (Hy0 _ Hq). unfold ix_end, ix_start in Hy0. cbn [fst snd] in Hy0.
    destruct (ea <=? f0) eqn:E; [apply Z.leb_le in E; lia|].
    rewrite sweep_genomic_acc. apply in_app_iff. right.
    apply (IHb sa ea p sb eb q); auto. now left.
  - injection Hq as -> -> ->.
    specialize (Hx0 _ Hp). unfold ix_end, ix_start in Hx0. cbn [fst snd] in Hx0.
    destruct (e0 <=? eb) eqn:E; [|apply Z.leb_gt in E; lia].
    rewrite sweep_genomic_acc. apply in_app_iff. right.
    apply (IHa _ sa ea p sb eb q); auto. now left.
  - destruct (e0 <=? f0); rewrite sweep_genomic_acc; apply in_app_iff; right.
    + apply (IHa _ sa ea p sb eb q); auto. now right.
    + apply (IHb sa ea p sb eb q); auto. now right.
Qed.

Lemma fold_sweep_genomic_keeps (ga gb : string -> list Indexed) cs :
  forall ov x,
    In x ov ->
    In x (fold_left
            (fun overlaps chrom => sweep_genomic (ga chrom) (gb chrom) overlaps)
            cs ov).
Proof.
  induction cs as [|c cs IH]; intros ov x H; [exact H|].
  cbn [fold_left]. apply IH. rewrite sweep_genomic_acc.
  apply in_app_iff. now left.
Qed.

Lemma fold_sweep_genomic_complete (ga gb : string -> list Indexed) cs :
  forall ov c x,
    In c cs -> In x (sweep_genomic (ga c) (gb c) []) ->
    In x (fold_left
            (fun overlaps chrom => sweep_genomic (ga chrom) (gb chrom) overlaps)
            cs ov).
Proof.
  induction cs as [|c0 cs IH]; intros ov c x Hc Hx; [contradiction|].
  cbn [fold_left]. destruct Hc as [->|Hc].
  - apply fold_sweep_genomic_keeps. rewrite sweep_genomic_acc.
    apply in_app_iff. now right.
  - now apply IH with c.
Qed.

Lemma StronglySorted_distinct {A B} (R Q : A -> A -> Prop) (f : A -> B) l :
  StronglySorted R l -> NoDup (map f l) ->
  (forall x y, In x l -> In y l -> f x <> f y -> R x y -> Q x y) ->
  StronglySorted Q l.
Proof.
  induction 1 as [|a l Hs IH Hall]; intros Hnd HQ; constructor.
  - apply IH; [now inversion Hnd|]. intros x y Hx Hy. apply HQ; now right.
  - rewrite Forall_forall in *. intros y Hy.
    apply HQ; [now left|now right| |now apply Hall].
    cbn [map] in Hnd. inversion Hnd as [|? ? Hnotin _]; subst.
    intros Heq. apply Hnotin. rewrite Heq. now apply in_map.
Qed.

Lemma group_indexed_in_order l c :
  chrom_disjoint l ->
  ix_in_order (Dict.get_or String.eqb [] c (group_indexed l)).
Proof.
  intros [Hwf Hdis].
  apply (StronglySorted_distinct _ _ ix_idx _
           (group_indexed_sorted l c) (group_indexed_idx_NoDup l c)).
  intros [[sa ea] p] [[sb eb] q] Hx Hy Hne Hle.
  apply group_indexed_in in Hx, Hy.
  unfold ix_idx, ix_start, ix_end in *. cbn [fst snd] in *.
  assert (Hpq : p <> q) by congruence.
  pose proof (Hwf _ (nth_error_In _ _ Hy)) as Hwy.
  destruct (Hdis p q _ _ Hpq Hx Hy eq_refl) as [H|H];
    unfold g_start, g_end in *; cbn [fst snd] in *; lia.
Qed.

(** X22.  When, in each of the two lists, every interval has [start < end]
    and no two intervals of the same chromosome overlap,
    [find_overlaps_genomic] reports exactly the pairs of original positions
    whose intervals lie on the same chromosome and strictly overlap. *)
Theorem find_overlaps_genomic_exact_on_disjoint
    (intervals_a intervals_b : list GenomicInterval) (i j : nat) :
  chrom_disjoint intervals_a -> chrom_disjoint intervals_b ->
  (In (i, j) (find_overlaps_genomic intervals_a intervals_b)
   <-> exists chrom sa ea sb eb,
         nth_error intervals_a i = Some (chrom, sa, ea)
         /\ nth_error intervals_b j = Some (chrom, sb, eb)
         /\ sa < eb /\ sb < ea).
Proof.
  intros Ha Hb. unfold find_overlaps_genomic. split.
  - intros H.
    apply (fold_sweep_genomic_sound
             (fun c => Dict.get_or String.eqb [] c (group_indexed intervals_a))
             (fun c => Dict.get_or String.eqb [] c (group_indexed intervals_b)))
      in H.
    destruct H as [[]|[chrom [sa [ea [sb [eb [Hx [Hy Hov]]]]]]]].
    apply group_indexed_in in Hx, Hy.
    exists chrom, sa, ea, sb, eb. auto.
  - intros [chrom [sa [ea [sb [eb [Hx [Hy [H1 H2]]]]]]]].
    apply (fold_sweep_genomic_complete
             (fun c => Dict.get_or String.eqb [] c (group_indexed intervals_a))
             (fun c => Dict.get_or String.eqb [] c (group_indexed intervals_b))
             _ _ chrom).
    + apply common_keys_in. split.
      * apply group_indexed_keys. eauto.
      * apply (mem_iff String.eqb string_eqb_spec), group_indexed_keys. eauto.
    + apply (sweep_genomic_complete _ _ sa ea i sb eb j);
        try (now apply group_indexed_in_order);
        try (now apply group_indexed_in); assumption.
Qed.

Lemma find_overlaps_genomic_exact_on_disjoint_witness :
  In (2%nat, 0%nat)
    (find_overlaps_genomic
       [("chr2", 10, 60); ("chr1", 300, 330); ("chr1", 100, 180)]%string
       [("chr1", 150, 310); ("chr2", 60, 90)]%string)
  <-> exists chrom sa ea sb eb,
        nth_error [("chr2", 10, 60); ("chr1", 300, 330); ("chr1", 100, 180)]%string
          2 = Some (chrom, sa, ea)
        /\ nth_error [("chr1", 150, 310); ("chr2", 60, 90)]%string 0
           = Some (chrom, sb, eb)
        /\ sa < eb /\ sb < ea.
Proof.
  apply (find_overlaps_genomic_exact_on_disjoint
           [("chr2", 10, 60); ("chr1", 300, 330); ("chr1", 100, 180)]%string
           [("chr1", 150, 310); ("chr2", 60, 90)]%string 2 0).
  - split.
    + intros x Hx.
      repeat (destruct Hx as [<-|Hx]; [reflexivity|]). destruct Hx.
    + intros p q x y Hpq Hp Hq Hc.
      destruct p as [|[|[|p]]], q as [|[|[|q]]]; cbn in Hp, Hq;
        try (destruct p; discriminate); try (destruct q; discriminate);
        try congruence;
        injection Hp as <-; injection Hq as <-;
        try discriminate; unfold g_start, g_end; cbn; lia.
  - split.
    + intros x Hx.
      repeat (destruct Hx as [<-|Hx]; [reflexivity|]). destruct Hx.
    + intros p q x y Hpq Hp Hq Hc.
      destruct p as [|[|p]], q as [|[|q]]; cbn in Hp, Hq;
        try (destruct p; discriminate); try (destruct q; discriminate);
        try congruence;
        injection Hp as <-; injection Hq as <-;
        try discriminate; unfold g_start, g_end; cbn; lia.
Defined.

(** ** The union peaks depend only on which peaks each sample has *)

Lemma strictly_ascending_unique : forall l1 l2,
  strictly_ascending l1 -> strictly_ascending l2 ->
  (forall x, In x l1 <-> In x l2) -> l1 = l2.
Proof.
  assert (Hirr : forall x, String.ltb x x = true -> False).
  { intros x H. apply string_ltb_iff in H. now destruct H. }
  assert (Hasym : forall x y,
            String.ltb x y = true -> String.ltb y x = true -> False).
  { intros x y H1 H2. apply string_ltb_iff in H1, H2.
    destruct H1 as [H1 Hne], H2 as [H2 _].
    apply string_leb_iff in H1, H2.
    destruct H1 as [H1|H1]; [contradiction|].
    destruct H2 as [H2|H2]; [now symmetry in H2|].
    pose proof (String_as_OT.lt_trans _ _ _ H1 H2) as H.
    exact (String_as_OT.lt_not_eq _ _ H eq_refl). }
  induction l1 as [|a l1 IH]; intros l2 H1 H2 Hin.
  - destruct l2 as [|b l2]; [reflexivity|].
    exfalso. apply (Hin b). now left.
  - destruct l2 as [|b l2]; [exfalso; apply (Hin a); now left|].
    apply StronglySorted_inv in H1. destruct H1 as [H1 Ha].
    apply StronglySorted_inv in H2. destruct H2 as [H2 Hb].
    rewrite Forall_forall in Ha, Hb.
    assert (Hab : a = b).
    { destruct (proj1 (Hin a) (or_introl eq_refl)) as [E|E]; [now symmetry|].
      destruct (proj2 (Hin b) (or_introl eq_refl)) as [E'|E']; [exact E'|].
      exfalso. exact (Hasym _ _ (Ha _ E') (Hb _ E)). }
    subst b. f_equal. apply IH; auto.
    intros x. split; intros Hx.
    + destruct (proj1 (Hin x) (or_intror Hx)) as [E|E]; [|exact E].
      subst x. exfalso. exact (Hirr _ (Ha _ Hx)).
    + destruct (proj2 (Hin x) (or_intror Hx)) as [E|E]; [|exact E].
      subst x. exfalso. exact (Hirr _ (Hb _ Hx)).
Qed.

Lemma sorted_set_ext l l' :
  (forall s, In s l <-> In s l') -> sorted_set l = sorted_set l'.
Proof.
  intros H. apply strictly_ascending_unique.
  - apply sort_strings_strict, NoDup_nodup.
  - apply sort_strings_strict, NoDup_nodup.
  - intros s. now rewrite !sorted_set_in.
Qed.

Lemma same_peaks_all_peaks a b p :
  same_peaks a b -> (In p (all_peaks a) <-> In p (all_peaks b)).
Proof.
  intros H. rewrite !in_all_peaks. split.
  - intros [s [peaks Hp]]. exists s. apply (H s p). eauto.
  - intros [s [peaks Hp]]. exists s. apply (H s p). eauto.
Qed.

Lemma same_peaks_union_list a b :
  (forall p, In p (all_peaks a) -> genomic_well_formed p) ->
  same_peaks a b ->
  build_union_list (fst (collect_peaks true a))
  = build_union_list (fst (collect_peaks true b)).
Proof.
  intros Hwf Hsame.
  assert (Hwfb : forall p, In p (all_peaks b) -> genomic_well_formed p).
  { intros p Hp. apply Hwf. now apply (same_peaks_all_peaks a b). }
  rewrite !build_union_list_eq.
  assert (Hkeys : sort_strings (Dict.keys (fst (collect_peaks true a)))
                  = sort_strings (Dict.keys (fst (collect_peaks true b)))).
  { apply strictly_ascending_unique;
      try (apply sort_strings_strict, collected_keys_NoDup).
    intros c. rewrite !sort_strings_in, !collected_keys.
    split; intros [p [Hp Hc]]; exists p; split; auto;
      now apply (same_peaks_all_peaks a b). }
  rewrite Hkeys. apply flat_map_ext. intros c. f_equal.
  apply merge_1d_by_coverage; try now apply pooled_well_formed.
  intros x. unfold covered.
  split; intros [i [Hi Hx]]; exists i; (split; [|exact Hx]);
    apply in_pooled in Hi; apply in_pooled;
    destruct Hi as [p [Hp H]]; exists p; (split; [|exact H]);
    now apply (same_peaks_all_peaks a b).
Qed.

(** X23.  The result of [union_peaks] depends only on which peaks each
    sample has: two inputs that give every sample the same set of peaks,
    whatever the order of the samples and the order or repetition of the
    peaks, yield the same union list and membership maps with the same
    entry for every key. *)
Theorem union_peaks_depends_on_peak_sets
    (peaks_by_sample peaks_by_sample' : Dict.t string (list GenomicInterval)) :
  (forall p, In p (all_peaks peaks_by_sample) -> genomic_well_formed p) ->
  same_peaks peaks_by_sample peaks_by_sample' ->
  exists union_list membership membership',
    union_peaks peaks_by_sample true = Some (union_list, Some membership)
    /\ union_peaks peaks_by_sample' true = Some (union_list, Some membership')
    /\ forall u,
         Dict.get genomic_eqb u membership = Dict.get genomic_eqb u membership'.
Proof.
  intros Hwf Hsame.
  assert (Hwfb : forall p, In p (all_peaks peaks_by_sample') ->
                           genomic_well_formed p).
  { intros p Hp. apply Hwf.
    now apply (same_peaks_all_peaks peaks_by_sample peaks_by_sample'). }
  destruct (union_peaks_both peaks_by_sample Hwf) as [m [_ [Ha [Hka Hha]]]].
  destruct (union_peaks_both peaks_by_sample' Hwfb) as [m' [_ [Hb [Hkb Hhb]]]].
  rewrite <- (same_peaks_union_list _ _ Hwf Hsame) in Hb, Hkb, Hhb.
  eexists _, _, _. split; [exact Ha|]. split; [exact Hb|].
  intros u. rewrite !get_map_values.
  assert (Hhas : forall s, has m u s <-> has m' u s).
  { intros s. rewrite Hha, Hhb.
    split; intros [peaks [p [H1 [H2 H3]]]].
    - destruct (proj1 (Hsame s p) (ex_intro _ peaks (conj H1 H2)))
        as [peaks' [H1' H2']]. exists peaks', p. auto.
    - destruct (proj2 (Hsame s p) (ex_intro _ peaks (conj H1 H2)))
        as [peaks' [H1' H2']]. exists peaks', p. auto. }
  pose proof (Hka u) as Hku. pose proof (Hkb u) as Hku'.
  unfold Dict.mem in Hku, Hku'. unfold has in Hhas.
  destruct (Dict.get genomic_eqb u m) as [l|] eqn:E,
           (Dict.get genomic_eqb u m') as [l'|] eqn:E'; cbn [option_map].
  - f_equal. apply sorted_set_ext. intros s. split; intros Hs.
    + destruct (proj1 (Hhas s) (ex_intro _ l (conj eq_refl Hs)))
        as [l0 [[= <-] H]]. exact H.
    + destruct (proj2 (Hhas s) (ex_intro _ l' (conj eq_refl Hs)))
        as [l0 [[= <-] H]]. exact H.
  - exfalso. pose proof (proj2 Hku' (proj1 Hku eq_refl)). discriminate.
  - exfalso. pose proof (proj2 Hku (proj1 Hku' eq_refl)). discriminate.
  - reflexivity.
Qed.

Lemma union_peaks_depends_on_peak_sets_witness :
  exists union_list membership membership',
    union_peaks
      [("s1", [("chr1", 100, 180); ("chr2", 50, 90)]);
       ("s2", [("chr1", 150, 220)])]%string true
    = Some (union_list, Some membership)
    /\ union_peaks
         [("s2", [("chr1", 150, 220); ("chr1", 150, 220)]);
          ("s1", [("chr2", 50, 90); ("chr1", 100, 180)])]%string true
       = Some (union_list, Some membership')
    /\ forall u,
         Dict.get genomic_eqb u membership = Dict.get genomic_eqb u membership'.
Proof.
  apply (union_peaks_depends_on_peak_sets
           [("s1", [("chr1", 100, 180); ("chr2", 50, 90)]);
            ("s2", [("chr1", 150, 220)])]%string
           [("s2", [("chr1", 150, 220); ("chr1", 150, 220)]);
            ("s1", [("chr2", 50, 90); ("chr1", 100, 180)])]%string).
  - intros p Hp. vm_compute in Hp.
    repeat (destruct Hp as [<-|Hp]; [reflexivity|]). destruct Hp.
  - intros s p. split; intros [peaks [H1 H2]].
    + destruct H1 as [[= <- <-]|[[= <- <-]|[]]].
      * exists [("chr2", 50, 90); ("chr1", 100, 180)]%string.
        split; [right; now left|].
        destruct H2 as [<-|[<-|[]]]; [right; now left|now left].
      * exists [("chr1", 150, 220); ("chr1", 150, 220)]%string.
        split; [now left|]. destruct H2 as [<-|[]]. now left.
    + destruct H1 as [[= <- <-]|[[= <- <-]|[]]].
      * exists [("chr1", 150, 220)]%string.
        split; [right; now left|].
        destruct H2 as [<-|[<-|[]]]; now left.
      * exists [("chr1", 100, 180); ("chr2", 50, 90)]%string.
        split; [now left|].
        destruct H2 as [<-|[<-|[]]]; [right; now left|now left].
Defined.

(** ** Peaks grouped by chromosome keep their index and their order on ties *)

Lemma insert_sorted_stable {A} (key : A -> Z) (T : A -> A -> Prop) x l :
  StronglySorted (fun a b => key a < key b \/ (key a = key b /\ T a b)) l ->
  Forall (T x) l ->
  StronglySorted (fun a b => key a < key b \/ (key a = key b /\ T a b))
    (insert_sorted (fun a b => key a <=? key b) x l).
Proof.
  induction 1 as [|y l Hs IH Hall]; intros HT; cbn [insert_sorted].
  - repeat constructor.
  - rewrite Forall_forall in Hall, HT.
    destruct (key x <=? key y) eqn:E.
    + apply Z.leb_le in E.
      constructor; [constructor; [exact Hs|now apply Forall_forall]|].
      rewrite Forall_forall. intros z Hz.
      pose proof (HT z Hz) as Hxz.
      assert (Hyz : key y <= key z).
      { destruct Hz as [<-|Hz]; [lia|]. specialize (Hall z Hz). lia. }
      destruct (Z.eq_dec (key x) (key z)); [right; auto|left; lia].
    + apply Z.leb_gt in E. constructor.
      * apply IH. rewrite Forall_forall. intros z Hz. apply HT. now right.
      * rewrite Forall_forall. intros z Hz.
        apply (Permutation_in _ (insert_sorted_perm _ x l)) in Hz.
        destruct Hz as [<-|Hz]; [left; lia|now apply Hall].
Qed.

(** The sort is stable: elements with equal keys keep the order [T] in which
    the input lists them. *)
Lemma sort_by_key_stable {A} (key : A -> Z) (T : A -> A -> Prop) l :
  StronglySorted T l ->
  StronglySorted (fun a b => key a < key b \/ (key a = key b /\ T a b))
    (sort_by_key key l).
Proof.
  induction 1 as [|a l Hs IH Hall].
  - constructor.
  - unfold sort_by_key, stable_sort. cbn [fold_right].
    apply insert_sorted_stable; [exact IH|].
    rewrite Forall_forall in *. intros z Hz. apply Hall.
    now apply (sort_by_key_in key z l).
Qed.

Lemma combine_seq_ascending {A} (l : list A) : forall n,
  StronglySorted (fun x y : nat * A => (fst x < fst y)%nat)
    (combine (seq n (List.length l)) l).
Proof.
  induction l as [|a l IH]; intros n; cbn [List.length seq combine];
    constructor; [apply IH|].
  rewrite Forall_forall. intros [i y] Hin. apply in_combine_l in Hin.
  apply in_seq in Hin. cbn [fst]. lia.
Qed.

Lemma StronglySorted_filter_keeps {A} (R : A -> A -> Prop) (P : A -> bool) l :
  StronglySorted R l -> StronglySorted R (filter P l).
Proof.
  induction 1 as [|a l Hs IH Hall]; cbn [filter]; [constructor|].
  destruct (P a); [|exact IH]. constructor; [exact IH|].
  rewrite Forall_forall in *. intros y Hy. apply filter_In in Hy.
  now apply Hall.
Qed.

(** X24.  [group_by_chrom_peaks] keeps every peak with the index it has in
    the input: a chromosome has an entry exactly when a peak lies on it, its
    list holds [(start, end, idx)] exactly for the peaks [peaks[idx]] of that
    chromosome, each index once, in ascending order of start and, among
    equal starts, in the order of the input. *)
Theorem group_by_chrom_peaks_entries (peaks : list GenomicInterval)
    (chrom : string) :
  (Dict.mem String.eqb chrom (group_by_chrom_peaks peaks) = true
   <-> exists idx s e, nth_error peaks idx = Some (chrom, s, e))
  /\ (forall s e idx,
        In (s, e, idx)
          (Dict.get_or String.eqb [] chrom (group_by_chrom_peaks peaks))
        <-> nth_error peaks idx = Some (chrom, s, e))
  /\ NoDup (map ix_idx
              (Dict.get_or String.eqb [] chrom (group_by_chrom_peaks peaks)))
  /\ StronglySorted by_start_then_index
       (Dict.get_or String.eqb [] chrom (group_by_chrom_peaks peaks)).
Proof.
  unfold group_by_chrom_peaks. split; [|split; [|split]].
  - rewrite (mem_iff String.eqb string_eqb_spec). apply group_indexed_keys.
  - intros s e idx. apply group_indexed_in.
  - apply group_indexed_idx_NoDup.
  - rewrite group_indexed_get.
    apply (sort_by_key_stable ix_start
             (fun x y : Indexed => (ix_idx x < ix_idx y)%nat)).
    apply StronglySorted_map, StronglySorted_filter_keeps.
    unfold enumerate.
    eapply StronglySorted_weaken; [|apply combine_seq_ascending].
    intros [i [[c s] e]] [j [[c' s'] e']] H. exact H.
Qed.
